(** * RFL-WBC: the round coordinator and the job orchestrator

    A shallow embedding of [fltk/core/federator.py] and
    [fltk/core/distributed/orchestrator.py].

    - [heapq]: the binary heap behind Python's [queue.PriorityQueue], on
      which the orchestrator keeps its pending tasks.
    - [Orchestrator]: [Orchestrator.run] and [Orchestrator.run_federated].
    - [Federator]: [Federator.exec_round], [Federator.run] and the helpers
      they call.

    Remote learners, time, the random generator, aggregation and central
    evaluation are capabilities the coordinator only consumes; they enter
    the model as a [World] of functions.  Every call that leaves the
    coordinator is written to a trace of events, so orderings between the
    phases of a round are statements about lists. *)

From Stdlib Require Import ZArith Floats.PrimFloat.
From stdpp Require Import base tactics option list gmap strings pretty.
From Equations Require Import Equations.

Set Warnings "-inexact-float".

(** * heapq: the array heap of [queue.PriorityQueue] *)

Module heapq.
Section heap.
Context {T : Type}.
(** [lt a b] is Python's [a < b] on queue items. *)
Variable lt : T → T → bool.

(** [_siftdown(heap, startpos, pos)]: the while loop, with [newitem] taken
    out of [heap[pos]] by the caller.  The parent index [(pos - 1) >> 1] is
    below [pos], hence inside the list whenever [pos] is. *)
Equations? siftdown_loop (newitem : T) (heap : list T) (startpos pos : nat)
  : list T by wf pos Nat.lt :=
siftdown_loop newitem heap startpos pos with decide (startpos < pos)%nat := {
  | right _ := <[pos := newitem]> heap
  | left _ with heap !! ((pos - 1) / 2)%nat := {
    | None := <[pos := newitem]> heap
    | Some parent with lt newitem parent := {
      | true := siftdown_loop newitem (<[pos := parent]> heap) startpos ((pos - 1) / 2)%nat
      | false := <[pos := newitem]> heap } } }.
Proof.
  change ((pos - 1) / 2 < pos)%nat.
  apply Nat.Div0.div_lt_upper_bound; lia.
Qed.

Definition _siftdown (heap : list T) (startpos pos : nat) : list T :=
  match heap !! pos with
  | Some newitem => siftdown_loop newitem heap startpos pos
  | None => heap
  end.

(** [heappush(heap, item)]: append, then sift the new last slot down
    towards the root. *)
Definition heappush (heap : list T) (item : T) : list T :=
  _siftdown (heap ++ [item]) 0 (length heap).

(** The first loop of [_siftup]: walk the smaller child up until a leaf is
    reached; returns the heap and the final hole position. *)
Definition smaller_child (heap : list T) (endpos childpos : nat) : nat :=
  let rightpos := (childpos + 1)%nat in
  match heap !! childpos, heap !! rightpos with
  | Some c, Some r =>
      if bool_decide (rightpos < endpos)%nat && negb (lt c r) then rightpos else childpos
  | _, _ => childpos
  end.

Equations? siftup_loop (heap : list T) (endpos pos : nat)
  : list T * nat by wf (endpos - pos)%nat Nat.lt :=
siftup_loop heap endpos pos with decide (2 * pos + 1 < endpos)%nat := {
  | right _ := (heap, pos)
  | left _ with heap !! smaller_child heap endpos (2 * pos + 1) := {
    | None := (heap, pos)
    | Some child :=
        siftup_loop (<[pos := child]> heap) endpos
                    (smaller_child heap endpos (2 * pos + 1)) } }.
Proof.
  unfold smaller_child.
  repeat case_match; lia.
Qed.

Definition _siftup (heap : list T) (pos : nat) : list T :=
  match heap !! pos with
  | Some newitem =>
      let '(heap', pos') := siftup_loop heap (length heap) pos in
      _siftdown (<[pos' := newitem]> heap') pos pos'
  | None => heap
  end.

(** [heappop(heap)]: [None] stands for the IndexError of popping an empty
    list. *)
Definition heappop (heap : list T) : option (T * list T) :=
  match last heap with
  | None => None
  | Some lastelt =>
      match removelast heap with
      | [] => Some (lastelt, [])
      | returnitem :: rest => Some (returnitem, _siftup (lastelt :: rest) 0)
      end
  end.

(** The queue after a sequence of [put] calls. *)
Definition put_all (heap : list T) (items : list T) : list T :=
  foldl heappush heap items.



(** ** The heap keeps its items *)

Lemma siftdown_loop_length newitem heap startpos pos :
  length (siftdown_loop newitem heap startpos pos) = length heap.
Proof.
  funelim (siftdown_loop newitem heap startpos pos);
    rewrite ?length_insert; try done.
  match goal with IH : length (siftdown_loop _ _ _ _) = _ |- _ => rewrite IH end.
  by rewrite length_insert.
Qed.

Lemma siftdown_loop_perm newitem heap startpos pos :
  (pos < length heap)%nat →
  siftdown_loop newitem heap startpos pos ≡ₚ <[pos := newitem]> heap.
Proof.
  funelim (siftdown_loop newitem heap startpos pos); try done.
  intros Hpos.
  assert (Hlt : ((pos - 1) / 2 < pos)%nat)
    by (apply Nat.Div0.div_lt_upper_bound; lia).
  match goal with IH : _ → siftdown_loop _ _ _ _ ≡ₚ _ |- _ =>
    rewrite IH by (rewrite length_insert; lia) end.
  destruct (lookup_lt_is_Some_2 heap pos Hpos) as [old Hold].
  etrans; [|apply (Permutation_insert_swap (<[pos:=newitem]> heap) pos
                     ((pos - 1) / 2) newitem parent)].
  - by rewrite list_insert_insert_eq.
  - by apply list_lookup_insert_eq.
  - by rewrite list_lookup_insert_ne by lia.
Qed.

Lemma _siftdown_perm heap startpos pos : _siftdown heap startpos pos ≡ₚ heap.
Proof.
  unfold _siftdown. destruct (heap !! pos) as [x|] eqn:Hx; [|done].
  rewrite siftdown_loop_perm by eauto using lookup_lt_Some.
  by rewrite list_insert_id.
Qed.

Lemma heappush_perm heap item : heappush heap item ≡ₚ item :: heap.
Proof.
  unfold heappush. rewrite _siftdown_perm.
  by rewrite (comm (++)).
Qed.

Lemma put_all_perm items heap : put_all heap items ≡ₚ heap ++ items.
Proof.
  revert heap. induction items as [|x items IH]; intros heap; simpl.
  - by rewrite app_nil_r.
  - unfold put_all in IH. rewrite IH, heappush_perm. simpl.
    by rewrite <-Permutation_middle.
Qed.


Lemma siftup_loop_perm heap endpos pos x :
  (pos < length heap)%nat →
  <[(siftup_loop heap endpos pos).2 := x]> (siftup_loop heap endpos pos).1
    ≡ₚ <[pos := x]> heap.
Proof.
  revert x. funelim (siftup_loop heap endpos pos); intros x Hpos; try done.
  simpl in *.
  set (c := smaller_child heap endpos (2 * pos + 1)) in *.
  assert (Hc : (pos < c)%nat).
  { unfold c, smaller_child. repeat case_match; lia. }
  match goal with IH : ∀ _, _ → _ ≡ₚ _ |- _ =>
    rewrite IH by (rewrite length_insert; eauto using lookup_lt_Some) end.
  etrans; [|apply (Permutation_insert_swap (<[pos:=x]> heap) pos c x child)].
  - by rewrite list_insert_insert_eq.
  - by apply list_lookup_insert_eq.
  - by rewrite list_lookup_insert_ne by lia.
Qed.

Lemma siftup_loop_length heap endpos pos :
  length (siftup_loop heap endpos pos).1 = length heap.
Proof.
  funelim (siftup_loop heap endpos pos); try done.
  simpl in *.
  match goal with IH : length _ = _ |- _ => rewrite IH end.
  by rewrite length_insert.
Qed.

Lemma _siftup_perm heap pos : _siftup heap pos ≡ₚ heap.
Proof.
  unfold _siftup. destruct (heap !! pos) as [x|] eqn:Hx; [|done].
  pose proof (siftup_loop_perm heap (length heap) pos x) as Hp.
  destruct (siftup_loop heap (length heap) pos) as [heap' pos'] eqn:Hloop.
  simpl in Hp. rewrite _siftdown_perm, Hp by eauto using lookup_lt_Some.
  by rewrite list_insert_id.
Qed.

Lemma heappop_None heap : heappop heap = None ↔ heap = [].
Proof.
  unfold heappop. split; [|by intros ->].
  destruct (last heap) as [x|] eqn:Hl.
  - by destruct (removelast heap).
  - intros _. by apply last_None.
Qed.

Lemma heappop_Some heap x heap' :
  heappop heap = Some (x, heap') → heap !! 0%nat = Some x ∧ heap ≡ₚ x :: heap'.
Proof.
  unfold heappop. destruct (last heap) as [lastelt|] eqn:Hl; [|done].
  apply last_Some in Hl as [front ->].
  rewrite removelast_last. destruct front as [|returnitem rest]; intros [= <- <-].
  - done.
  - split; [done|]. rewrite _siftup_perm. simpl.
    by rewrite (comm (++)).
Qed.


(** ** The root after a sequence of pushes

    For an order in which incomparable items behave alike (a priority
    compared by value), the root is the item of lowest value, and among
    several of them the one that arrived first. *)

Section root.
Hypothesis lt_asym : ∀ x y, lt x y = true → lt y x = false.
Hypothesis lt_negtrans : ∀ x y z, lt x z = true → lt x y = true ∨ lt y z = true.








(** ** The heap invariant

    No item is below its parent.  [heappush] and [heappop] keep it, so
    the root of the pending queue is an item of lowest value whatever was
    queued and taken before. *)




















End root.
End heap.
End heapq.

(** * The job orchestrator ([fltk/core/distributed/orchestrator.py]) *)

Module Orchestrator.

(** An arrival as the generator hands it over; the two configuration
    payloads are opaque. *)
Record Arrival := {
  get_priority : Z;
  get_network : string;
  get_dataset : string;
  get_system_config : string;
  get_parameter_config : string;
  worker_replication : list (string * Z)
}.

(** Modelled from the spec: the task dataclasses of [fltk.util.task.task]
    are declared outside the two source files.  The fields are those the
    constructor calls in [run] and [run_federated] pass; the spec orders
    the pending queue by arrival priority, so a [DistributedArrivalTask]
    compares by [priority] alone. *)
Record DistributedArrivalTask := {
  priority : Z;
  id : string;
  network : string;
  dataset : string;
  sys_conf : string;
  param_conf : string
}.

Definition task_lt (a b : DistributedArrivalTask) : bool :=
  (priority a <? priority b)%Z.

Record FederatedArrivalTask := {
  fed_id : string;
  fed_network : string;
  fed_dataset : string;
  type_map : list (string * Z);
  sys_config_map : string;
  param_config_map : string
}.

Record V1ConfigMap := {
  metadata_name : string;
  metadata_labels : list (string * string);
  data : list (string * string)
}.

Record V1PyTorchJob := {
  job_task : string;
  job_config_names : list (string * string)
}.

Inductive exn := TypeError | FileNotFoundError.

(** What [open] returns: the file object of a text file. *)
Record TextIOWrapper := { file_name : string; content : string }.

(** What the constructor [jinja2.Template] is given as its source. *)
Inductive template_source :=
| SourceStr (text : string)
| SourceFile (file : TextIOWrapper).

(** [jinja2.Template(source)]: a [str] is parsed and compiled; any other
    object that is not a template node is refused by the compiler with
    TypeError.  The compiled template is represented by its text. *)
Definition Template (source : template_source) : exn + string :=
  match source with
  | SourceStr text => inr text
  | SourceFile _ => inl TypeError
  end.

Definition node_template : string := "configs/node.jinja.yaml".

(** Calls that leave the orchestrator. *)
Inductive event :=
| ListJobs
| DeleteJob (job_name : string)
| OpenFile (path : string)
| GenerateConfig (tpe name : string)
| CreateConfigMap (config_map : V1ConfigMap)
| CreateJob (job : V1PyTorchJob)
| Sleep (seconds : Z).

Definition is_CreateJob (e : event) : bool :=
  match e with CreateJob _ => true | _ => false end.

Definition is_GenerateConfig (e : event) : bool :=
  match e with GenerateConfig _ _ => true | _ => false end.

Definition is_CreateConfigMap (e : event) : bool :=
  match e with CreateConfigMap _ => true | _ => false end.

(** [T] is the task type held by the queue, [lt] its order. *)
Record Orch (T : Type) := {
  _alive : bool;
  pending_tasks : list T;
  deployed_tasks : list T;
  uuids_drawn : nat
}.
Arguments _alive {T} _.
Arguments pending_tasks {T} _.
Arguments deployed_tasks {T} _.
Arguments uuids_drawn {T} _.

Section orchestrator.
(** The cluster and the library calls the orchestrator relies on. *)
Variable uuid4 : nat → string.
Variable existing_jobs : list string.
Variable construct_job : DistributedArrivalTask → V1PyTorchJob.
Variable construct_federated_job :
  FederatedArrivalTask → list (string * string) → V1PyTorchJob.
(** The text files of the working directory, and [template.generate]. *)
Variable read_file : string → option string.
Variable generate : string → FederatedArrivalTask → string → Z → string.
Variable fed_lt : FederatedArrivalTask → FederatedArrivalTask → bool.

(** [__clear_jobs]: a deletion that raises is caught and logged, so every
    listed job is attempted in turn. *)
Definition clear_jobs : list event :=
  ListJobs :: map DeleteJob existing_jobs.

Definition stop {T} (st : Orch T) : Orch T :=
  {| _alive := false; pending_tasks := pending_tasks st;
     deployed_tasks := deployed_tasks st; uuids_drawn := uuids_drawn st |}.

(** One turn of the arrival loop of [run]: draw an identifier, build the
    task, put it on the queue. *)
Definition arrive (st : Orch DistributedArrivalTask) (arrival : Arrival)
  : Orch DistributedArrivalTask :=
  let task := {| priority := get_priority arrival;
                 id := uuid4 (uuids_drawn st);
                 network := get_network arrival;
                 dataset := get_dataset arrival;
                 sys_conf := get_system_config arrival;
                 param_conf := get_parameter_config arrival |} in
  {| _alive := _alive st;
     pending_tasks := heapq.heappush task_lt (pending_tasks st) task;
     deployed_tasks := deployed_tasks st;
     uuids_drawn := S (uuids_drawn st) |}.

(** The main loop of [run].  Wall-clock time is abstracted to the list of
    passes that fit in the configured duration; each pass carries the
    arrivals found waiting.  The body of [while not pending_tasks.empty()]
    ends in [self.stop(); return], so it runs at most once. *)
Fixpoint run_loop (passes : list (list Arrival)) (st : Orch DistributedArrivalTask)
  : list event * Orch DistributedArrivalTask :=
  match passes with
  | [] => ([], st)
  | batch :: later =>
      if _alive st then
        let st1 := foldl arrive st batch in
        match heapq.heappop task_lt (pending_tasks st1) with
        | Some (curr_task, rest) =>
            let job_to_start := construct_job curr_task in
            ([CreateJob job_to_start],
             stop {| _alive := _alive st1; pending_tasks := rest;
                     deployed_tasks := deployed_tasks st1 ++ [curr_task];
                     uuids_drawn := uuids_drawn st1 |})
        | None =>
            let '(t, st') := run_loop later st1 in (Sleep 5 :: t, st')
        end
      else ([], st)
  end.

Definition run (clear : bool) (passes : list (list Arrival))
    (st : Orch DistributedArrivalTask)
  : list event * Orch DistributedArrivalTask :=
  let st0 := {| _alive := true; pending_tasks := pending_tasks st;
                deployed_tasks := deployed_tasks st;
                uuids_drawn := uuids_drawn st |} in
  let '(t, st') := run_loop passes st0 in
  ((if clear then clear_jobs else []) ++ t, st').

(** [open(path)]: FileNotFoundError when there is no such file. *)
Definition open_file (path : string) : exn + TextIOWrapper :=
  match read_file path with
  | Some text => inr {| file_name := path; content := text |}
  | None => inl FileNotFoundError
  end.

(** [_prepare_experiment_maps(task, uuid, replication)].  Its first line
    hands the file object to [Template], not the text read from it; the
    loop over [type_map.keys()] that follows builds one config map and one
    name per learner role. *)
Definition config_name (uuid tpe : string) (replication : Z) : string :=
  uuid +:+ "_" +:+ tpe +:+ "_" +:+ pretty replication.

Definition _prepare_experiment_maps (task : FederatedArrivalTask) (uuid : string)
    (replication : Z)
  : list event * (exn + list (string * V1ConfigMap) * list (string * string)) :=
  match open_file node_template with
  | inl e => ([OpenFile node_template], inl e)
  | inr file =>
      match Template (SourceFile file) with
      | inl e => ([OpenFile node_template], inl e)
      | inr template =>
          let roles := (type_map task).*1 in
          (OpenFile node_template
             :: map (λ tpe, GenerateConfig tpe (config_name uuid tpe replication)) roles,
           inr (map (λ tpe, (tpe,
                  {| metadata_name := config_name uuid tpe replication;
                     metadata_labels :=
                       [("app.kubernetes.io/name", "fltk.node.config." +:+ tpe)];
                     data := [("node.config.json",
                               generate template task tpe replication)] |})) roles,
                map (λ tpe, (tpe, config_name uuid tpe replication)) roles))
      end
  end.

(** [__create_config_maps]: the loop header
    [for _, config_map in config_maps.values()] unpacks each value into two
    targets.  A value is a single [V1ConfigMap], so the first iteration
    raises TypeError before the body runs. *)
Definition create_config_maps (config_maps : list (string * V1ConfigMap))
  : list event * option exn :=
  match config_maps.*2 with
  | [] => ([], None)
  | _ :: _ => ([], Some TypeError)
  end.

Definition fed_arrive (st : Orch FederatedArrivalTask) (arrival : Arrival)
  : Orch FederatedArrivalTask :=
  let task := {| fed_id := uuid4 (uuids_drawn st);
                 fed_network := get_network arrival;
                 fed_dataset := get_dataset arrival;
                 type_map := worker_replication arrival;
                 sys_config_map := get_system_config arrival;
                 param_config_map := get_parameter_config arrival |} in
  {| _alive := _alive st;
     pending_tasks := heapq.heappush fed_lt (pending_tasks st) task;
     deployed_tasks := deployed_tasks st;
     uuids_drawn := S (uuids_drawn st) |}.

Fixpoint run_federated_loop (passes : list (list Arrival))
    (st : Orch FederatedArrivalTask)
  : list event * Orch FederatedArrivalTask * option exn :=
  match passes with
  | [] => ([], st, None)
  | batch :: later =>
      if _alive st then
        let st1 := foldl fed_arrive st batch in
        match heapq.heappop fed_lt (pending_tasks st1) with
        | Some (curr_task, rest) =>
            let st2 := {| _alive := _alive st1; pending_tasks := rest;
                          deployed_tasks := deployed_tasks st1;
                          uuids_drawn := uuids_drawn st1 |} in
            match _prepare_experiment_maps curr_task (fed_id curr_task) 1 with
            | (t_prep, inl e) => (t_prep, st2, Some e)
            | (t_prep, inr (config_dict, configmap_name_dict)) =>
                let job_to_start :=
                  construct_federated_job curr_task configmap_name_dict in
                match create_config_maps config_dict with
                | (t_maps, Some e) => (t_prep ++ t_maps, st2, Some e)
                | (t_maps, None) =>
                    (t_prep ++ t_maps ++ [CreateJob job_to_start],
                     stop {| _alive := _alive st2; pending_tasks := rest;
                             deployed_tasks := deployed_tasks st2 ++ [curr_task];
                             uuids_drawn := uuids_drawn st2 |},
                     None)
                end
            end
        | None =>
            let '(t, st', r) := run_federated_loop later st1 in (Sleep 5 :: t, st', r)
        end
      else ([], st, None)
  end.

Definition run_federated (clear : bool) (passes : list (list Arrival))
    (st : Orch FederatedArrivalTask)
  : list event * Orch FederatedArrivalTask * option exn :=
  let st0 := {| _alive := true; pending_tasks := pending_tasks st;
                deployed_tasks := deployed_tasks st;
                uuids_drawn := uuids_drawn st |} in
  let '(t, st', r) := run_federated_loop passes st0 in
  ((if clear then clear_jobs else []) ++ t, st', r).

(** The tasks [run] builds for a batch of arrivals, in arrival order. *)
Fixpoint tasks_of (n : nat) (batch : list Arrival) : list DistributedArrivalTask :=
  match batch with
  | [] => []
  | arrival :: later =>
      {| priority := get_priority arrival; id := uuid4 n;
         network := get_network arrival; dataset := get_dataset arrival;
         sys_conf := get_system_config arrival;
         param_conf := get_parameter_config arrival |} :: tasks_of (S n) later
  end.

Fixpoint fed_tasks_of (n : nat) (batch : list Arrival) : list FederatedArrivalTask :=
  match batch with
  | [] => []
  | arrival :: later =>
      {| fed_id := uuid4 n; fed_network := get_network arrival;
         fed_dataset := get_dataset arrival;
         type_map := worker_replication arrival;
         sys_config_map := get_system_config arrival;
         param_config_map := get_parameter_config arrival |} :: fed_tasks_of (S n) later
  end.


(** ** What one call of [run] schedules *)



Lemma foldl_arrive batch st :
  foldl arrive st batch =
    {| _alive := _alive st;
       pending_tasks :=
         heapq.put_all task_lt (pending_tasks st) (tasks_of (uuids_drawn st) batch);
       deployed_tasks := deployed_tasks st;
       uuids_drawn := uuids_drawn st + length batch |}.
Proof.
  revert st. induction batch as [|arrival batch IH]; intros st; simpl.
  - destruct st; simpl. by rewrite Nat.add_0_r.
  - rewrite IH. simpl. f_equal. lia.
Qed.

Lemma foldl_fed_arrive batch st :
  foldl fed_arrive st batch =
    {| _alive := _alive st;
       pending_tasks :=
         heapq.put_all fed_lt (pending_tasks st) (fed_tasks_of (uuids_drawn st) batch);
       deployed_tasks := deployed_tasks st;
       uuids_drawn := uuids_drawn st + length batch |}.
Proof.
  revert st. induction batch as [|arrival batch IH]; intros st; simpl.
  - destruct st; simpl. by rewrite Nat.add_0_r.
  - rewrite IH. simpl. f_equal. lia.
Qed.

(** Passes that find nothing waiting only sleep. *)
Lemma run_loop_idle n passes st :
  _alive st = true → pending_tasks st = [] →
  run_loop (replicate n [] ++ passes) st =
    let '(t, st') := run_loop passes st in (replicate n (Sleep 5) ++ t, st').
Proof.
  intros Halive Hempty. induction n as [|n IH]; simpl.
  - by destruct (run_loop passes st).
  - rewrite Halive, Hempty. simpl. rewrite IH.
    by destruct (run_loop passes st).
Qed.

Lemma run_federated_loop_idle n passes st :
  _alive st = true → pending_tasks st = [] →
  run_federated_loop (replicate n [] ++ passes) st =
    let '(t, st', r) := run_federated_loop passes st in
    (replicate n (Sleep 5) ++ t, st', r).
Proof.
  intros Halive Hempty. induction n as [|n IH]; simpl.
  - by destruct (run_federated_loop passes st) as [[??]?].
  - rewrite Halive, Hempty. simpl. rewrite IH.
    by destruct (run_federated_loop passes st) as [[??]?].
Qed.


(** ** What a call of [run] does to the tasks, whatever it finds *)

Lemma tasks_of_app n batch later :
  tasks_of n (batch ++ later)
    = tasks_of n batch ++ tasks_of (n + length batch) later.
Proof.
  revert n. induction batch as [|arrival batch IH]; intros n; simpl.
  - by rewrite Nat.add_0_r.
  - rewrite IH. do 3 f_equal. lia.
Qed.

Lemma run_loop_conserves passes st :
  ∃ k, k ≤ length passes
    ∧ pending_tasks (run_loop passes st).2 ++ deployed_tasks (run_loop passes st).2
        ≡ₚ pending_tasks st ++ deployed_tasks st
             ++ tasks_of (uuids_drawn st) (concat (take k passes))
    ∧ uuids_drawn (run_loop passes st).2
        = uuids_drawn st + length (concat (take k passes)).
Proof.
  revert st. induction passes as [|batch later IH]; intros st.
  { exists 0. simpl. rewrite !app_nil_r. split_and!; [done..|lia]. }
  simpl. destruct (_alive st).
  2: { exists 0. simpl. rewrite !app_nil_r. split_and!; [lia|done|lia]. }
  rewrite foldl_arrive. simpl.
  pose proof (heapq.put_all_perm task_lt (tasks_of (uuids_drawn st) batch)
                (pending_tasks st)) as Hput.
  destruct (heapq.heappop task_lt _) as [[curr_task rest]|] eqn:Hpop.
  - apply heapq.heappop_Some in Hpop as [_ Hpop]. rewrite Hpop in Hput.
    exists 1. simpl. rewrite !app_nil_r. split_and!; [lia| |done].
    rewrite (Permutation_app_comm (deployed_tasks st) (tasks_of _ _)).
    rewrite (app_assoc (pending_tasks st)), <-Hput. simpl.
    rewrite app_assoc. symmetry. apply Permutation_cons_append.
  - apply heapq.heappop_None in Hpop. rewrite Hpop in Hput.
    symmetry in Hput. apply Permutation_nil_r, app_eq_nil in Hput as [Hnone Hbatch].
    match goal with |- context [run_loop later ?s] =>
      destruct (IH s) as (k & Hk & Hperm & Hdrawn) end.
    destruct (run_loop later _) as [t st'] eqn:Hrun. simpl in *.
    exists (S k). simpl. rewrite Hpop in Hperm. simpl in Hperm.
    rewrite tasks_of_app, Hbatch, Hnone, length_app. simpl.
    split_and!; [lia|done|lia].
Qed.

(** X1: [run] neither loses nor duplicates a task: the tasks pending and
    deployed when it returns are those pending and deployed before,
    together with one task per arrival of the passes it went through, and
    one identifier was drawn for each of these arrivals. *)
Theorem run_conserves_tasks (clear : bool) (passes : list (list Arrival))
    (st : Orch DistributedArrivalTask) :
  ∃ k, k ≤ length passes
    ∧ pending_tasks (run clear passes st).2 ++ deployed_tasks (run clear passes st).2
        ≡ₚ pending_tasks st ++ deployed_tasks st
             ++ tasks_of (uuids_drawn st) (concat (take k passes))
    ∧ uuids_drawn (run clear passes st).2
        = uuids_drawn st + length (concat (take k passes)).
Proof.
  unfold run.
  match goal with |- context [run_loop passes ?s] =>
    destruct (run_loop_conserves passes s) as (k & Hk & Hperm & Hdrawn);
    destruct (run_loop passes s) as [t st'] end.
  by exists k.
Qed.

Lemma run_loop_cases passes st :
  _alive st = true →
  (∃ n r rest,
      run_loop passes st
        = (replicate n (Sleep 5) ++ [CreateJob (construct_job r)],
           {| _alive := false; pending_tasks := rest;
              deployed_tasks := deployed_tasks st ++ [r];
              uuids_drawn := uuids_drawn st + length (concat (take (S n) passes)) |})
      ∧ n < length passes
      ∧ r :: rest ≡ₚ pending_tasks st
                       ++ tasks_of (uuids_drawn st) (concat (take (S n) passes))
      ∧ Forall (λ batch, batch = []) (take n passes)
      ∧ (n = 0 ∨ pending_tasks st = [])
      ∧ heapq.heappop task_lt
          (heapq.put_all task_lt (pending_tasks st)
             (tasks_of (uuids_drawn st) (concat (take (S n) passes))))
        = Some (r, rest))
  ∨ (run_loop passes st = (replicate (length passes) (Sleep 5), st)
     ∧ Forall (λ batch, batch = []) passes
     ∧ (passes = [] ∨ pending_tasks st = [])).
Proof.
  revert st. induction passes as [|batch later IH]; intros st Halive.
  { right. split_and!; [done|constructor|by left]. }
  simpl. rewrite Halive, foldl_arrive. simpl.
  pose proof (heapq.put_all_perm task_lt (tasks_of (uuids_drawn st) batch)
                (pending_tasks st)) as Hput.
  destruct (heapq.heappop task_lt _) as [[curr_task rest]|] eqn:Hpop.
  - left. exists 0, curr_task, rest. simpl. rewrite app_nil_r.
    pose proof Hpop as Hpop'.
    apply heapq.heappop_Some in Hpop as [_ Hpop].
    split_and!; [done|lia|by rewrite <-Hpop|constructor|by left|done].
  - apply heapq.heappop_None in Hpop. rewrite Hpop in Hput.
    symmetry in Hput. apply Permutation_nil_r, app_eq_nil in Hput as [Hnone Hbatch].
    assert (Hb : batch = []) by (by destruct batch).
    subst batch. simpl.
    match goal with |- context [run_loop later ?s] =>
      replace s with st by (destruct st; simpl; f_equal; lia) end.
    destruct (IH st Halive)
      as [(n & r & rest & -> & Hn & Hperm & Hidle & _ & Hget)|(-> & Hall & Hor)].
    + left. exists (S n), r, rest. simpl.
      split_and!; [done|lia|done|by constructor|by right|done].
    + right. split_and!; [done|by constructor|by right].
Qed.

(** X2: a call of [run] ends in one of two ways.  Either it creates
    exactly one job, as its last action, for a task that was pending or
    arrived in the passes gone through; then that task is the one added to
    the deployed tasks and the orchestrator is stopped.  Or the duration
    runs out: every pass found no arrival and nothing pending, no job is
    created, nothing changes, and the orchestrator is left alive. *)
Theorem run_deploys_one_or_times_out (clear : bool) (passes : list (list Arrival))
    (st : Orch DistributedArrivalTask) :
  (∃ n r rest,
      run clear passes st
        = ((if clear then clear_jobs else []) ++ replicate n (Sleep 5)
             ++ [CreateJob (construct_job r)],
           {| _alive := false; pending_tasks := rest;
              deployed_tasks := deployed_tasks st ++ [r];
              uuids_drawn := uuids_drawn st + length (concat (take (S n) passes)) |})
      ∧ n < length passes
      ∧ r :: rest ≡ₚ pending_tasks st
                       ++ tasks_of (uuids_drawn st) (concat (take (S n) passes)))
  ∨ (run clear passes st
       = ((if clear then clear_jobs else []) ++ replicate (length passes) (Sleep 5),
          {| _alive := true; pending_tasks := pending_tasks st;
             deployed_tasks := deployed_tasks st; uuids_drawn := uuids_drawn st |})
     ∧ Forall (λ batch, batch = []) passes
     ∧ (passes = [] ∨ pending_tasks st = [])).
Proof.
  unfold run.
  match goal with |- context [run_loop passes ?s] =>
    destruct (run_loop_cases passes s eq_refl)
      as [(n & r & rest & -> & Hn & Hperm & _)|(-> & Hall & Hor)] end.
  - left. by exists n, r, rest.
  - by right.
Qed.

(** ** The task a call of [run] takes *)


(** ** The configuration artifacts of a federated task *)

Lemma _prepare_experiment_maps_eq task uuid replication :
  _prepare_experiment_maps task uuid replication
    = ([OpenFile node_template],
       inl (match read_file node_template with
            | Some _ => TypeError
            | None => FileNotFoundError
            end)).
Proof.
  unfold _prepare_experiment_maps, open_file.
  by destruct (read_file node_template).
Qed.

(** X3: [_prepare_experiment_maps] never returns.  It opens the template
    file and raises: FileNotFoundError when the file is missing, and
    otherwise TypeError, from the [Template] constructor that is given the
    file object.  No configuration is generated. *)
Theorem prepare_experiment_maps_raises (task : FederatedArrivalTask)
    (uuid : string) (replication : Z) :
  ∃ e, _prepare_experiment_maps task uuid replication
         = ([OpenFile node_template], inl e)
    ∧ (is_Some (read_file node_template) → e = TypeError)
    ∧ (read_file node_template = None → e = FileNotFoundError).
Proof.
  rewrite _prepare_experiment_maps_eq. eexists. split; [done|].
  destruct (read_file node_template); split; first [done|by intros [??]].
Qed.

(** ** What a call of [run_federated] does, whatever it finds *)

Lemma fed_tasks_of_app n batch later :
  fed_tasks_of n (batch ++ later)
    = fed_tasks_of n batch ++ fed_tasks_of (n + length batch) later.
Proof.
  revert n. induction batch as [|arrival batch IH]; intros n; simpl.
  - by rewrite Nat.add_0_r.
  - rewrite IH. do 3 f_equal. lia.
Qed.

Lemma run_federated_loop_cases passes st :
  _alive st = true →
  (∃ n r rest,
      run_federated_loop passes st
        = (replicate n (Sleep 5) ++ [OpenFile node_template],
           {| _alive := true; pending_tasks := rest;
              deployed_tasks := deployed_tasks st;
              uuids_drawn := uuids_drawn st + length (concat (take (S n) passes)) |},
           Some (match read_file node_template with
                 | Some _ => TypeError
                 | None => FileNotFoundError
                 end))
      ∧ n < length passes
      ∧ r :: rest ≡ₚ pending_tasks st
                       ++ fed_tasks_of (uuids_drawn st) (concat (take (S n) passes)))
  ∨ (run_federated_loop passes st = (replicate (length passes) (Sleep 5), st, None)
     ∧ Forall (λ batch, batch = []) passes
     ∧ (passes = [] ∨ pending_tasks st = [])).
Proof.
  revert st. induction passes as [|batch later IH]; intros st Halive.
  { right. split_and!; [done|constructor|by left]. }
  simpl. rewrite Halive, foldl_fed_arrive. simpl.
  pose proof (heapq.put_all_perm fed_lt (fed_tasks_of (uuids_drawn st) batch)
                (pending_tasks st)) as Hput.
  destruct (heapq.heappop fed_lt _) as [[curr_task rest]|] eqn:Hpop.
  - apply heapq.heappop_Some in Hpop as [_ Hpop].
    rewrite _prepare_experiment_maps_eq.
    left. exists 0, curr_task, rest. simpl. rewrite app_nil_r, Halive.
    split_and!; [done|lia|by rewrite <-Hpop].
  - apply heapq.heappop_None in Hpop. rewrite Hpop in Hput.
    symmetry in Hput. apply Permutation_nil_r, app_eq_nil in Hput as [Hnone Hbatch].
    assert (Hb : batch = []) by (by destruct batch).
    subst batch. simpl.
    match goal with |- context [run_federated_loop later ?s] =>
      replace s with st by (destruct st; simpl; f_equal; lia) end.
    destruct (IH st Halive)
      as [(n & r & rest & -> & Hn & Hperm)|(-> & Hall & Hor)].
    + left. exists (S n), r, rest. simpl. split_and!; [done|lia|done].
    + right. split_and!; [done|by constructor|by right].
Qed.

Definition submits (e : event) : bool :=
  is_GenerateConfig e || is_CreateConfigMap e || is_CreateJob e.

Lemma clear_jobs_submits_nothing (clear : bool) :
  Forall (λ e, submits e = false) (if clear then clear_jobs else []).
Proof.
  destruct clear; [|constructor]. unfold clear_jobs.
  constructor; [done|]. by apply Forall_map, Forall_true.
Qed.

(** X4: a call of [run_federated] deploys nothing.  It ends in one of two
    ways.  Either a pass finds a task: the task is taken off the queue, the
    template file is opened and [_prepare_experiment_maps] raises
    (FileNotFoundError when the file is missing, TypeError otherwise); the
    exception leaves [run_federated] with the task off the queue and not
    deployed and the orchestrator still alive.  Or the duration runs out
    and nothing changes.  Either way no configuration is generated, no
    config map and no job is created, and the deployed tasks are those of
    before. *)
Theorem run_federated_never_deploys (clear : bool)
    (passes : list (list Arrival)) (st : Orch FederatedArrivalTask) :
  ((∃ n r rest,
      run_federated clear passes st
        = ((if clear then clear_jobs else []) ++ replicate n (Sleep 5)
             ++ [OpenFile node_template],
           {| _alive := true; pending_tasks := rest;
              deployed_tasks := deployed_tasks st;
              uuids_drawn := uuids_drawn st + length (concat (take (S n) passes)) |},
           Some (match read_file node_template with
                 | Some _ => TypeError
                 | None => FileNotFoundError
                 end))
      ∧ n < length passes
      ∧ r :: rest ≡ₚ pending_tasks st
                       ++ fed_tasks_of (uuids_drawn st) (concat (take (S n) passes)))
   ∨ (run_federated clear passes st
        = ((if clear then clear_jobs else []) ++ replicate (length passes) (Sleep 5),
           {| _alive := true; pending_tasks := pending_tasks st;
              deployed_tasks := deployed_tasks st; uuids_drawn := uuids_drawn st |},
           None)
      ∧ Forall (λ batch, batch = []) passes
      ∧ (passes = [] ∨ pending_tasks st = [])))
  ∧ Forall (λ e, submits e = false) (run_federated clear passes st).1.1
  ∧ deployed_tasks (run_federated clear passes st).1.2 = deployed_tasks st.
Proof.
  unfold run_federated.
  match goal with |- context [run_federated_loop passes ?s] =>
    destruct (run_federated_loop_cases passes s eq_refl)
      as [(n & r & rest & -> & Hn & Hperm)|(-> & Hall & Hor)] end.
  - split_and!; [left; by exists n, r, rest| |done]. simpl.
    apply Forall_app. split; [apply clear_jobs_submits_nothing|].
    apply Forall_app. split; [by apply Forall_replicate|by constructor].
  - split_and!; [by right| |done]. simpl.
    apply Forall_app. split; [apply clear_jobs_submits_nothing|].
    by apply Forall_replicate.
Qed.

End orchestrator.

(** ** A small cluster to run the loop on *)

Definition demo_uuid4 (n : nat) : string := "task-" +:+ pretty n.


Definition demo_construct_federated_job (task : FederatedArrivalTask)
    (names : list (string * string)) : V1PyTorchJob :=
  {| job_task := fed_id task; job_config_names := names |}.

(** The working directory holds the node template. *)
Definition demo_read_file (path : string) : option string :=
  if bool_decide (path = node_template) then Some "{{ config.network }}" else None.

Definition demo_generate (template : string) (task : FederatedArrivalTask)
    (tpe : string) (replication : Z) : string :=
  fed_network task +:+ "/" +:+ tpe.

Definition demo_fed_lt (a b : FederatedArrivalTask) : bool := false.

Definition demo_arrival (p : Z) (net : string) (roles : list (string * Z)) : Arrival :=
  {| get_priority := p; get_network := net; get_dataset := "mnist";
     get_system_config := "sys"; get_parameter_config := "hyper";
     worker_replication := roles |}.

Definition demo_orch {T} : Orch T :=
  {| _alive := false; pending_tasks := []; deployed_tasks := []; uuids_drawn := 0 |}.




(** The federated loop on a task with a learner role: preparing the
    configuration raises, nothing is generated and no job is created. *)
Example run_federated_type_error :
  run_federated demo_uuid4 [] demo_construct_federated_job demo_read_file
    demo_generate demo_fed_lt false
    [[demo_arrival 1 "resnet" [("Master", 1%Z)]]] demo_orch
  = ([OpenFile "configs/node.jinja.yaml"],
     {| _alive := true; pending_tasks := []; deployed_tasks := [];
        uuids_drawn := 1 |},
     Some TypeError).
Proof. vm_compute. done. Qed.


End Orchestrator.

(** * The round coordinator ([fltk/core/federator.py]) *)

Module Federator.

(** ** Data *)

(** Model parameters and a confusion matrix are payloads the coordinator
    passes on without looking inside. *)
Definition params := list float.
Definition confusion := list (list Z).

(** [LocalClient].  The field [exp_data] of the dataclass is a reference
    to the [DataContainer] the client owns: [client_exp_data] is the address
    of that container in the store of record streams the coordinator state
    keeps, so two clients write to one stream only when they hold the same
    container, whatever their names. *)
Record LocalClient := {
  name : string;
  ref : string;
  data_size : Z;
  client_exp_data : nat
}.

(** The tuple a training future resolves to. *)
Record TrainResult := {
  train_loss : float;
  weights : params;
  accuracy : float;
  test_loss : float;
  round_duration : float;
  train_duration : float;
  test_duration : float;
  c_mat : confusion
}.

(** Modelled from the spec: the record dataclasses of
    [fltk.util.data_container] are declared outside the source file.  The
    fields follow the arguments of the two constructor calls in
    [exec_round], in their order. *)
Record ClientRecord := {
  cr_round_id : Z;
  cr_train_duration : float;
  cr_test_duration : float;
  cr_round_duration : float;
  cr_num_epochs : Z;
  cr_trained_items : Z;
  cr_accuracy : float;
  cr_train_loss : float;
  cr_test_loss : float;
  cr_confusion_matrix : confusion
}.

Record FederatorRecord := {
  num_selected_clients : nat;
  round_id : Z;
  fr_round_duration : float;
  fr_test_loss : float;
  test_accuracy : float;
  mal_loss : float;
  mal_accuracy : float;
  mal_confidence : float;
  confusion_matrix : confusion
}.

Record Config := {
  epochs : Z;
  clients_per_round : nat;
  regular_schedule : bool;
  mal_boost : Z;
  aggregation : string;
  tm_beta : float;
  use_wandb : bool;
  config_defense_controller : bool;
  rounds : Z;
  world_size : Z
}.

Inductive exn :=
| ZeroDivisionError
| KeyError (key : string)
| IndexError
| ValueError
| AggregationError
| RuntimeError
| Stalled.

(** The methods of [Client] the coordinator calls on a learner. *)
Inductive method :=
| Client_init_dataloader
| Client_is_ready
| Client_get_client_datasize
| Client_get_client_status
| Client_set_client_regular_schedule (communication_round : Z)
| Client_update_nn_parameters (new_params : params)
| Client_exec_round (num_epochs : Z) (start_defense : bool)
| Client_get_client_hessian
| Client_get_client_regular_loss.

Inductive scalar :=
| SInt (z : Z)
| SFloat (f : float).

(** Everything the coordinator does that can be seen from outside. *)
Inductive event :=
| EvMessage (dest : string) (m : method)
| EvMessageAsync (dest : string) (m : method)
| EvFutureDone (dest : string)
| EvSleep (seconds : float)
| EvAggregate (client_weights : gmap string params) (client_sizes : gmap string Z)
              (beta : option float)
| EvWandb (metrics : list (string * scalar)) (step : Z)
| EvSave (stream : string).

(** The capabilities the coordinator consumes.  The generator is a
    function of the seed and of the number of values drawn since seeding;
    a training returns its result tuple or raises; its future completes
    after [future_delay] polls, or never; [patience] bounds the polls the
    model follows before it reports [Stalled]. *)
Record World := {
  np_random_draw : Z → nat → nat;
  get_client_status : string → bool;
  get_client_datasize : string → Z;
  client_exec_round : Z → string → params → Z → bool → exn + TrainResult;
  future_delay : Z → string → option nat;
  get_client_hessian : Z → string → list (float * float);
  get_client_regular_loss : Z → string → float;
  is_ready : nat → string → bool;
  aggregation_method :
    gmap string params → gmap string Z → option float → exn + params;
  test : params → float * float * confusion;
  mal_test : params → float * float * float;
  clock : nat → float;
  patience : nat
}.

(** The coordinator, and the part of the world it changes: the record
    streams of the clients' data containers by address, the parameters each
    learner holds, the state of numpy's global generator and the number of
    clock readings taken. *)
Record Fed := {
  clients : list LocalClient;
  exp_data : list FederatorRecord;
  defense_controller_counter : Z;
  net : params;
  data_containers : gmap nat (list ClientRecord);
  learner_net : gmap string params;
  np_random : Z * nat;
  clock_reads : nat
}.

Definition set_clients (v : list LocalClient) (st : Fed) : Fed :=
  {| clients := v; exp_data := exp_data st;
     defense_controller_counter := defense_controller_counter st;
     net := net st; data_containers := data_containers st;
     learner_net := learner_net st; np_random := np_random st;
     clock_reads := clock_reads st |}.

Definition set_exp_data (v : list FederatorRecord) (st : Fed) : Fed :=
  {| clients := clients st; exp_data := v;
     defense_controller_counter := defense_controller_counter st;
     net := net st; data_containers := data_containers st;
     learner_net := learner_net st; np_random := np_random st;
     clock_reads := clock_reads st |}.

Definition set_defense_controller_counter (v : Z) (st : Fed) : Fed :=
  {| clients := clients st; exp_data := exp_data st;
     defense_controller_counter := v;
     net := net st; data_containers := data_containers st;
     learner_net := learner_net st; np_random := np_random st;
     clock_reads := clock_reads st |}.

Definition set_net (v : params) (st : Fed) : Fed :=
  {| clients := clients st; exp_data := exp_data st;
     defense_controller_counter := defense_controller_counter st;
     net := v; data_containers := data_containers st;
     learner_net := learner_net st; np_random := np_random st;
     clock_reads := clock_reads st |}.

Definition set_data_containers (v : gmap nat (list ClientRecord)) (st : Fed) : Fed :=
  {| clients := clients st; exp_data := exp_data st;
     defense_controller_counter := defense_controller_counter st;
     net := net st; data_containers := v;
     learner_net := learner_net st; np_random := np_random st;
     clock_reads := clock_reads st |}.

Definition set_learner_net (v : gmap string params) (st : Fed) : Fed :=
  {| clients := clients st; exp_data := exp_data st;
     defense_controller_counter := defense_controller_counter st;
     net := net st; data_containers := data_containers st;
     learner_net := v; np_random := np_random st;
     clock_reads := clock_reads st |}.

Definition set_np_random (v : Z * nat) (st : Fed) : Fed :=
  {| clients := clients st; exp_data := exp_data st;
     defense_controller_counter := defense_controller_counter st;
     net := net st; data_containers := data_containers st;
     learner_net := learner_net st; np_random := v;
     clock_reads := clock_reads st |}.

Definition set_clock_reads (v : nat) (st : Fed) : Fed :=
  {| clients := clients st; exp_data := exp_data st;
     defense_controller_counter := defense_controller_counter st;
     net := net st; data_containers := data_containers st;
     learner_net := learner_net st; np_random := np_random st;
     clock_reads := v |}.

(** The two result tables of a round, and a training future: complete or
    not, and what it holds once complete, the result of the training or
    the exception the training raised. *)
Record Tables := {
  client_weights : gmap string params;
  client_sizes : gmap string Z
}.

Record Future := {
  fut_client : LocalClient;
  fut_delay : option nat;
  fut_done : bool;
  fut_value : exn + TrainResult
}.

(** ** The coordinator monad: state, trace and exceptions *)

Definition M (A : Type) : Type := Fed → list event * Fed * (exn + A).

Definition ret {A} (a : A) : M A := λ st, ([], st, inr a).

Definition bind {A B} (m : M A) (k : A → M B) : M B := λ st,
  match m st with
  | (t, st', inl e) => (t, st', inl e)
  | (t, st', inr a) => let '(t', st'', r) := k a st' in (t ++ t', st'', r)
  end.

#[global] Instance M_ret : MRet M := @ret.
#[global] Instance M_bind : MBind M := λ A B k m, bind m k.

Definition emit (e : event) : M unit := λ st, ([e], st, inr tt).
Definition raise {A} (e : exn) : M A := λ st, ([], st, inl e).
Definition get : M Fed := λ st, ([], st, inr st).
Definition modify (f : Fed → Fed) : M unit := λ st, ([], f st, inr tt).
Definition when (b : bool) (m : M unit) : M unit := if b then m else ret tt.

Fixpoint for_each {A} (l : list A) (body : A → M unit) : M unit :=
  match l with
  | [] => ret tt
  | x :: rest => body x;; for_each rest body
  end.

Fixpoint map_m {A B} (f : A → M B) (l : list A) : M (list B) :=
  match l with
  | [] => ret []
  | x :: rest => y ← f x; ys ← map_m f rest; ret (y :: ys)
  end.

Definition trace_of {A} (r : list event * Fed * (exn + A)) : list event := r.1.1.
Definition state_of {A} (r : list event * Fed * (exn + A)) : Fed := r.1.2.
Definition result_of {A} (r : list event * Fed * (exn + A)) : exn + A := r.2.


(** ** Python arithmetic on floats *)

Fixpoint float_of_positive (p : positive) : float :=
  match p with
  | xH => 1%float
  | xO p => (2 * float_of_positive p)%float
  | xI p => (2 * float_of_positive p + 1)%float
  end.

(** [float(n)] for a length; exact below 2^53. *)
Definition float_of_nat (n : nat) : float :=
  match N.of_nat n with
  | N0 => 0%float
  | Npos p => float_of_positive p
  end.

(** [sum(values)]. *)
Definition fsum (values : list float) : float :=
  foldl PrimFloat.add 0%float values.

(** [x / n] with [n] an int: raises on zero. *)
Definition py_div (x : float) (n : nat) : M float :=
  match n with
  | O => raise ZeroDivisionError
  | S _ => mret (x / float_of_nat n)%float
  end.

(** [mapping[key]]. *)
Definition py_getitem {V} (mapping : gmap string V) (key : string) : M V :=
  match mapping !! key with
  | Some v => mret v
  | None => raise (KeyError key)
  end.

(** [items[-1]]. *)
Definition py_last {A} (items : list A) : M A :=
  match last items with
  | Some x => mret x
  | None => raise IndexError
  end.

(** [records[-2].test_accuracy - records[-1].test_accuracy > 0.5], guarded
    by [len(records) > 1]. *)
Definition accuracy_drop (records : list FederatorRecord) : bool :=
  match reverse records with
  | latest :: before :: _ =>
      (0.5 <? test_accuracy before - test_accuracy latest)%float
  | _ => false
  end.

(** ** Reading a trace *)

(** The refs of the learners a training request was sent to, and of those
    whose future completed, in trace order. *)
Definition dispatched_ref (e : event) : option string :=
  match e with
  | EvMessageAsync dest (Client_exec_round _ _) => Some dest
  | _ => None
  end.

Definition done_ref (e : event) : option string :=
  match e with
  | EvFutureDone dest => Some dest
  | _ => None
  end.

Definition dispatched_refs (t : list event) : list string := omap dispatched_ref t.
Definition done_refs (t : list event) : list string := omap done_ref t.

(** Where in a round an event belongs: 0 for the queries and the logging
    around the training, 1 for the parameter broadcast, 2 for training
    requests, completions and polls, 3 for the aggregation, 4 for the
    flush of a ledger stream. *)
Definition phase (e : event) : nat :=
  match e with
  | EvMessage _ (Client_update_nn_parameters _) => 1
  | EvMessage _ Client_get_client_datasize => 2
  | EvMessage _ _ => 0
  | EvMessageAsync _ _ => 2
  | EvFutureDone _ => 2
  | EvSleep _ => 2
  | EvAggregate _ _ _ => 3
  | EvWandb _ _ => 0
  | EvSave _ => 4
  end.

Definition pending (futures : list Future) : list Future :=
  List.filter (λ fut, negb (fut_done fut)) futures.

Definition future_ref (fut : Future) : string := ref (fut_client fut).

(** The polls a future still needs; [None] for one that never resolves. *)
Definition polls_needed (fut : Future) : option nat :=
  if fut_done fut then Some O else Nat.max 1 <$> fut_delay fut.

Section federator.
Variable W : World.
Variable config : Config.

(** ** Messaging and time *)

Definition time_time : M float := λ st,
  ([], set_clock_reads (S (clock_reads st)) st, inr (clock W (clock_reads st))).

Definition time_sleep (seconds : float) : M unit := emit (EvSleep seconds).

Definition message_status (to_ref : string) : M bool :=
  emit (EvMessage to_ref Client_get_client_status);;
  mret (get_client_status W to_ref).

Definition message_datasize (to_ref : string) : M Z :=
  emit (EvMessage to_ref Client_get_client_datasize);;
  mret (get_client_datasize W to_ref).

Definition message_hessian (com_round_id : Z) (to_ref : string)
  : M (list (float * float)) :=
  emit (EvMessage to_ref Client_get_client_hessian);;
  mret (get_client_hessian W com_round_id to_ref).

Definition message_regular_loss (com_round_id : Z) (to_ref : string) : M float :=
  emit (EvMessage to_ref Client_get_client_regular_loss);;
  mret (get_client_regular_loss W com_round_id to_ref).

(** [self.message(client.ref, Client.update_nn_parameters, last_model)]:
    the call returns once the learner holds the parameters. *)
Definition message_update_nn_parameters (to_ref : string) (new_params : params)
  : M unit :=
  emit (EvMessage to_ref (Client_update_nn_parameters new_params));;
  modify (λ st, set_learner_net (<[to_ref := new_params]> (learner_net st)) st).

(** [self.message_async(client.ref, Client.exec_round, num_epochs,
    start_defense)]: the learner trains from the parameters it holds, and
    the future will hold what the training returns or raises.  A future
    whose delay is zero is complete when the call returns. *)
Definition message_async_exec_round (com_round_id : Z) (client : LocalClient)
    (num_epochs : Z) (start_defense : bool) : M Future :=
  emit (EvMessageAsync (ref client) (Client_exec_round num_epochs start_defense));;
  st ← get;
  let held := default [] (learner_net st !! ref client) in
  let value := client_exec_round W com_round_id (ref client) held num_epochs
                 start_defense in
  let delay := future_delay W com_round_id (ref client) in
  match delay with
  | Some O =>
      emit (EvFutureDone (ref client));;
      mret {| fut_client := client; fut_delay := delay; fut_done := true;
              fut_value := value |}
  | _ =>
      mret {| fut_client := client; fut_delay := delay; fut_done := false;
              fut_value := value |}
  end.

(** ** Helpers of the coordinator *)

Definition set_regular_schedule (communication_round : Z) : M unit :=
  st ← get;
  for_each (clients st) (λ client,
    emit (EvMessage (ref client)
            (Client_set_client_regular_schedule communication_round))).

Definition get_nn_parameters : M params := st ← get; mret (net st).

Definition update_nn_parameters (new_params : params) : M unit :=
  modify (set_net new_params).

(** Modelled from the spec: [DataContainer] is declared outside the source
    file.  Following the spec, [append] adds one record to the stream and
    nothing reaches storage before [save]. *)
Definition exp_data_append (record : FederatorRecord) : M unit :=
  modify (λ st, set_exp_data (exp_data st ++ [record]) st).

(** [client.exp_data.append(record)]: the record goes to the container
    the client holds. *)
Definition client_exp_data_append (client : LocalClient) (record : ClientRecord)
  : M unit :=
  modify (λ st,
    set_data_containers
      (<[client_exp_data client :=
           default [] (data_containers st !! client_exp_data client) ++ [record]]>
         (data_containers st)) st).

Definition exp_data_save (stream : string) : M unit := emit (EvSave stream).

(** ** Client selection *)

(** Modelled from the spec: [random_selection] lives in [fltk.strategy]
    and draws from numpy's global generator; neither is part of the source
    files.  Following the spec it fails when the size exceeds the number of
    registered learners, and otherwise samples without replacement: each
    draw picks one of the learners still in the pool. *)
Fixpoint sample (k : nat) (pool : list LocalClient) (seed : Z) (drawn : nat)
  : list LocalClient * nat :=
  match k with
  | O => ([], drawn)
  | S k' =>
      let i := (np_random_draw W seed drawn mod length pool)%nat in
      match pool !! i with
      | Some client =>
          let '(rest, drawn') := sample k' (delete i pool) seed (S drawn) in
          (client :: rest, drawn')
      | None => ([], drawn)
      end
  end.

Definition random_selection (size : nat) : M (list LocalClient) :=
  st ← get;
  if decide (size ≤ length (clients st))%nat then
    let '(selected, drawn') := sample size (clients st) (np_random st).1 (np_random st).2 in
    modify (set_np_random ((np_random st).1, drawn'));;
    mret selected
  else raise ValueError.

(** [np.random.seed(com_round_id)]. *)
Definition np_random_seed (seed : Z) : M unit :=
  modify (set_np_random (seed, O)).


(** ** Training futures and their callbacks *)

(** [fut.wait()] on a complete future: its value, or the exception the
    training raised. *)
Definition fut_wait (fut : Future) : M TrainResult :=
  match fut_value fut with
  | inl e => raise e
  | inr value => mret value
  end.

(** [training_cb], the callback [cb_factory] attaches to a future. *)
Definition training_cb (com_round_id num_epochs : Z) (fut : Future) (tables : Tables)
  : M Tables :=
  value ← fut_wait fut;
  let client_ref := fut_client fut in
  let client_weights' := <[name client_ref := weights value]> (client_weights tables) in
  client_data_size ← message_datasize (ref client_ref);
  let client_sizes' := <[name client_ref := client_data_size]> (client_sizes tables) in
  client_exp_data_append client_ref
    {| cr_round_id := com_round_id;
       cr_train_duration := train_duration value;
       cr_test_duration := test_duration value;
       cr_round_duration := round_duration value;
       cr_num_epochs := num_epochs;
       cr_trained_items := 0;
       cr_accuracy := accuracy value;
       cr_train_loss := train_loss value;
       cr_test_loss := test_loss value;
       cr_confusion_matrix := c_mat value |};;
  mret {| client_weights := client_weights'; client_sizes := client_sizes' |}.

(** The callback as [future.then] runs it.  What the callback raises is
    stored in the future that [then] returns, and [cb_factory] drops that
    future: the exception reaches no one, and the future the coordinator
    polls is complete all the same.  [training_cb] can only raise in its
    first statement, [fut.wait()], before it has written anything, so the
    tables are the ones it was given. *)
Definition on_completion (com_round_id num_epochs : Z) (fut : Future)
    (tables : Tables) : M Tables := λ st,
  match training_cb com_round_id num_epochs fut tables st with
  | (t, st', inl _) => (t, st', inr tables)
  | (t, st', inr tables') => (t, st', inr tables')
  end.

(** [cb_factory]: [future.then(callback)] runs the callback at once on a
    future that is already complete, and leaves it to the completion of
    the future otherwise. *)
Definition cb_factory (com_round_id num_epochs : Z) (fut : Future) (tables : Tables)
  : M Tables :=
  if fut_done fut then on_completion com_round_id num_epochs fut tables
  else mret tables.

(** The loop that sends the training requests. *)
Fixpoint dispatch (com_round_id num_epochs : Z) (start_defense : bool)
    (selected_clients : list LocalClient) (tables : Tables)
    (training_futures : list Future) : M (Tables * list Future) :=
  match selected_clients with
  | [] => mret (tables, training_futures)
  | client :: rest =>
      future ← message_async_exec_round com_round_id client num_epochs start_defense;
      tables' ← cb_factory com_round_id num_epochs future tables;
      dispatch com_round_id num_epochs start_defense rest tables'
               (training_futures ++ [future])
  end.

(** What happens to one future while the coordinator sleeps between two
    polls: a pending future whose last poll has come completes, with a
    result or with an exception, and runs its callback; another comes one
    poll closer. *)
Definition advance_one (com_round_id num_epochs : Z) (fut : Future) (tables : Tables)
  : M (Tables * Future) :=
  if fut_done fut then mret (tables, fut)
  else match fut_delay fut with
       | Some (S (S n)) =>
           mret (tables,
                 {| fut_client := fut_client fut; fut_delay := Some (S n);
                    fut_done := false; fut_value := fut_value fut |})
       | Some _ =>
           emit (EvFutureDone (ref (fut_client fut)));;
           tables' ← on_completion com_round_id num_epochs fut tables;
           mret (tables',
                 {| fut_client := fut_client fut; fut_delay := Some O;
                    fut_done := true; fut_value := fut_value fut |})
       | None => mret (tables, fut)
       end.

Fixpoint advance (com_round_id num_epochs : Z) (training_futures : list Future)
    (tables : Tables) : M (Tables * list Future) :=
  match training_futures with
  | [] => mret (tables, [])
  | fut :: rest =>
      step ← advance_one com_round_id num_epochs fut tables;
      others ← advance com_round_id num_epochs rest step.1;
      mret (others.1, step.2 :: others.2)
  end.

Definition all_futures_done (futures : list Future) : bool :=
  forallb fut_done futures.

(** [while not all_futures_done(training_futures): time.sleep(0.1)]. *)
Fixpoint wait_futures (polls : nat) (com_round_id num_epochs : Z)
    (training_futures : list Future) (tables : Tables) : M Tables :=
  if all_futures_done training_futures then mret tables
  else match polls with
       | O => raise Stalled
       | S polls' =>
           time_sleep 0.1;;
           step ← advance com_round_id num_epochs training_futures tables;
           wait_futures polls' com_round_id num_epochs step.2 step.1
       end.

(** ** The malicious boost *)

(** A benign learner takes over the entry of the last flagged learner:
    [client_weights[client.name] = copy.deepcopy(client_weights[mal_name[-1]])],
    then the same for [client_sizes], then [mal_boost -= 1]. *)
Definition take_over (mal_name : list string) (client : LocalClient) (mal_boost : Z)
    (tables : Tables) : M (Tables * Z) :=
  source ← py_last mal_name;
  copied ← py_getitem (client_weights tables) source;
  let client_weights' := <[name client := copied]> (client_weights tables) in
  source' ← py_last mal_name;
  size ← py_getitem (client_sizes tables) source';
  let client_sizes' := <[name client := size]> (client_sizes tables) in
  mret ({| client_weights := client_weights'; client_sizes := client_sizes' |},
        (mal_boost - 1)%Z).

(** The second loop of the boost: every benign learner met takes over and
    uses up one unit of the budget; the loop breaks once the budget is
    down to one. *)
Fixpoint boost_loop (mal_name : list string) (selected_clients : list LocalClient)
    (mal_boost : Z) (tables : Tables) : M Tables :=
  match selected_clients with
  | [] => mret tables
  | client :: rest =>
      status ← message_status (ref client);
      step ← (if negb status then take_over mal_name client mal_boost tables
              else mret (tables, mal_boost));
      if (step.2 =? 1)%Z then mret step.1
      else boost_loop mal_name rest step.2 step.1
  end.

(** The first loop of the boost: the names of the flagged learners. *)
Fixpoint flagged_names (selected_clients : list LocalClient) (mal_name : list string)
  : M (list string) :=
  match selected_clients with
  | [] => mret mal_name
  | client :: rest =>
      status ← message_status (ref client);
      flagged_names rest (if status : bool then mal_name ++ [name client] else mal_name)
  end.

Definition malicious_boost (selected_clients : list LocalClient) (mal_this_round : Z)
    (tables : Tables) : M Tables :=
  if (1 <? mal_boost config)%Z && (0 <? mal_this_round)%Z then
    mal_name ← flagged_names selected_clients [];
    boost_loop mal_name selected_clients (mal_boost config) tables
  else mret tables.

(** ** Diagnostics over the benign learners *)

Fixpoint collect_hessian (com_round_id : Z) (selected_clients : list LocalClient)
    (changed_percentage changed_magnitude : list float)
  : M (list float * list float) :=
  match selected_clients with
  | [] => mret (changed_percentage, changed_magnitude)
  | client :: rest =>
      status ← message_status (ref client);
      if negb status then
        hessian_metrix ← message_hessian com_round_id (ref client);
        collect_hessian com_round_id rest
          (changed_percentage ++ hessian_metrix.*1)
          (changed_magnitude ++ hessian_metrix.*2)
      else collect_hessian com_round_id rest changed_percentage changed_magnitude
  end.

(** The [print] line evaluates both quotients before the [return] line
    evaluates them again. *)
Definition client_aggregate_hessian (com_round_id : Z)
    (selected_clients : list LocalClient) : M (float * float) :=
  '(changed_percentage, changed_magnitude) ←
     collect_hessian com_round_id selected_clients [] [];
  py_div (fsum changed_percentage) (length changed_percentage);;
  py_div (fsum changed_magnitude) (length changed_magnitude);;
  percentage ← py_div (fsum changed_percentage) (length changed_percentage);
  magnitude ← py_div (fsum changed_magnitude) (length changed_magnitude);
  mret (percentage, magnitude).

Fixpoint collect_regular_loss (com_round_id : Z) (selected_clients : list LocalClient)
    (final_regular_loss : float) (num_benign : nat) : M (float * nat) :=
  match selected_clients with
  | [] => mret (final_regular_loss, num_benign)
  | client :: rest =>
      status ← message_status (ref client);
      if negb status then
        regular_loss ← message_regular_loss com_round_id (ref client);
        collect_regular_loss com_round_id rest
          (final_regular_loss + regular_loss)%float (S num_benign)
      else collect_regular_loss com_round_id rest final_regular_loss num_benign
  end.

Definition client_aggregate_regular_loss (com_round_id : Z)
    (selected_clients : list LocalClient) : M float :=
  '(final_regular_loss, num_benign) ←
     collect_regular_loss com_round_id selected_clients 0%float O;
  py_div final_regular_loss num_benign.

(** ** The adaptive defense *)

Definition defense_controller : M unit :=
  st ← get;
  if accuracy_drop (exp_data st) then
    modify (set_defense_controller_counter
              (if (defense_controller_counter st =? 0)%Z then 5%Z
               else defense_controller_counter st))
  else mret tt.

(** The block under [# defense controller] in [exec_round]. *)
Definition start_defense_flag : M bool :=
  if config_defense_controller config then
    st ← get;
    if (0 <? defense_controller_counter st)%Z then
      modify (set_defense_controller_counter (defense_controller_counter st - 1)%Z);;
      mret true
    else mret false
  else mret true.

(** ** One round *)

Fixpoint count_malicious (selected_clients : list LocalClient) (mal_this_round : Z)
  : M Z :=
  match selected_clients with
  | [] => mret mal_this_round
  | client :: rest =>
      status ← message_status (ref client);
      count_malicious rest (if status : bool then (mal_this_round + 1)%Z else mal_this_round)
  end.

Definition call_aggregation (tables : Tables) : M params :=
  let beta := if bool_decide (aggregation config = "trmean")
              then Some (tm_beta config) else None in
  emit (EvAggregate (client_weights tables) (client_sizes tables) beta);;
  match aggregation_method W (client_weights tables) (client_sizes tables) beta with
  | inl e => raise e
  | inr updated_model => mret updated_model
  end.

(** The five [wandb.log] calls of a round, in order. *)
Definition wandb_events (com_round_id : Z) (test_accuracy test_loss : float)
    (mal_this_round : Z) (mal_accuracy mal_loss mal_confidence : float)
    (changed_percentage changed_magnitude regular_loss : float) : list event :=
  [EvWandb [("Federator/Accuracy", SFloat test_accuracy);
            ("Federator/Loss", SFloat test_loss);
            ("Federator/Malicious number this round", SInt mal_this_round)]
           com_round_id;
   EvWandb [("Malicious/Accuracy", SFloat mal_accuracy);
            ("Malicious/Loss", SFloat mal_loss);
            ("Malicious/Confidence", SFloat mal_confidence)] com_round_id;
   EvWandb [("round", SInt com_round_id)] com_round_id;
   EvWandb [("Federator/Changed percentage", SFloat changed_percentage);
            ("Federator/Changed magnitude", SFloat changed_magnitude)]
           com_round_id;
   EvWandb [("Federator/Regular loss", SFloat regular_loss)] com_round_id].

Definition wandb_log_round (com_round_id : Z) (test_accuracy test_loss : float)
    (mal_this_round : Z) (mal_accuracy mal_loss mal_confidence : float)
    (changed_percentage changed_magnitude regular_loss : float) : M unit :=
  for_each (wandb_events com_round_id test_accuracy test_loss mal_this_round
              mal_accuracy mal_loss mal_confidence changed_percentage
              changed_magnitude regular_loss) emit.

Definition exec_round (com_round_id : Z) : M unit :=
  start_time ← time_time;
  let num_epochs := epochs config in
  (* Client selection *)
  np_random_seed com_round_id;;
  selected_clients ← random_selection (clients_per_round config);
  when (regular_schedule config && (com_round_id mod 100 =? 0)%Z)
       (set_regular_schedule com_round_id);;
  mal_this_round ← count_malicious selected_clients 0%Z;
  clients_status ← map_m (λ client, message_status (ref client)) selected_clients;
  last_model ← get_nn_parameters;
  for_each selected_clients
    (λ client, message_update_nn_parameters (ref client) last_model);;
  (* Actual training calls *)
  let tables := {| client_weights := ∅; client_sizes := ∅ |} in
  start_defense ← start_defense_flag;
  '(tables, training_futures) ←
     dispatch com_round_id num_epochs start_defense selected_clients tables [];
  tables ← wait_futures (patience W) com_round_id num_epochs training_futures tables;
  time_sleep 0.5;;
  tables ← malicious_boost selected_clients mal_this_round tables;
  updated_model ← call_aggregation tables;
  update_nn_parameters updated_model;;
  st ← get;
  let '(test_accuracy, test_loss, conf_mat) := test W (net st) in
  let '(mal_accuracy, mal_loss, mal_confidence) := mal_test W (net st) in
  end_time ← time_time;
  let duration := (end_time - start_time)%float in
  let record := {| num_selected_clients := length selected_clients;
                   round_id := com_round_id;
                   fr_round_duration := duration;
                   fr_test_loss := test_loss;
                   test_accuracy := test_accuracy;
                   mal_loss := mal_loss;
                   mal_accuracy := mal_accuracy;
                   mal_confidence := mal_confidence;
                   confusion_matrix := conf_mat |} in
  '(changed_percentage, changed_magnitude) ←
     client_aggregate_hessian com_round_id selected_clients;
  regular_loss ← client_aggregate_regular_loss com_round_id selected_clients;
  when (use_wandb config)
       (wandb_log_round com_round_id test_accuracy test_loss mal_this_round
          mal_accuracy mal_loss mal_confidence changed_percentage
          changed_magnitude regular_loss);;
  exp_data_append record;;
  when (config_defense_controller config) defense_controller.

(** ** The experiment *)

Definition client_load_data : M unit :=
  st ← get;
  for_each (clients st) (λ client, emit (EvMessage (ref client) Client_init_dataloader)).

Fixpoint refresh_data_sizes (registry : list LocalClient) : M (list LocalClient) :=
  match registry with
  | [] => mret []
  | client :: rest =>
      size ← message_datasize (ref client);
      rest' ← refresh_data_sizes rest;
      mret ({| name := name client; ref := ref client; data_size := size;
               client_exp_data := client_exp_data client |} :: rest')
  end.

Definition get_client_data_sizes : M unit :=
  st ← get;
  registry ← refresh_data_sizes (clients st);
  modify (set_clients registry).

(** [clients_ready]: every pass asks each client and then sleeps two
    seconds, also the pass that finds them all ready. *)
Fixpoint clients_ready_loop (polls pass : nat) : M unit :=
  st ← get;
  responses ← map_m (λ client,
                 emit (EvMessage (ref client) Client_is_ready);;
                 mret (is_ready W pass (ref client))) (clients st);
  time_sleep 2;;
  if forallb id responses then mret tt
  else match polls with
       | O => raise Stalled
       | S polls' => clients_ready_loop polls' (S pass)
       end.

Definition clients_ready : M unit := clients_ready_loop (patience W) O.

Definition save_data : M unit :=
  exp_data_save "federator";;
  st ← get;
  for_each (clients st) (λ client, exp_data_save (name client)).

(** [run], from the point where the clients have been created.  Learners
    that register while the coordinator waits are not part of the model:
    with a registry short of [world_size - 1] the wait never ends. *)
Definition run : M unit :=
  st ← get;
  (if bool_decide (Z.of_nat (length (clients st)) = world_size config - 1)%Z
   then mret tt else raise Stalled);;
  client_load_data;;
  get_client_data_sizes;;
  clients_ready;;
  for_each (seqZ 0 (rounds config)) exec_round;;
  save_data.


(** ** Running the monad *)

Ltac munfold :=
  unfold mbind, M_bind, bind, mret, M_ret, ret, emit, raise, get, modify, when,
    trace_of, state_of, result_of in *.

Lemma bind_ok {A B} (m : M A) (k : A → M B) st t st' a :
  m st = (t, st', inr a) →
  (m ≫= k) st = (t ++ trace_of (k a st'), state_of (k a st'), result_of (k a st')).
Proof.
  intros Hm. unfold mbind, M_bind, bind. rewrite Hm.
  by destruct (k a st') as [[??]?].
Qed.

Lemma bind_fail {A B} (m : M A) (k : A → M B) st t st' e :
  m st = (t, st', inl e) → (m ≫= k) st = (t, st', inl e).
Proof. intros Hm. unfold mbind, M_bind, bind. by rewrite Hm. Qed.

Lemma run_eta {A} (r : list event * Fed * (exn + A)) :
  r = (trace_of r, state_of r, result_of r).
Proof. by destruct r as [[??]?]. Qed.

Lemma for_each_emit {A} (f : A → event) (l : list A) st :
  for_each l (λ x, emit (f x)) st = (map f l, st, inr tt).
Proof.
  induction l as [|x l IH]; [done|]. simpl.
  erewrite bind_ok by done. by rewrite IH.
Qed.

(** The status messages a loop over the selected clients sends. *)
Definition status_events (selected_clients : list LocalClient) : list event :=
  map (λ client, EvMessage (ref client) Client_get_client_status) selected_clients.

Definition flagged (client : LocalClient) : bool := get_client_status W (ref client).

Definition benign (client : LocalClient) : bool := negb (flagged client).

Lemma message_status_eq to_ref st :
  message_status to_ref st =
    ([EvMessage to_ref Client_get_client_status], st, inr (get_client_status W to_ref)).
Proof. done. Qed.

Lemma count_malicious_eq selected_clients mal_this_round st :
  count_malicious selected_clients mal_this_round st =
    (status_events selected_clients, st,
     inr (mal_this_round + Z.of_nat (length (List.filter flagged selected_clients)))%Z).
Proof.
  revert mal_this_round.
  induction selected_clients as [|client rest IH]; intros mal_this_round; simpl.
  - by rewrite Z.add_0_r.
  - erewrite bind_ok by apply message_status_eq. rewrite IH.
    unfold trace_of, state_of, result_of, flagged. simpl.
    destruct (get_client_status W (ref client)); simpl; do 2 f_equal; lia.
Qed.

Lemma map_m_status_eq selected_clients st :
  map_m (λ client, message_status (ref client)) selected_clients st =
    (status_events selected_clients, st, inr (map flagged selected_clients)).
Proof.
  induction selected_clients as [|client rest IH]; [done|]. simpl.
  erewrite bind_ok by apply message_status_eq.
  rewrite (bind_ok _ _ _ _ _ _ IH). unfold trace_of. simpl.
  by rewrite app_nil_r.
Qed.

Lemma flagged_names_eq selected_clients mal_name st :
  flagged_names selected_clients mal_name st =
    (status_events selected_clients, st,
     inr (mal_name ++ map name (List.filter flagged selected_clients))).
Proof.
  revert mal_name.
  induction selected_clients as [|client rest IH]; intros mal_name; simpl.
  - by rewrite app_nil_r.
  - erewrite bind_ok by apply message_status_eq. rewrite IH.
    unfold trace_of, state_of, result_of, flagged. simpl.
    destruct (get_client_status W (ref client)); simpl; [|done].
    by rewrite <-app_assoc.
Qed.

(** The learners' parameters after a broadcast. *)
Definition broadcast_to (selected_clients : list LocalClient) (last_model : params)
    (held : gmap string params) : gmap string params :=
  foldl (λ held client, <[ref client := last_model]> held) held selected_clients.

Lemma broadcast_eq selected_clients last_model st :
  for_each selected_clients
    (λ client, message_update_nn_parameters (ref client) last_model) st =
    (map (λ client, EvMessage (ref client) (Client_update_nn_parameters last_model))
         selected_clients,
     set_learner_net (broadcast_to selected_clients last_model (learner_net st)) st,
     inr tt).
Proof.
  revert st. induction selected_clients as [|client rest IH]; intros st; simpl.
  - by destruct st.
  - erewrite bind_ok by done. rewrite IH. done.
Qed.


(** ** Dispatch and collection *)

Definition completion_event (e : event) : Prop :=
  match e with
  | EvFutureDone _ | EvMessage _ Client_get_client_datasize => True
  | _ => False
  end.

Lemma completion_event_phase e : completion_event e → phase e = 2.
Proof. by destruct e as [? []| | | | | |]. Qed.

Lemma completion_event_dispatched t :
  Forall completion_event t → dispatched_refs t = [].
Proof.
  induction 1 as [|e t He _ IH]; [done|].
  unfold dispatched_refs in *. by destruct e as [? []| | | | | |].
Qed.

(** A training that returned. *)
Definition succeeded (fut : Future) : bool :=
  match fut_value fut with
  | inr _ => true
  | inl _ => false
  end.

(** What a callback sends: the data-size query for a training that
    returned, nothing for one that raised. *)
Definition callback_events (fut : Future) : list event :=
  if succeeded fut then [EvMessage (future_ref fut) Client_get_client_datasize]
  else [].

Lemma callback_events_completion fut : Forall completion_event (callback_events fut).
Proof. unfold callback_events. destruct (succeeded fut); by repeat constructor. Qed.

Lemma callback_events_refs fut :
  dispatched_refs (callback_events fut) = [] ∧ done_refs (callback_events fut) = [].
Proof. unfold callback_events. by destruct (succeeded fut). Qed.

Lemma on_completion_eq com_round_id num_epochs fut tables st :
  ∃ ledger tables',
    on_completion com_round_id num_epochs fut tables st =
      (callback_events fut, set_data_containers ledger st, inr tables').
Proof.
  unfold on_completion, training_cb, fut_wait, callback_events, succeeded.
  destruct (fut_value fut) as [e|value].
  - exists (data_containers st), tables. by destruct st.
  - eexists _, _. reflexivity.
Qed.

Lemma message_async_exec_round_eq com_round_id client num_epochs start_defense st :
  ∃ fut,
    message_async_exec_round com_round_id client num_epochs start_defense st =
      (EvMessageAsync (ref client) (Client_exec_round num_epochs start_defense)
         :: (if fut_done fut then [EvFutureDone (ref client)] else []),
       st, inr fut)
    ∧ fut_client fut = client
    ∧ polls_needed fut = future_delay W com_round_id (ref client).
Proof.
  unfold message_async_exec_round. munfold. simpl.
  destruct (future_delay W com_round_id (ref client)) as [[|d]|];
    match goal with |- ∃ fut, (_, _, inr ?f) = _ ∧ _ => by exists f end.
Qed.

Lemma dispatch_spec com_round_id num_epochs start_defense selected_clients
    tables training_futures st :
  ∃ t ledger tables' new,
    dispatch com_round_id num_epochs start_defense selected_clients tables
             training_futures st
      = (t, set_data_containers ledger st, inr (tables', training_futures ++ new))
    ∧ Forall (λ e, completion_event e
                 ∨ ∃ dest, e = EvMessageAsync dest
                                 (Client_exec_round num_epochs start_defense)) t
    ∧ dispatched_refs t = map ref selected_clients
    ∧ map fut_client new = selected_clients
    ∧ done_refs t = map future_ref (List.filter fut_done new)
    ∧ map polls_needed new
        = map (λ client, future_delay W com_round_id (ref client)) selected_clients.
Proof.
  revert tables training_futures st.
  induction selected_clients as [|client rest IH]; intros tables futures st.
  - exists [], (data_containers st), tables, []. rewrite app_nil_r.
    split; [by destruct st|]. by split_and!.
  - simpl.
    destruct (message_async_exec_round_eq com_round_id client num_epochs
                start_defense st) as (fut & Hsend & Hclient & Hneed).
    rewrite (bind_ok _ _ _ _ _ _ Hsend).
    assert (∃ ledger tables1,
      cb_factory com_round_id num_epochs fut tables st =
        ((if fut_done fut then callback_events fut else []),
         set_data_containers ledger st, inr tables1))
      as (ledger & tables1 & Hcb).
    { unfold cb_factory. destruct (fut_done fut).
      - apply on_completion_eq.
      - exists (data_containers st), tables. by destruct st. }
    rewrite (bind_ok _ _ _ _ _ _ Hcb).
    destruct (IH tables1 (futures ++ [fut]) (set_data_containers ledger st))
      as (t & ledger' & tables' & new & Hrest & Hphase & Hsent & Hnew
            & Hdone & Hneeds).
    rewrite Hrest. unfold trace_of, state_of, result_of. simpl.
    exists (EvMessageAsync (ref client) (Client_exec_round num_epochs start_defense)
              :: (if fut_done fut then [EvFutureDone (ref client)] else [])
              ++ (if fut_done fut then callback_events fut else []) ++ t),
      ledger', tables', (fut :: new).
    rewrite <-app_assoc. simpl. split; [done|].
    destruct (callback_events_refs fut) as [Hcb_sent Hcb_done].
    pose proof (callback_events_completion fut) as Hcb_ev.
    split_and!.
    + constructor; [by eauto|].
      apply Forall_app. split; [|apply Forall_app; split; [|done]].
      * destruct (fut_done fut); by repeat constructor.
      * destruct (fut_done fut); [|constructor].
        eapply Forall_impl; [exact Hcb_ev|]. by left.
    + unfold dispatched_refs in *.
      destruct (fut_done fut); cbn; by rewrite ?omap_app, ?Hcb_sent, Hsent.
    + by rewrite Hclient, Hnew.
    + unfold done_refs in *.
      destruct (fut_done fut) eqn:E; cbn; rewrite ?omap_app, ?Hcb_done, Hdone; [|done].
      unfold future_ref at 2. by rewrite Hclient.
    + simpl. by rewrite Hneed, Hneeds.
Qed.

Lemma pending_cons fut rest : pending (fut :: rest) = pending [fut] ++ pending rest.
Proof. unfold pending. simpl. by destruct (fut_done fut). Qed.

Lemma advance_one_spec com_round_id num_epochs fut tables st :
  ∃ t ledger tables' fut',
    advance_one com_round_id num_epochs fut tables st
      = (t, set_data_containers ledger st, inr (tables', fut'))
    ∧ Forall completion_event t
    ∧ map future_ref (pending [fut])
        = done_refs t ++ map future_ref (pending [fut'])
    ∧ (∀ d, polls_needed fut = Some d → polls_needed fut' = Some (pred d))
    ∧ fut_client fut' = fut_client fut.
Proof.
  unfold advance_one, polls_needed, pending. simpl.
  destruct (fut_done fut) eqn:Hdone.
  { exists [], (data_containers st), tables, fut. rewrite Hdone. simpl.
    split; [by destruct st|].
    split_and!; [done..|by intros d [= <-]|done]. }
  destruct (on_completion_eq com_round_id num_epochs fut tables st)
    as (ledger & tables' & Hcb).
  destruct (callback_events_refs fut) as [_ Hcb_done].
  pose proof (callback_events_completion fut) as Hcb_ev.
  destruct (fut_delay fut) as [[|[|d]]|] eqn:Hdelay.
  1,2: munfold; rewrite Hcb; simpl;
    eexists _, ledger, tables', _; split; [done|]; simpl;
    split_and!;
      [constructor; [done|by rewrite app_nil_r]
      |unfold done_refs in *; cbn; by rewrite omap_app, Hcb_done
      |by intros ? [= <-]|done].
  - exists [], (data_containers st), tables.
    eexists. split; [by destruct st|]. simpl.
    split_and!; [done..| |done].
    intros ? [= <-]. simpl; f_equal; lia.
  - exists [], (data_containers st), tables, fut. rewrite Hdone, Hdelay. simpl.
    split; [by destruct st|]. by split_and!.
Qed.

Lemma advance_spec com_round_id num_epochs training_futures tables st :
  ∃ t ledger tables' futures',
    advance com_round_id num_epochs training_futures tables st
      = (t, set_data_containers ledger st, inr (tables', futures'))
    ∧ Forall completion_event t
    ∧ map future_ref (pending training_futures)
        ≡ₚ done_refs t ++ map future_ref (pending futures')
    ∧ Forall2 (λ fut fut', ∀ d, polls_needed fut = Some d
                 → polls_needed fut' = Some (pred d))
              training_futures futures'
    ∧ map fut_client futures' = map fut_client training_futures.
Proof.
  revert tables st.
  induction training_futures as [|fut rest IH]; intros tables st.
  - exists [], (data_containers st), tables, []. split; [by destruct st|].
    by split_and!.
  - simpl.
    destruct (advance_one_spec com_round_id num_epochs fut tables st)
      as (t1 & ledger1 & tables1 & fut' & Hone & Hev1 & Hacc1 & Hneed1 & Hclient1).
    rewrite (bind_ok _ _ _ _ _ _ Hone). simpl.
    destruct (IH tables1 (set_data_containers ledger1 st))
      as (t2 & ledger2 & tables2 & rest' & Hrest & Hev2 & Hacc2 & Hneed2 & Hclient2).
    rewrite (bind_ok _ _ _ _ _ _ Hrest). munfold. simpl.
    exists (t1 ++ t2), ledger2, tables2, (fut' :: rest').
    rewrite app_nil_r. split; [done|].
    split_and!.
    + by apply Forall_app.
    + change (if negb (fut_done fut) then fut :: pending rest else pending rest)
        with (pending (fut :: rest)).
      rewrite (pending_cons fut), (pending_cons fut').
      unfold done_refs in *. rewrite !map_app, omap_app, Hacc1, Hacc2.
      rewrite <-!app_assoc. f_equiv. rewrite !app_assoc. f_equiv.
      apply Permutation_app_comm.
    + by constructor.
    + simpl. by rewrite Hclient1, Hclient2.
Qed.

Lemma all_futures_done_pending futures :
  all_futures_done futures = true → pending futures = [].
Proof.
  unfold all_futures_done, pending.
  induction futures as [|fut rest IH]; [done|]. simpl.
  intros [Hf Hrest]%andb_true_iff. rewrite Hf. simpl. auto.
Qed.

Lemma all_futures_done_needed futures :
  Forall (λ fut, polls_needed fut = Some O) futures →
  all_futures_done futures = true.
Proof.
  unfold all_futures_done, polls_needed.
  induction 1 as [|fut rest Hf _ IH]; [done|]. simpl.
  rewrite IH, andb_true_r.
  destruct (fut_done fut); [done|].
  destruct (fut_delay fut) as [d|]; simplify_eq/=. lia.
Qed.

Lemma wait_futures_spec polls com_round_id num_epochs training_futures tables st :
  ∃ t ledger res,
    wait_futures polls com_round_id num_epochs training_futures tables st
      = (t, set_data_containers ledger st, res)
    ∧ Forall (λ e, completion_event e ∨ e = EvSleep 0.1) t
    ∧ (∀ tables', res = inr tables' →
         done_refs t ≡ₚ map future_ref (pending training_futures))
    ∧ (∀ e, res = inl e → e = Stalled)
    ∧ (Forall (λ fut, ∃ d, polls_needed fut = Some d ∧ d ≤ polls) training_futures
       → ∃ tables', res = inr tables').
Proof.
  revert training_futures tables st.
  induction polls as [|polls IH]; intros futures tables st; simpl.
  - destruct (all_futures_done futures) eqn:Hall.
    + exists [], (data_containers st), (inr tables).
      split; [by destruct st|]. split_and!; [done| |done|by eauto].
      intros _ _. by rewrite all_futures_done_pending.
    + exists [], (data_containers st), (inl Stalled).
      split; [by destruct st|].
      split_and!; [done|done|by intros ? [= <-]|].
      intros Hneed. rewrite all_futures_done_needed in Hall; [done|].
      eapply Forall_impl; [exact Hneed|]. intros fut (d & -> & Hd). f_equal. lia.
  - destruct (all_futures_done futures) eqn:Hall.
    + exists [], (data_containers st), (inr tables).
      split; [by destruct st|]. split_and!; [done| |done|by eauto].
      intros _ _. by rewrite all_futures_done_pending.
    + destruct (advance_spec com_round_id num_epochs futures tables st)
        as (t1 & ledger1 & tables1 & futures1 & Hadv & Hev1 & Hacc1 & Hneed1
              & Hclients1).
      destruct (IH futures1 tables1 (set_data_containers ledger1 st))
        as (t2 & ledger2 & res & Hwait & Hev2 & Hacc2 & Hstall2 & Hlive2).
      exists (EvSleep 0.1 :: t1 ++ t2), ledger2, res. split.
      { unfold time_sleep. erewrite bind_ok by done.
        rewrite (bind_ok _ _ _ _ _ _ Hadv). simpl. rewrite Hwait. done. }
      split_and!.
      * constructor; [by right|]. apply Forall_app. split; [|done].
        eapply Forall_impl; [exact Hev1|]. by left.
      * intros tables' Hres. unfold done_refs in *. simpl.
        rewrite omap_app, (Hacc2 _ Hres), Hacc1. done.
      * done.
      * intros Hneed. apply Hlive2.
        clear -Hneed Hneed1. induction Hneed1 as [|fut fut' ?? Hstep _ IH'];
          [done|].
        apply Forall_cons in Hneed as [(d & Hd & Hle) Hneed].
        constructor; [|by apply IH'].
        exists (pred d). split; [by apply Hstep|lia].
Qed.

(** ** The boost and the diagnostics as functions of the selection *)

Lemma take_over_state mal_name client mal_boost tables st :
  ∃ res, take_over mal_name client mal_boost tables st = ([], st, res).
Proof.
  unfold take_over, py_last, py_getitem. munfold.
  destruct (last mal_name) as [source|]; [|by eexists].
  destruct (client_weights tables !! source); [|by eexists].
  destruct (client_sizes tables !! source); by eexists.
Qed.

Lemma boost_loop_state mal_name selected_clients mal_boost tables st :
  ∃ t res,
    boost_loop mal_name selected_clients mal_boost tables st = (t, st, res)
    ∧ Forall (λ e, phase e = 0) t.
Proof.
  revert mal_boost tables.
  induction selected_clients as [|client rest IH]; intros mal_boost tables.
  - by exists [], (inr tables).
  - simpl. erewrite bind_ok by apply message_status_eq.
    destruct (get_client_status W (ref client)); simpl.
    + erewrite bind_ok by done. simpl.
      destruct (mal_boost =? 1)%Z.
      * eexists _, _. split; [reflexivity|]. by repeat constructor.
      * destruct (IH mal_boost tables) as (t & res & -> & Ht).
        eexists _, _. split; [reflexivity|]. by repeat constructor.
    + destruct (take_over_state mal_name client mal_boost tables st)
        as ([e|[tables' budget]] & Htake).
      * erewrite bind_fail by done.
        eexists _, _. split; [reflexivity|]. by repeat constructor.
      * rewrite (bind_ok _ _ _ _ _ _ Htake). simpl.
        destruct (budget =? 1)%Z.
        -- eexists _, _. split; [reflexivity|]. by repeat constructor.
        -- destruct (IH budget tables') as (t & res & -> & Ht).
           eexists _, _. split; [reflexivity|]. by repeat constructor.
Qed.

Lemma status_events_phase selected_clients :
  Forall (λ e, phase e = 0) (status_events selected_clients).
Proof. unfold status_events. by apply Forall_map, Forall_true. Qed.

Lemma malicious_boost_state selected_clients mal_this_round tables st :
  ∃ t res,
    malicious_boost selected_clients mal_this_round tables st = (t, st, res)
    ∧ Forall (λ e, phase e = 0) t.
Proof.
  unfold malicious_boost.
  destruct ((1 <? mal_boost config)%Z && (0 <? mal_this_round)%Z).
  - rewrite (bind_ok _ _ _ _ _ _ (flagged_names_eq _ _ _)).
    destruct (boost_loop_state ([] ++ map name (List.filter flagged selected_clients))
                selected_clients (mal_boost config) tables st)
      as (t & res & -> & Ht).
    eexists _, _. split; [reflexivity|].
    apply Forall_app. split; [apply status_events_phase|done].
  - by exists [], (inr tables).
Qed.

(** The queries of a diagnostics loop: the status of every selected
    learner, and the diagnostic itself of the benign ones. *)
Definition diagnostic_events (m : method) (selected_clients : list LocalClient)
  : list event :=
  concat (map (λ client,
            EvMessage (ref client) Client_get_client_status
              :: (if flagged client then [] else [EvMessage (ref client) m]))
          selected_clients).

(** The drift entries the benign selected learners report. *)
Definition benign_hessian (com_round_id : Z) (selected_clients : list LocalClient)
  : list (float * float) :=
  concat (map (λ client, get_client_hessian W com_round_id (ref client))
              (List.filter benign selected_clients)).

Definition benign_regular_loss (com_round_id : Z) (selected_clients : list LocalClient)
  : list float :=
  map (λ client, get_client_regular_loss W com_round_id (ref client))
      (List.filter benign selected_clients).

Lemma message_hessian_eq com_round_id to_ref st :
  message_hessian com_round_id to_ref st =
    ([EvMessage to_ref Client_get_client_hessian], st,
     inr (get_client_hessian W com_round_id to_ref)).
Proof. done. Qed.

Lemma message_regular_loss_eq com_round_id to_ref st :
  message_regular_loss com_round_id to_ref st =
    ([EvMessage to_ref Client_get_client_regular_loss], st,
     inr (get_client_regular_loss W com_round_id to_ref)).
Proof. done. Qed.

Lemma collect_hessian_eq com_round_id selected_clients percentage magnitude st :
  collect_hessian com_round_id selected_clients percentage magnitude st =
    (diagnostic_events Client_get_client_hessian selected_clients, st,
     inr (percentage ++ (benign_hessian com_round_id selected_clients).*1,
          magnitude ++ (benign_hessian com_round_id selected_clients).*2)).
Proof.
  revert percentage magnitude.
  induction selected_clients as [|client rest IH]; intros percentage magnitude.
  - simpl. by rewrite !app_nil_r.
  - simpl. erewrite bind_ok by apply message_status_eq.
    unfold diagnostic_events, benign_hessian, benign, flagged in *. simpl.
    destruct (get_client_status W (ref client)); simpl.
    + by rewrite IH.
    + erewrite bind_ok by apply message_hessian_eq. rewrite IH. munfold. simpl.
      by rewrite !fmap_app, !app_assoc.
Qed.

Lemma collect_regular_loss_eq com_round_id selected_clients total num_benign st :
  collect_regular_loss com_round_id selected_clients total num_benign st =
    (diagnostic_events Client_get_client_regular_loss selected_clients, st,
     inr (foldl PrimFloat.add total (benign_regular_loss com_round_id selected_clients),
          num_benign + length (List.filter benign selected_clients))).
Proof.
  revert total num_benign.
  induction selected_clients as [|client rest IH]; intros total num_benign.
  - simpl. by rewrite Nat.add_0_r.
  - simpl. erewrite bind_ok by apply message_status_eq.
    unfold diagnostic_events, benign_regular_loss, benign, flagged in *. simpl.
    destruct (get_client_status W (ref client)); simpl.
    + by rewrite IH.
    + erewrite bind_ok by apply message_regular_loss_eq. rewrite IH. munfold. simpl.
      do 3 f_equal. lia.
Qed.

Lemma diagnostic_events_phase m selected_clients :
  phase (EvMessage "" m) = 0 →
  Forall (λ e, phase e = 0) (diagnostic_events m selected_clients).
Proof.
  intros Hm. unfold diagnostic_events.
  apply Forall_concat, Forall_map, Forall_true. intros client.
  constructor; [done|]. destruct (flagged client); by repeat constructor.
Qed.


(** ** Stepping through a computation

    [wp m st Q]: the run of [m] from [st] ends with a trace, a state and
    a result that satisfy [Q]. *)

Definition wp {A} (m : M A) (st : Fed)
    (Q : list event → Fed → exn + A → Prop) : Prop :=
  Q (trace_of (m st)) (state_of (m st)) (result_of (m st)).

Lemma wp_bind_ok {A B} (m : M A) (k : A → M B) st Q t1 st1 a :
  m st = (t1, st1, inr a) →
  wp (k a) st1 (λ t2 st2 r, Q (t1 ++ t2) st2 r) →
  wp (m ≫= k) st Q.
Proof. intros Hm. unfold wp. by rewrite (bind_ok _ _ _ _ _ _ Hm). Qed.

Lemma wp_bind_fail {A B} (m : M A) (k : A → M B) st Q t1 st1 e :
  m st = (t1, st1, inl e) →
  Q t1 st1 (inl e) →
  wp (m ≫= k) st Q.
Proof. intros Hm. unfold wp. by rewrite (bind_fail _ _ _ _ _ _ Hm). Qed.

Lemma wp_run {A} (m : M A) st Q t st' r :
  m st = (t, st', r) → Q t st' r → wp m st Q.
Proof. intros Hm. unfold wp. by rewrite Hm. Qed.

Lemma wp_when_false (m : M unit) st Q : Q [] st (inr ()) → wp (when false m) st Q.
Proof. done. Qed.

(** ** The shape of a round *)

Definition selected (com_round_id : Z) (st : Fed) : list LocalClient :=
  (sample (clients_per_round config) (clients st) com_round_id O).1.

Definition schedule_events (com_round_id : Z) (st : Fed) : list event :=
  if regular_schedule config && (com_round_id mod 100 =? 0)%Z
  then map (λ client, EvMessage (ref client)
                        (Client_set_client_regular_schedule com_round_id))
           (clients st)
  else [].

Definition broadcast_events (selected_clients : list LocalClient) (last_model : params)
  : list event :=
  map (λ client, EvMessage (ref client) (Client_update_nn_parameters last_model))
      selected_clients.

(** The flag [exec_round] sends with the training requests. *)
Definition defense_flag (st : Fed) : bool :=
  if config_defense_controller config
  then (0 <? defense_controller_counter st)%Z else true.

Lemma random_selection_ok size st :
  (size ≤ length (clients st))%nat →
  random_selection size st =
    ([], set_np_random ((np_random st).1,
                        (sample size (clients st) (np_random st).1 (np_random st).2).2) st,
     inr (sample size (clients st) (np_random st).1 (np_random st).2).1).
Proof.
  intros Hsize. unfold random_selection. munfold.
  destruct (decide _) as [_|]; [|done].
  by destruct (sample size _ _ _).
Qed.

Lemma random_selection_fail size st :
  ¬ (size ≤ length (clients st))%nat →
  random_selection size st = ([], st, inl ValueError).
Proof.
  intros Hsize. unfold random_selection. munfold.
  by destruct (decide _).
Qed.

Lemma start_defense_flag_eq st :
  ∃ counter,
    start_defense_flag st =
      ([], set_defense_controller_counter counter st, inr (defense_flag st))
    ∧ counter = (if config_defense_controller config
                    && (0 <? defense_controller_counter st)%Z
                 then defense_controller_counter st - 1
                 else defense_controller_counter st)%Z.
Proof.
  unfold start_defense_flag, defense_flag.
  destruct (config_defense_controller config); simpl.
  - munfold. destruct (0 <? defense_controller_counter st)%Z;
      eexists; (split; [|reflexivity]); by destruct st.
  - eexists; (split; [|reflexivity]); by destruct st.
Qed.

Lemma set_regular_schedule_eq com_round_id st :
  when (regular_schedule config && (com_round_id mod 100 =? 0)%Z)
       (set_regular_schedule com_round_id) st
    = (schedule_events com_round_id st, st, inr ()).
Proof.
  unfold schedule_events, set_regular_schedule.
  destruct (regular_schedule config && _); [|done]. simpl.
  erewrite bind_ok by done. by rewrite for_each_emit.
Qed.


(** ** The outcomes of a round *)

Definition mal_count (selected_clients : list LocalClient) : Z :=
  Z.of_nat (length (List.filter flagged selected_clients)).

Definition counter_after_dispatch (st : Fed) : Z :=
  if config_defense_controller config && (0 <? defense_controller_counter st)%Z
  then (defense_controller_counter st - 1)%Z
  else defense_controller_counter st.

Definition drawn_after (com_round_id : Z) (st : Fed) : nat :=
  (sample (clients_per_round config) (clients st) com_round_id O).2.

(** [defense_controller] on a ledger and a counter. *)
Definition controller_update (records : list FederatorRecord) (counter : Z) : Z :=
  if accuracy_drop records
  then (if (counter =? 0)%Z then 5%Z else counter)
  else counter.

Definition round_record (com_round_id : Z) (st : Fed) (model : params)
  : FederatorRecord :=
  {| num_selected_clients := length (selected com_round_id st);
     round_id := com_round_id;
     fr_round_duration :=
       (clock W (S (clock_reads st)) - clock W (clock_reads st))%float;
     fr_test_loss := (test W model).1.2;
     test_accuracy := (test W model).1.1;
     mal_loss := (mal_test W model).1.2;
     mal_accuracy := (mal_test W model).1.1;
     mal_confidence := (mal_test W model).2;
     confusion_matrix := (test W model).2 |}.

(** The state while results are collected, when the diagnostics are taken,
    and once the round is on record. *)
Definition collecting_state (com_round_id : Z) (st : Fed)
    (ledger : gmap nat (list ClientRecord)) : Fed :=
  {| clients := clients st; exp_data := exp_data st;
     defense_controller_counter := counter_after_dispatch st;
     net := net st; data_containers := ledger;
     learner_net :=
       broadcast_to (selected com_round_id st) (net st) (learner_net st);
     np_random := (com_round_id, drawn_after com_round_id st);
     clock_reads := S (clock_reads st) |}.

Definition diagnosing_state (com_round_id : Z) (st : Fed)
    (ledger : gmap nat (list ClientRecord)) (model : params) : Fed :=
  {| clients := clients st; exp_data := exp_data st;
     defense_controller_counter := counter_after_dispatch st;
     net := model; data_containers := ledger;
     learner_net :=
       broadcast_to (selected com_round_id st) (net st) (learner_net st);
     np_random := (com_round_id, drawn_after com_round_id st);
     clock_reads := S (S (clock_reads st)) |}.

Definition recorded_state (com_round_id : Z) (st : Fed)
    (ledger : gmap nat (list ClientRecord)) (model : params) : Fed :=
  {| clients := clients st;
     exp_data := exp_data st ++ [round_record com_round_id st model];
     defense_controller_counter :=
       if config_defense_controller config
       then controller_update (exp_data st ++ [round_record com_round_id st model])
                              (counter_after_dispatch st)
       else counter_after_dispatch st;
     net := model; data_containers := ledger;
     learner_net :=
       broadcast_to (selected com_round_id st) (net st) (learner_net st);
     np_random := (com_round_id, drawn_after com_round_id st);
     clock_reads := S (S (clock_reads st)) |}.

(** The events of a round before the first training request. *)
Definition prelude (com_round_id : Z) (st : Fed) : list event :=
  schedule_events com_round_id st
    ++ status_events (selected com_round_id st)
    ++ status_events (selected com_round_id st)
    ++ broadcast_events (selected com_round_id st) (net st).

Definition aggregate_event (tables : Tables) : event :=
  EvAggregate (client_weights tables) (client_sizes tables)
    (if bool_decide (aggregation config = "trmean")
     then Some (tm_beta config) else None).

Definition aggregate (tables : Tables) : exn + params :=
  aggregation_method W (client_weights tables) (client_sizes tables)
    (if bool_decide (aggregation config = "trmean")
     then Some (tm_beta config) else None).

Definition mean (values : list float) : float :=
  (fsum values / float_of_nat (length values))%float.

Definition round_wandb_events (com_round_id : Z) (st : Fed) (model : params)
  : list event :=
  if use_wandb config then
    wandb_events com_round_id (test W model).1.1 (test W model).1.2
      (mal_count (selected com_round_id st))
      (mal_test W model).1.1 (mal_test W model).1.2 (mal_test W model).2
      (mean (benign_hessian com_round_id (selected com_round_id st)).*1)
      (mean (benign_hessian com_round_id (selected com_round_id st)).*2)
      (foldl PrimFloat.add 0%float
             (benign_regular_loss com_round_id (selected com_round_id st))
       / float_of_nat (length (List.filter benign (selected com_round_id st))))%float
  else [].

(** What dispatch and collection leave behind: the events [t], and either
    the tables or the reason the wait was given up. *)
Definition collection (com_round_id : Z) (st : Fed) (t : list event)
    (res : exn + Tables) : Prop :=
  Forall (λ e, phase e = 2) t
  ∧ Forall (λ e, ∀ dest m, e = EvMessageAsync dest m →
               m = Client_exec_round (epochs config) (defense_flag st)) t
  ∧ Forall (λ e, ∀ seconds, e = EvSleep seconds → seconds = 0.1%float) t
  ∧ dispatched_refs t = map ref (selected com_round_id st)
  ∧ (∀ tables, res = inr tables →
       done_refs t ≡ₚ map ref (selected com_round_id st))
  ∧ (∀ e, res = inl e → e = Stalled)
  ∧ (Forall (λ client, ∃ d, future_delay W com_round_id (ref client) = Some d
                          ∧ d ≤ patience W)
            (selected com_round_id st)
     → ∃ tables, res = inr tables).

Inductive round_outcome (com_round_id : Z) (st : Fed)
  : list event → Fed → exn + () → Prop :=
| selection_fails :
    ¬ (clients_per_round config ≤ length (clients st)) →
    round_outcome com_round_id st []
      (set_np_random (com_round_id, O) (set_clock_reads (S (clock_reads st)) st))
      (inl ValueError)
| collection_stalls t ledger e :
    (clients_per_round config ≤ length (clients st)) →
    collection com_round_id st t (inl e) →
    round_outcome com_round_id st
      (prelude com_round_id st ++ t)
      (collecting_state com_round_id st ledger) (inl e)
| boost_fails t ledger tables t_boost e :
    (clients_per_round config ≤ length (clients st)) →
    collection com_round_id st t (inr tables) →
    malicious_boost (selected com_round_id st) (mal_count (selected com_round_id st))
        tables (collecting_state com_round_id st ledger)
      = (t_boost, collecting_state com_round_id st ledger, inl e) →
    Forall (λ e, phase e = 0) t_boost →
    round_outcome com_round_id st
      (prelude com_round_id st ++ t ++ EvSleep 0.5 :: t_boost)
      (collecting_state com_round_id st ledger) (inl e)
| aggregation_fails t ledger tables t_boost boosted e :
    (clients_per_round config ≤ length (clients st)) →
    collection com_round_id st t (inr tables) →
    malicious_boost (selected com_round_id st) (mal_count (selected com_round_id st))
        tables (collecting_state com_round_id st ledger)
      = (t_boost, collecting_state com_round_id st ledger, inr boosted) →
    Forall (λ e, phase e = 0) t_boost →
    aggregate boosted = inl e →
    round_outcome com_round_id st
      (prelude com_round_id st ++ t ++ EvSleep 0.5 :: t_boost
         ++ [aggregate_event boosted])
      (collecting_state com_round_id st ledger) (inl e)
| diagnostics_fail t ledger tables t_boost boosted model :
    (clients_per_round config ≤ length (clients st)) →
    collection com_round_id st t (inr tables) →
    malicious_boost (selected com_round_id st) (mal_count (selected com_round_id st))
        tables (collecting_state com_round_id st ledger)
      = (t_boost, collecting_state com_round_id st ledger, inr boosted) →
    Forall (λ e, phase e = 0) t_boost →
    aggregate boosted = inr model →
    benign_hessian com_round_id (selected com_round_id st) = [] →
    round_outcome com_round_id st
      (prelude com_round_id st ++ t ++ EvSleep 0.5 :: t_boost
         ++ aggregate_event boosted
         :: diagnostic_events Client_get_client_hessian (selected com_round_id st))
      (diagnosing_state com_round_id st ledger model) (inl ZeroDivisionError)
| round_completes t ledger tables t_boost boosted model :
    (clients_per_round config ≤ length (clients st)) →
    collection com_round_id st t (inr tables) →
    malicious_boost (selected com_round_id st) (mal_count (selected com_round_id st))
        tables (collecting_state com_round_id st ledger)
      = (t_boost, collecting_state com_round_id st ledger, inr boosted) →
    Forall (λ e, phase e = 0) t_boost →
    aggregate boosted = inr model →
    benign_hessian com_round_id (selected com_round_id st) ≠ [] →
    round_outcome com_round_id st
      (prelude com_round_id st ++ t ++ EvSleep 0.5 :: t_boost
         ++ aggregate_event boosted
         :: diagnostic_events Client_get_client_hessian (selected com_round_id st)
         ++ diagnostic_events Client_get_client_regular_loss (selected com_round_id st)
         ++ round_wandb_events com_round_id st model)
      (recorded_state com_round_id st ledger model) (inr ()).

Lemma py_div_pos x n st :
  n ≠ O → py_div x n st = ([], st, inr (x / float_of_nat n)%float).
Proof. by destruct n. Qed.

Lemma py_div_zero x st : py_div x O st = ([], st, inl ZeroDivisionError).
Proof. done. Qed.

Lemma benign_hessian_benign com_round_id selected_clients :
  benign_hessian com_round_id selected_clients ≠ [] →
  length (List.filter benign selected_clients) ≠ O.
Proof.
  unfold benign_hessian. destruct (List.filter benign selected_clients); [done|].
  done.
Qed.



Lemma call_aggregation_eq tables st :
  call_aggregation tables st = ([aggregate_event tables], st, aggregate tables).
Proof.
  unfold call_aggregation, aggregate_event, aggregate. munfold.
  by destruct (aggregation_method W _ _ _).
Qed.

Lemma client_aggregate_hessian_eq com_round_id selected_clients st :
  client_aggregate_hessian com_round_id selected_clients st =
    (diagnostic_events Client_get_client_hessian selected_clients, st,
     match benign_hessian com_round_id selected_clients with
     | [] => inl ZeroDivisionError
     | entries => inr (mean entries.*1, mean entries.*2)
     end).
Proof.
  unfold client_aggregate_hessian.
  rewrite (bind_ok _ _ _ _ _ _ (collect_hessian_eq _ _ _ _ _)). simpl.
  destruct (benign_hessian com_round_id selected_clients) as [|entry entries].
  - munfold. simpl. by rewrite app_nil_r.
  - munfold. simpl. by rewrite app_nil_r.
Qed.

Lemma client_aggregate_regular_loss_eq com_round_id selected_clients st :
  client_aggregate_regular_loss com_round_id selected_clients st =
    (diagnostic_events Client_get_client_regular_loss selected_clients, st,
     match length (List.filter benign selected_clients) with
     | O => inl ZeroDivisionError
     | S n => inr (foldl PrimFloat.add 0%float
                         (benign_regular_loss com_round_id selected_clients)
                   / float_of_nat (S n))%float
     end).
Proof.
  unfold client_aggregate_regular_loss.
  rewrite (bind_ok _ _ _ _ _ _ (collect_regular_loss_eq _ _ _ _ _)). simpl.
  destruct (length (List.filter benign selected_clients)).
  - munfold. simpl. by rewrite app_nil_r.
  - munfold. simpl. by rewrite app_nil_r.
Qed.

Lemma filter_split {A} (f : A → bool) (l : list A) :
  List.filter f l ++ List.filter (λ x, negb (f x)) l ≡ₚ l.
Proof.
  induction l as [|x l IH]; [done|]. simpl.
  destruct (f x); simpl.
  - by rewrite IH.
  - by rewrite <-Permutation_middle, IH.
Qed.

Lemma defense_controller_eq st :
  defense_controller st =
    ([], set_defense_controller_counter
           (controller_update (exp_data st) (defense_controller_counter st)) st,
     inr ()).
Proof.
  unfold defense_controller, controller_update. munfold.
  destruct (accuracy_drop (exp_data st)); [done|]. by destruct st.
Qed.

Lemma round_outcome_trace com_round_id st t t' st' res :
  round_outcome com_round_id st t st' res → t = t' →
  round_outcome com_round_id st t' st' res.
Proof. by intros ? <-. Qed.

Ltac wp_state s' :=
  match goal with |- wp ?m _ ?Q => change (wp m s' Q) end.

Lemma exec_round_outcome com_round_id st :
  wp (exec_round com_round_id) st (round_outcome com_round_id st).
Proof.
  unfold exec_round.
  eapply wp_bind_ok; [reflexivity|]. cbv beta zeta.
  eapply wp_bind_ok; [reflexivity|].
  destruct (decide (clients_per_round config ≤ length (clients st))) as [Hsize|Hsize].
  2: { eapply wp_bind_fail; [by apply random_selection_fail|].
       by apply selection_fails. }
  eapply wp_bind_ok; [by apply random_selection_ok|]. simpl.
  fold (selected com_round_id st). fold (drawn_after com_round_id st).
  set (sel := selected com_round_id st).
  eapply wp_bind_ok; [apply set_regular_schedule_eq|].
  eapply wp_bind_ok; [apply count_malicious_eq|].
  eapply wp_bind_ok; [apply map_m_status_eq|].
  eapply wp_bind_ok; [reflexivity|].
  eapply wp_bind_ok; [apply broadcast_eq|].
  match goal with |- wp (start_defense_flag ≫= _) ?s _ =>
    destruct (start_defense_flag_eq s) as (counter & Hflag & Hcounter) end.
  eapply wp_bind_ok; [exact Hflag|].
  simpl in Hcounter. subst counter. clear Hflag.
  wp_state (collecting_state com_round_id st (data_containers st)).
  match goal with |- context [defense_flag ?s] =>
    change (defense_flag s) with (defense_flag st) end.
  match goal with |- wp (dispatch ?r ?e ?f ?l ?tb ?fs ≫= _) ?s _ =>
    destruct (dispatch_spec r e f l tb fs s)
      as (t_d & ledger1 & tables1 & new & Hdispatch & Hev_d
            & Hsent & Hnew & Hdone_d & Hneeds) end.
  eapply wp_bind_ok; [exact Hdispatch|]. cbv beta iota. clear Hdispatch.
  wp_state (collecting_state com_round_id st ledger1).
  match goal with |- wp (wait_futures ?p ?r ?e ?fs ?tb ≫= _) ?s _ =>
    destruct (wait_futures_spec p r e fs tb s)
      as (t_w & ledger & res_w & Hwait & Hev_w & Hdone_w & Hstall & Hlive) end.
  change (set_data_containers ledger (collecting_state com_round_id st ledger1))
    with (collecting_state com_round_id st ledger) in Hwait.
  simpl in Hwait, Hdone_w, Hlive.
  assert (Hcollect : collection com_round_id st (t_d ++ t_w) res_w).
  { assert (Hnone : dispatched_refs t_w = []).
    { unfold dispatched_refs. clear -Hev_w.
      induction Hev_w as [|e t He _ IH]; [done|].
      destruct He as [He| ->]; [|done]. by destruct e as [? []| | | | | |]. }
    unfold collection. fold sel. split_and!.
    - apply Forall_app. split.
      + eapply Forall_impl; [exact Hev_d|].
        intros e [He|[dest ->]]; [by apply completion_event_phase|done].
      + eapply Forall_impl; [exact Hev_w|].
        intros e [He| ->]; [by apply completion_event_phase|done].
    - apply Forall_app. split.
      + eapply Forall_impl; [exact Hev_d|].
        intros e [He|[dest ->]]; [by intros ?? ->|by intros ?? [= _ <-]].
      + eapply Forall_impl; [exact Hev_w|].
        intros e [He| ->]; [by intros ?? ->|done].
    - apply Forall_app. split.
      + eapply Forall_impl; [exact Hev_d|].
        intros e [He|[dest ->]]; [by intros ? ->|done].
      + eapply Forall_impl; [exact Hev_w|].
        intros e [He| ->]; [by intros ? ->|by intros ? [= <-]].
    - unfold dispatched_refs in *. by rewrite omap_app, Hsent, Hnone, app_nil_r.
    - intros tables Hres. unfold done_refs in *.
      rewrite omap_app, Hdone_d, (Hdone_w _ Hres), <-map_app.
      unfold pending. rewrite filter_split.
      unfold future_ref. by rewrite <-Hnew, map_map.
    - done.
    - intros Hall. apply Hlive.
      rewrite <-Hnew in Hall, Hneeds. rewrite map_map in Hneeds.
      apply Forall_map in Hall. clear -Hall Hneeds.
      induction new as [|fut new' IH]; [done|].
      apply Forall_cons in Hall as [(d & Hd & Hle) Hall].
      injection Hneeds as Hfut Hrest. constructor; [|by apply IH].
      exists d. by rewrite Hfut. }
  clear Hev_w Hdone_w Hlive Hstall Hev_d Hsent Hnew Hdone_d Hneeds.
  destruct res_w as [e|tables].
  { eapply wp_bind_fail; [exact Hwait|].
    eapply round_outcome_trace; [by eapply collection_stalls|].
    unfold prelude, broadcast_events. simpl. by rewrite <-!app_assoc. }
  eapply wp_bind_ok; [exact Hwait|]. clear Hwait.
  eapply wp_bind_ok; [reflexivity|].
  match goal with |- wp (malicious_boost ?l ?n ?tb ≫= _) ?s _ =>
    destruct (malicious_boost_state l n tb s) as (t_b & res_b & Hboost & Hphase_b) end.
  change (0 + Z.of_nat (length (List.filter flagged sel)))%Z
    with (mal_count sel) in *.
  destruct res_b as [e|boosted].
  { eapply wp_bind_fail; [exact Hboost|].
    eapply round_outcome_trace; [by eapply boost_fails|].
    unfold prelude, broadcast_events. simpl. by rewrite <-!app_assoc. }
  eapply wp_bind_ok; [exact Hboost|].
  destruct (aggregate boosted) as [e|model] eqn:Hmodel.
  { eapply wp_bind_fail; [by rewrite call_aggregation_eq, Hmodel|].
    eapply round_outcome_trace; [by eapply aggregation_fails|].
    unfold prelude, broadcast_events. simpl. by rewrite <-!app_assoc. }
  eapply wp_bind_ok; [by rewrite call_aggregation_eq, Hmodel|].
  eapply wp_bind_ok; [reflexivity|].
  eapply wp_bind_ok; [reflexivity|]. simpl.
  destruct (test W model) as [[test_accuracy test_loss] conf_mat] eqn:Htest.
  destruct (mal_test W model) as [[mal_accuracy mal_loss] mal_confidence] eqn:Hmal.
  eapply wp_bind_ok; [reflexivity|]. simpl.
  wp_state (diagnosing_state com_round_id st ledger model).
  destruct (benign_hessian com_round_id sel) as [|entry entries] eqn:Hbenign.
  { eapply wp_bind_fail; [by rewrite client_aggregate_hessian_eq, Hbenign|].
    eapply round_outcome_trace; [by eapply diagnostics_fail|].
    unfold prelude, broadcast_events. simpl. by rewrite <-!app_assoc. }
  eapply wp_bind_ok; [by rewrite client_aggregate_hessian_eq, Hbenign|].
  assert (Hsome : length (List.filter benign sel) ≠ O).
  { apply (benign_hessian_benign com_round_id). by rewrite Hbenign. }
  destruct (length (List.filter benign sel)) as [|n] eqn:Hn; [done|].
  eapply wp_bind_ok; [by rewrite client_aggregate_regular_loss_eq, Hn|].
  eapply wp_bind_ok.
  { instantiate (1 := ()). instantiate (1 := diagnosing_state com_round_id st ledger model).
    instantiate (1 := round_wandb_events com_round_id st model).
    unfold round_wandb_events, wandb_log_round. fold sel.
    rewrite Htest, Hmal, Hbenign, Hn. simpl.
    by destruct (use_wandb config). }
  eapply wp_bind_ok; [reflexivity|].
  eapply wp_run.
  { instantiate (1 := inr ()). instantiate (1 := recorded_state com_round_id st ledger model).
    instantiate (1 := []).
    unfold recorded_state, round_record. fold sel. rewrite Htest, Hmal. simpl.
    destruct (config_defense_controller config); [|done]. simpl.
    by rewrite defense_controller_eq. }
  eapply round_outcome_trace;
    [by eapply round_completes; [..|fold sel; by rewrite Hbenign]|].
  unfold prelude, broadcast_events. simpl. rewrite <-!app_assoc. simpl.
  by rewrite !app_nil_r.
Qed.


Lemma exec_round_cases com_round_id st :
  round_outcome com_round_id st
    (trace_of (exec_round com_round_id st))
    (state_of (exec_round com_round_id st))
    (result_of (exec_round com_round_id st)).
Proof. apply exec_round_outcome. Qed.

(** ** What every event of a round looks like *)

Definition round_event (st : Fed) (e : event) : Prop :=
  match e with
  | EvMessage _ (Client_update_nn_parameters new_params) => new_params = net st
  | EvMessage _ _ => True
  | EvMessageAsync _ m => m = Client_exec_round (epochs config) (defense_flag st)
  | EvFutureDone _ => True
  | EvSleep seconds => seconds = 0.1%float ∨ seconds = 0.5%float
  | EvAggregate _ _ _ => True
  | EvWandb _ _ => True
  | EvSave _ => False
  end.

Lemma phase0_round_event st t :
  Forall (λ e, phase e = 0) t → Forall (round_event st) t.
Proof.
  intros Hphase. eapply Forall_impl; [exact Hphase|]. intros e He.
  by destruct e as [? []|? []| | | | |].
Qed.

Lemma prelude_round_event com_round_id st :
  Forall (round_event st) (prelude com_round_id st).
Proof.
  unfold prelude, schedule_events, status_events, broadcast_events.
  rewrite !Forall_app. split_and!.
  - destruct (_ && _); [|done]. by apply Forall_map, Forall_true.
  - by apply Forall_map, Forall_true.
  - by apply Forall_map, Forall_true.
  - by apply Forall_map, Forall_true.
Qed.

Lemma collection_round_event com_round_id st t res :
  collection com_round_id st t res → Forall (round_event st) t.
Proof.
  intros (Hphase & Hflag & Hsleep & _).
  apply Forall_forall. intros e He.
  rewrite Forall_forall in Hphase, Hflag, Hsleep.
  specialize (Hphase e He). specialize (Hflag e He). specialize (Hsleep e He).
  destruct e as [? []|? m| | | | |]; simpl in *; try done.
  - by eapply Hflag.
  - left. by eapply Hsleep.
Qed.

Lemma diagnostic_round_event st m selected_clients :
  phase (EvMessage "" m) = 0 →
  Forall (round_event st) (diagnostic_events m selected_clients).
Proof. intros Hm. by apply phase0_round_event, diagnostic_events_phase. Qed.

Lemma wandb_round_event com_round_id st model :
  Forall (round_event st) (round_wandb_events com_round_id st model).
Proof.
  unfold round_wandb_events, wandb_events.
  destruct (use_wandb config); by repeat constructor.
Qed.

Lemma round_outcome_events com_round_id st t st' res :
  round_outcome com_round_id st t st' res → Forall (round_event st) t.
Proof.
  pose proof (prelude_round_event com_round_id st) as Hprelude.
  destruct 1;
    repeat match goal with
           | H : collection _ _ _ _ |- _ => apply collection_round_event in H
           | H : Forall (λ e, phase e = 0) _ |- _ =>
               apply (phase0_round_event st) in H
           end;
    repeat (rewrite Forall_app || rewrite Forall_cons); split_and?;
    try done; try (by right);
    auto using diagnostic_round_event, wandb_round_event.
Qed.


(** ** Where the events of a round sit *)

(** An event that neither sends a training request nor completes one. *)
Definition quiet (e : event) : Prop := dispatched_ref e = None ∧ done_ref e = None.

Lemma quiet_refs t :
  Forall quiet t → dispatched_refs t = [] ∧ done_refs t = [].
Proof.
  unfold dispatched_refs, done_refs.
  induction 1 as [|e t [Hd Hc] _ [IHd IHc]]; [done|]. cbn.
  by rewrite Hd, Hc, IHd, IHc.
Qed.

Lemma phase_quiet e : phase e ≠ 2 → quiet e.
Proof. by destruct e as [? []|? []| | | | |]. Qed.

Lemma Forall_phase_quiet n t :
  n ≠ 2 → Forall (λ e, phase e = n) t → Forall quiet t.
Proof.
  intros Hn Hphase. eapply Forall_impl; [exact Hphase|].
  intros e He. apply phase_quiet. by rewrite He.
Qed.

Lemma prelude_phase com_round_id st :
  Forall (λ e, phase e ≤ 1) (prelude com_round_id st).
Proof.
  unfold prelude, schedule_events, status_events, broadcast_events.
  rewrite !Forall_app. split_and!.
  - destruct (_ && _); [|done]. apply Forall_map, Forall_true. simpl. lia.
  - apply Forall_map, Forall_true. simpl. lia.
  - apply Forall_map, Forall_true. simpl. lia.
  - apply Forall_map, Forall_true. simpl. lia.
Qed.

Lemma prelude_quiet com_round_id st : Forall quiet (prelude com_round_id st).
Proof.
  eapply Forall_impl; [apply prelude_phase|].
  intros e He. simpl in He. apply phase_quiet. lia.
Qed.

(** The events after collection: the settling sleep, the queries of the
    boost, the aggregation, the diagnostics and the logging. *)
Definition closing (e : event) : Prop :=
  quiet e ∧ phase e ≠ 1 ∧ phase e ≠ 4.

Lemma phase0_closing t : Forall (λ e, phase e = 0) t → Forall closing t.
Proof.
  intros Hphase. eapply Forall_impl; [exact Hphase|].
  intros e He. simpl in He. split; [apply phase_quiet|]; lia.
Qed.

Lemma round_outcome_segments com_round_id st t st' res :
  round_outcome com_round_id st t st' res →
  (t = [] ∧ ¬ clients_per_round config ≤ length (clients st)) ∨ ∃ t_c rest,
    t = prelude com_round_id st ++ t_c ++ rest
    ∧ Forall (λ e, phase e = 2) t_c
    ∧ dispatched_refs t_c = map ref (selected com_round_id st)
    ∧ Forall closing rest.
Proof.
  destruct 1 as [?|t ledger e ? Hc|t ledger tables t_b e ? Hc ? Hb
                 |t ledger tables t_b boosted e ? Hc ? Hb
                 |t ledger tables t_b boosted model ? Hc ? Hb
                 |t ledger tables t_b boosted model ? Hc ? Hb];
    [by left|right; exists t; destruct Hc as (Hphase & _ & _ & Hsent & _)..].
  - exists []. by rewrite app_nil_r.
  - eexists. split; [done|]. split_and!; [done..|].
    constructor; [done|]. by apply phase0_closing.
  - eexists. split; [done|]. split_and!; [done..|].
    constructor; [done|]. apply Forall_app. split; [by apply phase0_closing|].
    by repeat constructor.
  - eexists. split; [done|]. split_and!; [done..|].
    constructor; [done|]. apply Forall_app. split; [by apply phase0_closing|].
    constructor; [done|]. by apply phase0_closing, diagnostic_events_phase.
  - eexists. split; [done|]. split_and!; [done..|].
    constructor; [done|]. apply Forall_app. split; [by apply phase0_closing|].
    constructor; [done|]. rewrite !Forall_app. split_and!.
    + by apply phase0_closing, diagnostic_events_phase.
    + by apply phase0_closing, diagnostic_events_phase.
    + unfold round_wandb_events, wandb_events.
      destruct (use_wandb config); by repeat constructor.
Qed.

Lemma unique_split {A} (P : A → Prop) l1 x l2 pre y post :
  l1 ++ x :: l2 = pre ++ y :: post →
  P y → Forall (λ a, ¬ P a) l1 → Forall (λ a, ¬ P a) l2 →
  pre = l1 ∧ x = y ∧ post = l2.
Proof.
  intros Heq Hy Hl1 Hl2. revert pre Heq.
  induction Hl1 as [|a l1 Ha _ IH]; intros [|z pre] Heq; simplify_eq/=.
  - done.
  - rewrite Forall_app, Forall_cons in Hl2. by destruct Hl2 as (_ & ? & _).
  - done.
  - destruct (IH _ H0) as (-> & -> & ->). done.
Qed.


Lemma prelude_no_sleep com_round_id st :
  Forall (λ e, ∀ seconds, e = EvSleep seconds → seconds = 0.1%float)
         (prelude com_round_id st).
Proof.
  eapply Forall_impl; [apply prelude_phase|].
  intros e He seconds ->. simpl in He. lia.
Qed.

Lemma round_outcome_barrier com_round_id st t st' res pre w s b post :
  round_outcome com_round_id st t st' res →
  t = pre ++ EvAggregate w s b :: post →
  ∃ before t_boost,
    pre = before ++ EvSleep 0.5 :: t_boost
    ∧ dispatched_refs before = map ref (selected com_round_id st)
    ∧ done_refs before ≡ₚ map ref (selected com_round_id st)
    ∧ Forall (λ e, ∀ seconds, e = EvSleep seconds → seconds = 0.1%float) before
    ∧ Forall (λ e, phase e = 0) t_boost
    ∧ Forall (λ e, phase e = 0) post.
Proof.
  intros Hout Ht.
  assert (Hno : ∀ l : list event,
            Forall (λ e, phase e ≠ 3) l → l ≠ pre ++ EvAggregate w s b :: post).
  { intros l Hl ->. rewrite Forall_app, Forall_cons in Hl.
    by destruct Hl as (_ & ? & _). }
  assert (Hprelude := prelude_phase com_round_id st).
  assert (Hcoll : ∀ l r, collection com_round_id st l r
                         → Forall (λ e, phase e ≠ 3) l).
  { intros l r (Hphase & _). eapply Forall_impl; [exact Hphase|].
    intros e He. simpl in He. lia. }
  assert (Hzero : ∀ l, Forall (λ e, phase e = 0) l → Forall (λ e, phase e ≠ 3) l).
  { intros l Hl. eapply Forall_impl; [exact Hl|]. intros e He. simpl in He. lia. }
  assert (Hpre : Forall (λ e, phase e ≠ 3) (prelude com_round_id st)).
  { eapply Forall_impl; [exact Hprelude|]. intros e He. simpl in He. lia. }
  assert (Hfinish : ∀ t_c tables t_b boosted tail ledger,
    collection com_round_id st t_c (inr tables) →
    Forall (λ e, phase e = 0) t_b → Forall (λ e, phase e = 0) tail →
    malicious_boost (selected com_round_id st) (mal_count (selected com_round_id st))
        tables (collecting_state com_round_id st ledger)
      = (t_b, collecting_state com_round_id st ledger, inr boosted) →
    prelude com_round_id st ++ t_c ++ EvSleep 0.5 :: t_b
      ++ aggregate_event boosted :: tail = pre ++ EvAggregate w s b :: post →
    ∃ before t_boost,
      pre = before ++ EvSleep 0.5 :: t_boost
      ∧ dispatched_refs before = map ref (selected com_round_id st)
      ∧ done_refs before ≡ₚ map ref (selected com_round_id st)
      ∧ Forall (λ e, ∀ seconds, e = EvSleep seconds → seconds = 0.1%float) before
      ∧ Forall (λ e, phase e = 0) t_boost
      ∧ Forall (λ e, phase e = 0) post).
  { intros t_c tables t_b boosted tail ledger Hc Hb Htail Hboost Heq.
    replace (prelude com_round_id st ++ t_c ++ EvSleep 0.5 :: t_b
               ++ aggregate_event boosted :: tail)
      with ((prelude com_round_id st ++ t_c ++ EvSleep 0.5 :: t_b)
               ++ aggregate_event boosted :: tail) in Heq
      by (by rewrite <-!app_assoc).
    apply (unique_split (λ e, phase e = 3)) in Heq as (-> & Hagg & ->);
      [|done| |by apply Hzero].
    2: { rewrite !Forall_app, Forall_cons. split_and!; eauto. }
    exists (prelude com_round_id st ++ t_c), t_b.
    destruct Hc as (_ & _ & Hsleep & Hsent & Hdone & _ & _).
    destruct (quiet_refs _ (prelude_quiet com_round_id st)) as [Hq1 Hq2].
    split; [by rewrite <-app_assoc|]. split_and!; [| | |done..].
    - unfold dispatched_refs in *. by rewrite omap_app, Hq1.
    - unfold done_refs in *. rewrite omap_app, Hq2. by eapply Hdone.
    - apply Forall_app. split; [apply prelude_no_sleep|done]. }
  destruct Hout as [?|t ledger e ? Hc|t ledger tables t_b e ? Hc ? Hb
                    |t ledger tables t_b boosted e ? Hc ? Hb
                    |t ledger tables t_b boosted model ? Hc ? Hb
                    |t ledger tables t_b boosted model ? Hc ? Hb].
  - by destruct pre.
  - exfalso. eapply Hno; [|exact Ht]. rewrite Forall_app. eauto.
  - exfalso. eapply Hno; [|exact Ht]. rewrite !Forall_app, Forall_cons. eauto 10.
  - by apply (Hfinish t tables t_b boosted [] ledger Hc Hb).
  - eapply (Hfinish t tables t_b boosted _ ledger Hc Hb); [|done|exact Ht].
    by apply diagnostic_events_phase.
  - eapply (Hfinish t tables t_b boosted _ ledger Hc Hb); [|done|exact Ht].
    rewrite !Forall_app. split_and!; [by apply diagnostic_events_phase..|].
    unfold round_wandb_events, wandb_events.
    destruct (use_wandb config); by repeat constructor.
Qed.






(** ** Orderings within a round *)

(** C1: whenever a round invokes the aggregation method, everything before
    that call splits into the polling part, the half-second settling sleep
    and the status queries of the boost.  Within the polling part a future
    has completed for every training request sent (one per selected
    learner) and the coordinator only ever sleeps 0.1 s between polls; no
    request is sent and no future completes after it. *)
Theorem barrier_before_aggregation (com_round_id : Z) (st : Fed)
    (pre post : list event) (client_weights : gmap string params)
    (client_sizes : gmap string Z) (beta : option float) :
  trace_of (exec_round com_round_id st)
    = pre ++ EvAggregate client_weights client_sizes beta :: post →
  ∃ polling t_boost,
    pre = polling ++ EvSleep 0.5 :: t_boost
    ∧ dispatched_refs polling = map ref (selected com_round_id st)
    ∧ done_refs polling ≡ₚ dispatched_refs polling
    ∧ Forall (λ e, ∀ seconds, e = EvSleep seconds → seconds = 0.1%float) polling
    ∧ Forall quiet (t_boost ++ post).
Proof.
  intros Ht.
  destruct (round_outcome_barrier _ _ _ _ _ _ _ _ _ _
              (exec_round_cases com_round_id st) Ht)
    as (before & t_boost & -> & Hsent & Hdone & Hsleep & Hboost & Hpost).
  exists before, t_boost. split; [done|]. split_and!; [done| |done|].
  - by rewrite Hsent.
  - apply Forall_app. split; by apply (Forall_phase_quiet 0).
Qed.


(** C10: with the defense controller switched off in the configuration,
    every training request of every round carries [start_defense = True],
    whatever the state and the accuracy history of the coordinator. *)
Theorem defense_flag_default_true (com_round_id : Z) (st : Fed)
    (dest : string) (num_epochs : Z) (start_defense : bool) :
  config_defense_controller config = false →
  EvMessageAsync dest (Client_exec_round num_epochs start_defense)
    ∈ trace_of (exec_round com_round_id st) →
  start_defense = true.
Proof.
  intros Hoff Hin.
  pose proof (round_outcome_events _ _ _ _ _ (exec_round_cases com_round_id st)) as Hev.
  rewrite Forall_forall in Hev. specialize (Hev _ Hin). simpl in Hev.
  injection Hev as _ ->. unfold defense_flag. by rewrite Hoff.
Qed.


(** ** Client selection *)

Lemma sample_length size pool seed drawn :
  size ≤ length pool → length (sample size pool seed drawn).1 = size.
Proof.
  revert pool drawn. induction size as [|size IH]; intros pool drawn Hsize; [done|].
  simpl.
  assert (Hi : np_random_draw W seed drawn `mod` length pool < length pool)
    by (apply Nat.mod_upper_bound; lia).
  destruct (lookup_lt_is_Some_2 _ _ Hi) as [client Hclient]. rewrite Hclient.
  specialize (IH (delete (np_random_draw W seed drawn `mod` length pool) pool)
                 (S drawn)).
  destruct (sample size _ seed (S drawn)) as [rest drawn']. simpl in *.
  rewrite IH; [done|]. rewrite length_delete by eauto. lia.
Qed.

Lemma sample_submseteq size pool seed drawn :
  (sample size pool seed drawn).1 ⊆+ pool.
Proof.
  revert pool drawn. induction size as [|size IH]; intros pool drawn.
  { apply submseteq_nil_l. }
  simpl.
  destruct (pool !! _) as [client|] eqn:Hclient; [|apply submseteq_nil_l].
  specialize (IH (delete (np_random_draw W seed drawn `mod` length pool) pool)
                 (S drawn)).
  destruct (sample size _ seed (S drawn)) as [rest drawn']. simpl in *.
  rewrite (delete_Permutation pool _ _ Hclient). by apply submseteq_skip.
Qed.

Lemma sample_NoDup size pool seed drawn :
  NoDup pool → NoDup (sample size pool seed drawn).1.
Proof.
  revert pool drawn. induction size as [|size IH]; intros pool drawn Hpool.
  { constructor. }
  simpl.
  destruct (pool !! _) as [client|] eqn:Hclient; [|constructor].
  pose proof (sample_submseteq size
                (delete (np_random_draw W seed drawn `mod` length pool) pool)
                seed (S drawn)) as Hsub.
  specialize (IH (delete (np_random_draw W seed drawn `mod` length pool) pool)
                 (S drawn)).
  destruct (sample size _ seed (S drawn)) as [rest drawn']. simpl in *.
  rewrite (delete_Permutation pool _ _ Hclient) in Hpool.
  apply NoDup_cons in Hpool as [Hnotin Hpool].
  apply NoDup_cons. split; [|by apply IH].
  intros Hin. apply Hnotin. by eapply elem_of_submseteq.
Qed.

(** C4: for a registry of at least [clients_per_round] learners the
    selection of a round succeeds and returns exactly that many learners,
    each a different entry of the registry (so no learner twice when the
    registry holds none twice); it is the same in any two coordinator
    states with the same registry, whatever the generator did before,
    because the generator is reseeded with the round index first. *)
Theorem selection_distinct_and_reproducible (com_round_id : Z) (st1 st2 : Fed) :
  clients_per_round config ≤ length (clients st1) →
  clients st1 = clients st2 →
  result_of ((np_random_seed com_round_id;;
              random_selection (clients_per_round config)) st1)
    = inr (selected com_round_id st1)
  ∧ result_of ((np_random_seed com_round_id;;
                random_selection (clients_per_round config)) st2)
    = inr (selected com_round_id st1)
  ∧ length (selected com_round_id st1) = clients_per_round config
  ∧ selected com_round_id st1 ⊆+ clients st1
  ∧ (NoDup (clients st1) → NoDup (selected com_round_id st1)).
Proof.
  intros Hsize Hsame. unfold selected. split_and!.
  - erewrite bind_ok by reflexivity.
    by rewrite random_selection_ok.
  - erewrite bind_ok by reflexivity.
    rewrite random_selection_ok by (simpl; by rewrite <-Hsame).
    simpl. by rewrite Hsame.
  - by apply sample_length.
  - apply sample_submseteq.
  - apply sample_NoDup.
Qed.

(** The selection fails for a size larger than the registry. *)
Lemma selection_too_large (com_round_id : Z) (st : Fed) :
  length (clients st) < clients_per_round config →
  result_of ((np_random_seed com_round_id;;
              random_selection (clients_per_round config)) st) = inl ValueError.
Proof.
  intros Hsize. erewrite bind_ok by reflexivity.
  rewrite random_selection_fail; [done|]. simpl. lia.
Qed.


(** ** The malicious boost *)

(** The entry of a learner replaced by the weights [w] and the size [z]. *)
Definition substitute (w : params) (z : Z) (tables : Tables) (client : LocalClient)
  : Tables :=
  {| client_weights := <[name client := w]> (client_weights tables);
     client_sizes := <[name client := z]> (client_sizes tables) |}.

(** The benign learners the boost reaches with a budget of [mal_boost]. *)
Definition substituted (mal_boost : Z) (selected_clients : list LocalClient)
  : list LocalClient :=
  take (Z.to_nat (mal_boost - 1)) (List.filter benign selected_clients).

Lemma take_over_eq mal_name source client mal_boost tables w z st :
  last mal_name = Some source →
  client_weights tables !! source = Some w →
  client_sizes tables !! source = Some z →
  take_over mal_name client mal_boost tables st
    = ([], st, inr (substitute w z tables client, (mal_boost - 1)%Z)).
Proof.
  intros Hlast Hw Hz. unfold take_over, py_last, py_getitem. munfold.
  by rewrite Hlast, Hw, Hz.
Qed.

Lemma substitute_source w z tables client source :
  client_weights tables !! source = Some w →
  client_sizes tables !! source = Some z →
  client_weights (substitute w z tables client) !! source = Some w
  ∧ client_sizes (substitute w z tables client) !! source = Some z.
Proof.
  intros Hw Hz. unfold substitute. simpl.
  destruct (decide (name client = source)) as [->|Hne].
  - by rewrite !lookup_insert_eq.
  - by rewrite !lookup_insert_ne.
Qed.

Lemma boost_loop_eq mal_name source selected_clients mal_boost tables w z st :
  last mal_name = Some source →
  client_weights tables !! source = Some w →
  client_sizes tables !! source = Some z →
  (1 < mal_boost)%Z →
  result_of (boost_loop mal_name selected_clients mal_boost tables st)
    = inr (foldl (substitute w z) tables (substituted mal_boost selected_clients)).
Proof.
  intros Hlast. revert mal_boost tables.
  induction selected_clients as [|client rest IH];
    intros mal_boost tables Hw Hz Hbudget.
  { unfold substituted. simpl. by rewrite take_nil. }
  simpl. erewrite bind_ok by apply message_status_eq.
  unfold substituted, benign, flagged in *. simpl.
  destruct (get_client_status W (ref client)); simpl.
  - erewrite bind_ok by reflexivity. simpl.
    destruct (mal_boost =? 1)%Z eqn:E; [lia|]. by apply IH.
  - erewrite bind_ok by by eapply take_over_eq. simpl.
    destruct (substitute_source w z tables client source Hw Hz) as [Hw' Hz'].
    destruct (mal_boost - 1 =? 1)%Z eqn:E.
    + by replace (Z.to_nat (mal_boost - 1)) with 1 by lia.
    + replace (Z.to_nat (mal_boost - 1)) with (S (Z.to_nat (mal_boost - 1 - 1)))
        by lia.
      simpl. apply IH; [done..|lia].
Qed.

(** What the boost does to the tables it is given. *)
Lemma malicious_boost_substitutes (selected_clients : list LocalClient)
    (tables : Tables) (st : Fed) :
  (∀ source w z,
     (1 < mal_boost config)%Z →
     last (map name (List.filter flagged selected_clients)) = Some source →
     client_weights tables !! source = Some w →
     client_sizes tables !! source = Some z →
     result_of (malicious_boost selected_clients (mal_count selected_clients) tables st)
       = inr (foldl (substitute w z) tables
                    (substituted (mal_boost config) selected_clients))
     ∧ Forall (λ client, benign client = true)
              (substituted (mal_boost config) selected_clients)
     ∧ Z.of_nat (length (substituted (mal_boost config) selected_clients))
       = Z.min (mal_boost config - 1)
               (Z.of_nat (length (List.filter benign selected_clients))))
  ∧ ((mal_boost config ≤ 1)%Z ∨ mal_count selected_clients = 0%Z →
       result_of (malicious_boost selected_clients (mal_count selected_clients)
                    tables st) = inr tables)
  ∧ (mal_boost config = 3%Z → length selected_clients = 5 →
     mal_count selected_clients = 1%Z →
     length (substituted (mal_boost config) selected_clients) = 2).
Proof.
  split_and!.
  - intros source w z Hboost Hlast Hw Hz.
    assert (Hmal : (0 < mal_count selected_clients)%Z).
    { unfold mal_count.
      destruct (List.filter flagged selected_clients); [done|]. simpl. lia. }
    split_and!.
    + unfold malicious_boost.
      replace ((1 <? mal_boost config)%Z && (0 <? mal_count selected_clients)%Z)
        with true by (symmetry; apply andb_true_iff; lia).
      rewrite (bind_ok _ _ _ _ _ _ (flagged_names_eq _ _ _)). simpl.
      by eapply boost_loop_eq.
    + unfold substituted. apply Forall_take.
      apply Forall_forall. intros client Hin.
      apply list_elem_of_In, filter_In in Hin. by destruct Hin.
    + unfold substituted. rewrite length_take. lia.
  - intros Hnone. unfold malicious_boost.
    replace ((1 <? mal_boost config)%Z && (0 <? mal_count selected_clients)%Z)
      with false; [done|].
    symmetry. apply andb_false_iff. lia.
  - intros Hboost Hlen Hmal. unfold substituted. rewrite length_take, Hboost.
    assert (length (List.filter benign selected_clients)
            + length (List.filter flagged selected_clients) = 5) as Hsum.
    { rewrite <-Hlen. clear. unfold benign.
      induction selected_clients as [|client rest IH]; [done|]. simpl.
      destruct (flagged client); simpl; lia. }
    unfold mal_count in Hmal. lia.
Qed.







(** ** The record of a round and the diagnostics *)

Lemma round_outcome_state com_round_id st t st' res :
  round_outcome com_round_id st t st' res →
  clients st' = clients st
  ∧ match res with
    | inr _ =>
        exp_data st' = exp_data st ++ [round_record com_round_id st (net st')]
        ∧ defense_controller_counter st' =
            (if config_defense_controller config
             then controller_update (exp_data st') (counter_after_dispatch st)
             else counter_after_dispatch st)
    | inl _ => exp_data st' = exp_data st
    end.
Proof. by destruct 1. Qed.

(** C6 (as amended): a round that completes appends exactly one record to
    the coordinator's stream, and a round that fails appends none.  The
    record holds the number of selected learners, the round index, the
    round duration (the difference of the two clock readings), loss and
    accuracy of the clean evaluation with its confusion matrix, and loss,
    accuracy and confidence of the adversarial evaluation, both taken on
    the aggregated model. *)
Theorem round_appends_one_record (com_round_id : Z) (st : Fed) :
  (result_of (exec_round com_round_id st) = inr () →
     exp_data (state_of (exec_round com_round_id st))
       = exp_data st
         ++ [ {| num_selected_clients := length (selected com_round_id st);
                 round_id := com_round_id;
                 fr_round_duration :=
                   (clock W (S (clock_reads st)) - clock W (clock_reads st))%float;
                 fr_test_loss :=
                   (test W (net (state_of (exec_round com_round_id st)))).1.2;
                 test_accuracy :=
                   (test W (net (state_of (exec_round com_round_id st)))).1.1;
                 mal_loss :=
                   (mal_test W (net (state_of (exec_round com_round_id st)))).1.2;
                 mal_accuracy :=
                   (mal_test W (net (state_of (exec_round com_round_id st)))).1.1;
                 mal_confidence :=
                   (mal_test W (net (state_of (exec_round com_round_id st)))).2;
                 confusion_matrix :=
                   (test W (net (state_of (exec_round com_round_id st)))).2 |} ])
  ∧ (∀ e, result_of (exec_round com_round_id st) = inl e →
       exp_data (state_of (exec_round com_round_id st)) = exp_data st).
Proof.
  destruct (round_outcome_state _ _ _ _ _ (exec_round_cases com_round_id st))
    as [_ Hstate].
  split.
  - intros Hres. rewrite Hres in Hstate. by destruct Hstate.
  - intros e Hres. by rewrite Hres in Hstate.
Qed.

Lemma benign_hessian_all_flagged com_round_id selected_clients :
  Forall (λ client, flagged client = true) selected_clients →
  benign_hessian com_round_id selected_clients = []
  ∧ List.filter benign selected_clients = [].
Proof.
  unfold benign_hessian, benign.
  induction 1 as [|client rest Hc _ [IH1 IH2]]; [done|]. simpl.
  rewrite Hc. simpl. done.
Qed.

Lemma boost_loop_all_flagged mal_name selected_clients mal_boost tables st :
  Forall (λ client, flagged client = true) selected_clients →
  result_of (boost_loop mal_name selected_clients mal_boost tables st) = inr tables.
Proof.
  intros Hall. revert mal_boost.
  induction Hall as [|client rest Hc _ IH]; intros mal_boost; [done|].
  simpl. erewrite bind_ok by apply message_status_eq.
  unfold flagged in Hc. rewrite Hc. simpl.
  erewrite bind_ok by reflexivity. simpl.
  destruct (mal_boost =? 1)%Z; [done|]. apply IH.
Qed.

Lemma malicious_boost_all_flagged selected_clients mal_this_round tables st :
  Forall (λ client, flagged client = true) selected_clients →
  result_of (malicious_boost selected_clients mal_this_round tables st) = inr tables.
Proof.
  intros Hall. unfold malicious_boost.
  destruct (_ && _); [|done].
  rewrite (bind_ok _ _ _ _ _ _ (flagged_names_eq _ _ _)). simpl.
  by apply boost_loop_all_flagged.
Qed.

(** C9 (as amended): the mean regular loss divides by the number of benign
    selected learners, the two drift means by the number of drift entries
    the benign selected learners report; neither division is guarded.  So
    the regular-loss mean is defined exactly when a selected learner is
    benign, the drift means exactly when the benign selected learners
    report at least one entry, and each fails with a division by zero
    otherwise.  A round in which every selected learner is flagged never
    completes; when its selection succeeds, every future completes and the
    aggregation call of the round returns a model, it fails with a division
    by zero after that call and appends no record. *)
Theorem benign_diagnostics_unguarded (com_round_id : Z) (st : Fed)
    (selected_clients : list LocalClient) :
  (result_of (client_aggregate_regular_loss com_round_id selected_clients st)
     = match List.filter benign selected_clients with
       | [] => inl ZeroDivisionError
       | benign_clients =>
           inr (fsum (benign_regular_loss com_round_id selected_clients)
                / float_of_nat (length benign_clients))%float
       end)
  ∧ (result_of (client_aggregate_hessian com_round_id selected_clients st)
       = match benign_hessian com_round_id selected_clients with
         | [] => inl ZeroDivisionError
         | entries => inr (mean entries.*1, mean entries.*2)
         end)
  ∧ (Forall (λ client, flagged client = true) (selected com_round_id st) →
     result_of (exec_round com_round_id st) ≠ inr ()
     ∧ (clients_per_round config ≤ length (clients st) →
        Forall (λ client, ∃ d, future_delay W com_round_id (ref client) = Some d
                             ∧ d ≤ patience W) (selected com_round_id st) →
        (∀ pre weights_in sizes_in beta post,
           trace_of (exec_round com_round_id st)
             = pre ++ EvAggregate weights_in sizes_in beta :: post →
           ∃ model, aggregation_method W weights_in sizes_in beta = inr model) →
        result_of (exec_round com_round_id st) = inl ZeroDivisionError
        ∧ exp_data (state_of (exec_round com_round_id st)) = exp_data st
        ∧ ∃ pre weights_in sizes_in beta,
            trace_of (exec_round com_round_id st)
              = pre ++ EvAggregate weights_in sizes_in beta
                :: diagnostic_events Client_get_client_hessian
                     (selected com_round_id st))).
Proof.
  split_and!.
  - rewrite client_aggregate_regular_loss_eq. unfold result_of, fsum. simpl.
    by destruct (List.filter benign selected_clients).
  - by rewrite client_aggregate_hessian_eq.
  - intros Hall.
    destruct (benign_hessian_all_flagged com_round_id _ Hall) as [Hnone Hnone'].
    pose proof (exec_round_cases com_round_id st) as Hout.
    split.
    + by destruct Hout.
    + intros Hsize Hlive Hagg.
      destruct Hout as [?|t ledger e ? Hc|t ledger tables t_b e ? Hc Hb ?
                        |t ledger tables t_b boosted e ? Hc Hb ? Hfail
                        |t ledger tables t_b boosted model ? Hc Hb ? Hmodel
                        |t ledger tables t_b boosted model ? Hc Hb ? Hmodel];
        try done.
      * destruct Hc as (_ & _ & _ & _ & _ & _ & Hl).
        by destruct (Hl Hlive) as [? ?].
      * pose proof (malicious_boost_all_flagged _
                      (mal_count (selected com_round_id st)) tables
                      (collecting_state com_round_id st ledger) Hall) as Hok.
        rewrite Hb in Hok. done.
      * unfold aggregate in Hfail.
        destruct (Hagg (prelude com_round_id st ++ t ++ EvSleep 0.5 :: t_b)
                    (client_weights boosted) (client_sizes boosted)
                    (if bool_decide (aggregation config = "trmean")
                     then Some (tm_beta config) else None) []) as [model Hm].
        { unfold aggregate_event. by rewrite <-!app_assoc. }
        by rewrite Hm in Hfail.
      * split; [done|]. split; [done|].
        exists (prelude com_round_id st ++ t ++ EvSleep 0.5 :: t_b).
        eexists _, _, _. unfold aggregate_event.
        rewrite <-!app_assoc. simpl. reflexivity.
Qed.

(** ** The experiment loop *)

(** The events of the preparation: loading the data, asking for the data
    sizes and waiting for the learners to be ready. *)
Definition setup_event (e : event) : Prop :=
  match e with
  | EvMessage _ Client_init_dataloader => True
  | EvMessage _ Client_get_client_datasize => True
  | EvMessage _ Client_is_ready => True
  | EvSleep seconds => seconds = 2%float
  | _ => False
  end.

(** The flush of the ledger: the coordinator's stream, then the stream of
    each registered learner. *)
Definition flush_events (registry : list LocalClient) : list event :=
  EvSave "federator" :: map (λ client, EvSave (name client)) registry.

(** The rounds of the loop, each with the state it starts from. *)
Fixpoint rounds_from (round_ids : list Z) (st : Fed) : list (Z * Fed) :=
  match round_ids with
  | [] => []
  | com_round_id :: rest =>
      (com_round_id, st) :: rounds_from rest (state_of (exec_round com_round_id st))
  end.

Definition round_traces (round_ids : list Z) (st : Fed) : list (list event) :=
  map (λ start, trace_of (exec_round start.1 start.2)) (rounds_from round_ids st).

Lemma client_load_data_eq st :
  client_load_data st =
    (map (λ client, EvMessage (ref client) Client_init_dataloader) (clients st),
     st, inr ()).
Proof.
  unfold client_load_data. erewrite bind_ok by done. by rewrite for_each_emit.
Qed.

Lemma refresh_data_sizes_eq registry st :
  refresh_data_sizes registry st =
    (map (λ client, EvMessage (ref client) Client_get_client_datasize) registry, st,
     inr (map (λ client, {| name := name client; ref := ref client;
                            data_size := get_client_datasize W (ref client);
                            client_exp_data := client_exp_data client |})
              registry)).
Proof.
  induction registry as [|client rest IH]; [done|]. simpl.
  erewrite bind_ok by reflexivity.
  rewrite (bind_ok _ _ _ _ _ _ IH). unfold trace_of. simpl.
  by rewrite app_nil_r.
Qed.

Lemma get_client_data_sizes_eq st :
  get_client_data_sizes st =
    (map (λ client, EvMessage (ref client) Client_get_client_datasize) (clients st),
     set_clients
       (map (λ client, {| name := name client; ref := ref client;
                          data_size := get_client_datasize W (ref client);
                          client_exp_data := client_exp_data client |})
            (clients st)) st,
     inr ()).
Proof.
  unfold get_client_data_sizes. erewrite bind_ok by done. simpl.
  rewrite (bind_ok _ _ _ _ _ _ (refresh_data_sizes_eq _ _)).
  unfold trace_of. simpl. by rewrite app_nil_r.
Qed.

Lemma is_ready_responses pass registry st :
  map_m (λ client, emit (EvMessage (ref client) Client_is_ready);;
                   mret (is_ready W pass (ref client))) registry st =
    (map (λ client, EvMessage (ref client) Client_is_ready) registry, st,
     inr (map (λ client, is_ready W pass (ref client)) registry)).
Proof.
  induction registry as [|client rest IH]; [done|]. simpl.
  erewrite bind_ok by reflexivity.
  rewrite (bind_ok _ _ _ _ _ _ IH). unfold trace_of. simpl.
  by rewrite app_nil_r.
Qed.

Lemma clients_ready_loop_spec polls pass st :
  Forall setup_event (trace_of (clients_ready_loop polls pass st))
  ∧ state_of (clients_ready_loop polls pass st) = st.
Proof.
  revert pass. induction polls as [|polls IH]; intros pass; simpl.
  all: erewrite bind_ok by done; simpl.
  all: rewrite (bind_ok _ _ _ _ _ _ (is_ready_responses _ _ _)).
  all: erewrite bind_ok by done; simpl.
  all: assert (Hask : Forall setup_event
         (map (λ client, EvMessage (ref client) Client_is_ready) (clients st)))
         by (by apply Forall_map, Forall_true).
  all: destruct (forallb id _); unfold trace_of, state_of; simpl.
  all: rewrite ?app_nil_r, ?Forall_app; try (split_and?; by repeat constructor).
  destruct (IH (S pass)) as [Ht Hst]. unfold trace_of, state_of in Ht, Hst.
  split_and!; [done|by constructor|done].
Qed.

Lemma save_data_eq st : save_data st = (flush_events (clients st), st, inr ()).
Proof.
  unfold save_data, exp_data_save. erewrite bind_ok by done.
  erewrite bind_ok by done. simpl. by rewrite for_each_emit.
Qed.

Lemma setup_event_phase e : setup_event e → phase e ≠ 4.
Proof. by destruct e as [? []| | | | | |]. Qed.

Lemma round_event_phase st e : round_event st e → phase e ≠ 4.
Proof. by destruct e as [? []| | | | | |]. Qed.

Lemma rounds_from_ids round_ids st : (rounds_from round_ids st).*1 = round_ids.
Proof.
  revert st. induction round_ids as [|com_round_id rest IH]; intros st; [done|].
  simpl. by rewrite IH.
Qed.

Lemma flush_events_names registry registry' :
  map name registry = map name registry' →
  flush_events registry = flush_events registry'.
Proof.
  intros Hnames. unfold flush_events. f_equal.
  rewrite <-(map_map name EvSave registry), Hnames. apply map_map.
Qed.

(** Projections of a run that is written out as a triple. *)
Ltac project_run :=
  repeat match goal with
         | |- context [trace_of (?t, ?s, ?r)] => change (trace_of (t, s, r)) with t
         | |- context [state_of (?t, ?s, ?r)] => change (state_of (t, s, r)) with s
         | |- context [result_of (?t, ?s, ?r)] => change (result_of (t, s, r)) with r
         end.

(** The loop over the rounds: it stops at the first round that fails. *)
Lemma rounds_loop_spec round_ids st :
  Forall (λ e, phase e ≠ 4) (trace_of (for_each round_ids exec_round st))
  ∧ clients (state_of (for_each round_ids exec_round st)) = clients st
  ∧ (result_of (for_each round_ids exec_round st) = inr () →
     trace_of (for_each round_ids exec_round st)
       = concat (round_traces round_ids st)
     ∧ Forall (λ start, result_of (exec_round start.1 start.2) = inr ())
              (rounds_from round_ids st)
     ∧ ∃ records,
         exp_data (state_of (for_each round_ids exec_round st))
           = exp_data st ++ records
         ∧ map round_id records = round_ids).
Proof.
  revert st. induction round_ids as [|com_round_id rest IH]; intros st.
  { split_and!; [constructor|done|]. intros _. split_and!; [done|constructor|].
    exists []. by rewrite app_nil_r. }
  pose proof (exec_round_cases com_round_id st) as Hout.
  pose proof (round_outcome_events _ _ _ _ _ Hout) as Hev.
  destruct (round_outcome_state _ _ _ _ _ Hout) as [Hclients Hstate].
  assert (Hphase : Forall (λ e, phase e ≠ 4) (trace_of (exec_round com_round_id st))).
  { eapply Forall_impl; [exact Hev|]. apply round_event_phase. }
  simpl.
  destruct (result_of (exec_round com_round_id st)) as [e|[]] eqn:Hres.
  - assert (Hrun : exec_round com_round_id st
                   = (trace_of (exec_round com_round_id st),
                      state_of (exec_round com_round_id st), inl e))
      by (rewrite <-Hres; apply run_eta).
    by rewrite (bind_fail _ _ _ _ _ _ Hrun).
  - assert (Hrun : exec_round com_round_id st
                   = (trace_of (exec_round com_round_id st),
                      state_of (exec_round com_round_id st), inr ()))
      by (rewrite <-Hres; apply run_eta).
    rewrite (bind_ok _ _ _ _ _ _ Hrun).
    destruct (IH (state_of (exec_round com_round_id st)))
      as (Hrest & Hrest_clients & Hrest_ok).
    project_run.
    split_and!.
    + apply Forall_app. by split.
    + by rewrite Hrest_clients.
    + intros Hok. destruct (Hrest_ok Hok) as (Ht & Hall & records & Hrecords & Hids).
      destruct Hstate as [Hrecord _].
      split_and!.
      * unfold round_traces. simpl. by rewrite Ht.
      * by constructor.
      * exists (round_record com_round_id st
                  (net (state_of (exec_round com_round_id st))) :: records).
        rewrite Hrecords, Hrecord, <-app_assoc. simpl. by rewrite Hids.
Qed.

(** The registry once the data sizes have been asked for. *)
Definition ready_state (st : Fed) : Fed :=
  set_clients
    (map (λ client, {| name := name client; ref := ref client;
                       data_size := get_client_datasize W (ref client);
                       client_exp_data := client_exp_data client |})
         (clients st)) st.

(** What a call of [run] leaves behind. *)
Definition run_post (st : Fed) (t : list event) (st' : Fed) (res : exn + ())
  : Prop :=
  (res = inr () →
   ∃ t_setup,
     t = t_setup
           ++ concat (round_traces (seqZ 0 (rounds config)) (ready_state st))
           ++ flush_events (clients st)
     ∧ Forall setup_event t_setup
     ∧ Forall (λ start, result_of (exec_round start.1 start.2) = inr ())
              (rounds_from (seqZ 0 (rounds config)) (ready_state st))
     ∧ Forall (λ e, phase e ≠ 4)
              (t_setup ++ concat (round_traces (seqZ 0 (rounds config))
                                               (ready_state st)))
     ∧ ∃ records,
         exp_data st' = exp_data st ++ records
         ∧ map round_id records = seqZ 0 (rounds config))
  ∧ (∀ e, res = inl e → Forall (λ e, phase e ≠ 4) t).

Lemma run_outcome st : wp run st (run_post st).
Proof.
  unfold run.
  eapply wp_bind_ok; [reflexivity|]. cbv beta.
  destruct (bool_decide _).
  2: { eapply wp_bind_fail; [reflexivity|]. split; [done|]. intros; constructor. }
  eapply wp_bind_ok; [reflexivity|].
  eapply wp_bind_ok; [apply client_load_data_eq|].
  eapply wp_bind_ok; [apply get_client_data_sizes_eq|].
  fold (ready_state st).
  assert (Hsetup : Forall setup_event
            (map (λ client, EvMessage (ref client) Client_init_dataloader) (clients st)
             ++ map (λ client, EvMessage (ref client) Client_get_client_datasize)
                    (clients st))).
  { apply Forall_app. split; by apply Forall_map, Forall_true. }
  destruct (clients_ready_loop_spec (patience W) 0 (ready_state st)) as [Hready Hsame].
  fold clients_ready in Hready, Hsame.
  pose proof (run_eta (clients_ready (ready_state st))) as Hrun.
  rewrite Hsame in Hrun.
  destruct (result_of (clients_ready (ready_state st))) as [e|[]].
  { eapply wp_bind_fail; [exact Hrun|]. split; [done|]. intros _ _. simpl.
    rewrite app_assoc. apply Forall_app. split.
    - eapply Forall_impl; [exact Hsetup|]. apply setup_event_phase.
    - eapply Forall_impl; [exact Hready|]. apply setup_event_phase. }
  eapply wp_bind_ok; [exact Hrun|]. clear Hrun.
  destruct (rounds_loop_spec (seqZ 0 (rounds config)) (ready_state st))
    as (Hphase & Hclients & Hok).
  pose proof (run_eta (for_each (seqZ 0 (rounds config)) exec_round (ready_state st)))
    as Hrun.
  assert (Hbefore : Forall (λ e, phase e ≠ 4)
            ((map (λ client, EvMessage (ref client) Client_init_dataloader) (clients st)
              ++ map (λ client, EvMessage (ref client) Client_get_client_datasize)
                     (clients st))
             ++ trace_of (clients_ready (ready_state st)))).
  { apply Forall_app. split.
    - eapply Forall_impl; [exact Hsetup|]. apply setup_event_phase.
    - eapply Forall_impl; [exact Hready|]. apply setup_event_phase. }
  destruct (result_of (for_each _ exec_round (ready_state st))) as [e|[]].
  { eapply wp_bind_fail; [exact Hrun|]. split; [done|]. intros _ _. simpl.
    rewrite !app_assoc. apply Forall_app. by split. }
  eapply wp_bind_ok; [exact Hrun|]. clear Hrun.
  eapply wp_run; [apply save_data_eq|].
  destruct (Hok eq_refl) as (Ht & Hall & records & Hrecords & Hids).
  split; [|done]. intros _.
  exists ((map (λ client, EvMessage (ref client) Client_init_dataloader) (clients st)
           ++ map (λ client, EvMessage (ref client) Client_get_client_datasize)
                  (clients st))
          ++ trace_of (clients_ready (ready_state st))).
  split_and!.
  - rewrite Hclients, Ht. simpl. rewrite <-!app_assoc. do 4 f_equal.
    apply flush_events_names. by rewrite map_map.
  - apply Forall_app. by split.
  - done.
  - apply Forall_app. split; [done|]. by rewrite <-Ht.
  - exists records. by rewrite Hrecords.
Qed.

(** ** The adaptive defense over the rounds *)

(** The [start_defense] argument of a training request. *)
Definition dispatch_flag (e : event) : option bool :=
  match e with
  | EvMessageAsync _ (Client_exec_round _ start_defense) => Some start_defense
  | _ => None
  end.

Definition dispatch_flags (t : list event) : list bool := omap dispatch_flag t.

Lemma dispatch_flags_app t1 t2 :
  dispatch_flags (t1 ++ t2) = dispatch_flags t1 ++ dispatch_flags t2.
Proof. apply omap_app. Qed.

Lemma round_event_flags st t :
  Forall (round_event st) t →
  dispatch_flags t = replicate (length (dispatched_refs t)) (defense_flag st).
Proof.
  unfold dispatch_flags, dispatched_refs.
  induction 1 as [|e t He _ IH]; [done|].
  destruct e as [? []|? m| | | | |]; cbn; try done.
  simpl in He. subst m. cbn. by rewrite IH.
Qed.

Lemma round_outcome_dispatched com_round_id st t st' res :
  round_outcome com_round_id st t st' res →
  clients_per_round config ≤ length (clients st) →
  dispatched_refs t = map ref (selected com_round_id st).
Proof.
  intros Hout Hsize.
  destruct (round_outcome_segments _ _ _ _ _ Hout)
    as [[_ Hsmall]|(t_c & rest & -> & _ & Hsent & Hrest)]; [done|].
  assert (Hquiet : Forall quiet rest).
  { eapply Forall_impl; [exact Hrest|]. by intros e [? _]. }
  destruct (quiet_refs _ (prelude_quiet com_round_id st)) as [Hprelude _].
  destruct (quiet_refs _ Hquiet) as [Hclosing _].
  unfold dispatched_refs in *.
  by rewrite !omap_app, Hsent, Hprelude, Hclosing, app_nil_r.
Qed.

(** The countdown a round starts with, once the request has been sent. *)
Definition countdown_after_dispatch (counter : Z) : Z :=
  if (0 <? counter)%Z then (counter - 1)%Z else counter.

Lemma controller_update_ge records counter :
  (0 ≤ counter)%Z → (counter ≤ controller_update records counter)%Z.
Proof.
  unfold controller_update. intros Hpos.
  destruct (accuracy_drop records); [|lia].
  destruct (Z.eqb_spec counter 0); lia.
Qed.

Lemma controller_update_active records counter :
  counter ≠ 0%Z → controller_update records counter = counter.
Proof.
  unfold controller_update. intros Hactive.
  destruct (accuracy_drop records); [|done].
  by destruct (Z.eqb_spec counter 0).
Qed.

Lemma for_each_cons_fail {A} (x : A) rest (body : A → M unit) st e :
  result_of (body x st) = inl e →
  for_each (x :: rest) body st = body x st.
Proof.
  intros Hres. simpl.
  rewrite (bind_fail _ _ _ (trace_of (body x st)) (state_of (body x st)) e).
  - rewrite <-Hres. symmetry. apply run_eta.
  - rewrite <-Hres. apply run_eta.
Qed.

Lemma for_each_cons_ok {A} (x : A) rest (body : A → M unit) st :
  result_of (body x st) = inr () →
  for_each (x :: rest) body st =
    (trace_of (body x st) ++ trace_of (for_each rest body (state_of (body x st))),
     state_of (for_each rest body (state_of (body x st))),
     result_of (for_each rest body (state_of (body x st)))).
Proof.
  intros Hres. simpl.
  rewrite (bind_ok _ _ _ (trace_of (body x st)) (state_of (body x st)) ()); [done|].
  rewrite <-Hres. apply run_eta.
Qed.

Lemma round_flags_on com_round_id st :
  config_defense_controller config = true →
  dispatch_flags (trace_of (exec_round com_round_id st))
    = replicate (length (dispatched_refs (trace_of (exec_round com_round_id st))))
                (0 <? defense_controller_counter st)%Z.
Proof.
  intros Hon.
  rewrite (round_event_flags st)
    by apply (round_outcome_events _ _ _ _ _ (exec_round_cases com_round_id st)).
  unfold defense_flag. by rewrite Hon.
Qed.

Lemma round_counter_on com_round_id st :
  config_defense_controller config = true →
  result_of (exec_round com_round_id st) = inr () →
  defense_controller_counter (state_of (exec_round com_round_id st))
    = controller_update (exp_data (state_of (exec_round com_round_id st)))
        (countdown_after_dispatch (defense_controller_counter st)).
Proof.
  intros Hon Hres.
  destruct (round_outcome_state _ _ _ _ _ (exec_round_cases com_round_id st))
    as [_ Hstate].
  rewrite Hres in Hstate. destruct Hstate as [_ ->].
  unfold counter_after_dispatch, countdown_after_dispatch. by rewrite Hon.
Qed.

Lemma window_flags round_ids st :
  config_defense_controller config = true →
  (Z.of_nat (length round_ids) ≤ defense_controller_counter st)%Z →
  Forall (λ flag, flag = true)
         (dispatch_flags (trace_of (for_each round_ids exec_round st))).
Proof.
  intros Hon. revert st.
  induction round_ids as [|com_round_id rest IH]; intros st Hwindow; [constructor|].
  simpl in Hwindow.
  assert (Hfirst : Forall (λ flag, flag = true)
            (dispatch_flags (trace_of (exec_round com_round_id st)))).
  { rewrite round_flags_on by done.
    replace (0 <? defense_controller_counter st)%Z with true
      by (symmetry; apply Z.ltb_lt; lia).
    apply Forall_replicate. done. }
  destruct (result_of (exec_round com_round_id st)) as [e|[]] eqn:Hres.
  { by rewrite (for_each_cons_fail _ _ _ _ _ Hres). }
  rewrite (for_each_cons_ok _ _ _ _ Hres). project_run.
  rewrite dispatch_flags_app. apply Forall_app. split; [done|].
  apply IH. rewrite (round_counter_on _ _ Hon Hres).
  etrans; [|apply controller_update_ge];
    unfold countdown_after_dispatch; destruct (Z.ltb_spec 0 (defense_controller_counter st)); lia.
Qed.

Lemma window_end round_ids st :
  config_defense_controller config = true →
  round_ids ≠ [] →
  defense_controller_counter st = Z.of_nat (length round_ids) →
  result_of (for_each round_ids exec_round st) = inr () →
  defense_controller_counter (state_of (for_each round_ids exec_round st))
    = if accuracy_drop (exp_data (state_of (for_each round_ids exec_round st)))
      then 5%Z else 0%Z.
Proof.
  intros Hon. revert st.
  induction round_ids as [|com_round_id rest IH]; intros st Hsome Hwindow; [done|].
  simpl in Hwindow.
  destruct (result_of (exec_round com_round_id st)) as [e|[]] eqn:Hres.
  { rewrite (for_each_cons_fail _ _ _ _ _ Hres). by rewrite Hres. }
  rewrite (for_each_cons_ok _ _ _ _ Hres). project_run.
  pose proof (round_counter_on _ _ Hon Hres) as Hcounter.
  unfold countdown_after_dispatch in Hcounter.
  destruct (Z.ltb_spec 0 (defense_controller_counter st)); [|lia].
  destruct rest as [|next rest].
  - intros _.
    change (state_of (for_each [] exec_round (state_of (exec_round com_round_id st))))
      with (state_of (exec_round com_round_id st)).
    rewrite Hcounter.
    replace (defense_controller_counter st - 1)%Z with 0%Z by (simpl in Hwindow; lia).
    unfold controller_update. by destruct (accuracy_drop _).
  - apply IH; [done|].
    rewrite Hcounter, controller_update_active; simpl in *; lia.
Qed.

(** C3 (as amended): with the defense controller enabled, every training
    request of a round carries the flag true exactly when the countdown is
    positive at the start of the round, and the round takes one off a
    positive countdown.  When a round completes, the countdown is set to 5
    if the clean accuracy of the latest record is more than 0.5 below that
    of the record before it and the countdown has reached 0; a drop seen
    while the countdown is still positive changes nothing, and so does a
    round without a drop.  Hence from a countdown of [n] the next [n]
    rounds send the flag true, and after them the countdown is 5 if the
    last of them ended with a drop, and 0 otherwise. *)
Theorem defense_window :
  config_defense_controller config = true →
  (∀ com_round_id st,
     dispatch_flags (trace_of (exec_round com_round_id st))
       = replicate (length (dispatched_refs (trace_of (exec_round com_round_id st))))
                   (0 <? defense_controller_counter st)%Z
     ∧ (clients_per_round config ≤ length (clients st) →
        dispatched_refs (trace_of (exec_round com_round_id st))
          = map ref (selected com_round_id st))
     ∧ (result_of (exec_round com_round_id st) = inr () →
        defense_controller_counter (state_of (exec_round com_round_id st))
          = controller_update (exp_data (state_of (exec_round com_round_id st)))
              (countdown_after_dispatch (defense_controller_counter st))))
  ∧ (∀ records,
       accuracy_drop records = true →
       controller_update records 0 = 5%Z
       ∧ ∀ counter, counter ≠ 0%Z → controller_update records counter = counter)
  ∧ (∀ records counter,
       accuracy_drop records = false → controller_update records counter = counter)
  ∧ (∀ round_ids st,
       (Z.of_nat (length round_ids) ≤ defense_controller_counter st)%Z →
       Forall (λ flag, flag = true)
              (dispatch_flags (trace_of (for_each round_ids exec_round st))))
  ∧ (∀ round_ids st,
       round_ids ≠ [] →
       defense_controller_counter st = Z.of_nat (length round_ids) →
       result_of (for_each round_ids exec_round st) = inr () →
       defense_controller_counter (state_of (for_each round_ids exec_round st))
         = if accuracy_drop (exp_data (state_of (for_each round_ids exec_round st)))
           then 5%Z else 0%Z).
Proof.
  intros Hon. split_and!.
  - intros com_round_id st. split_and!.
    + by apply round_flags_on.
    + apply (round_outcome_dispatched _ _ _ _ _ (exec_round_cases com_round_id st)).
    + by apply round_counter_on.
  - intros records Hdrop. unfold controller_update. rewrite Hdrop.
    split; [done|]. intros counter Hactive. by destruct (Z.eqb_spec counter 0).
  - intros records counter Hdrop. unfold controller_update. by rewrite Hdrop.
  - intros round_ids st. by apply window_flags.
  - intros round_ids st. by apply window_end.
Qed.

(** ** The preparation of an experiment *)

(** The address a new [DataContainer] gets: one that no stream and no
    registered client uses. *)
Definition new_container (st : Fed) : nat :=
  fresh (dom (data_containers st)
           ∪ list_to_set (client_exp_data <$> clients st) : gset nat).

(** [register_client(client_name, rank)]: the new [LocalClient] is built
    with the name as its reference and the rank in the place of the data
    size; its [DataContainer] is a new one, with an empty stream. *)
Definition register_client (client_name : string) (rank : Z) : M unit :=
  modify (λ st,
    set_clients (clients st ++ [{| name := client_name;
                                   ref := client_name;
                                   data_size := rank;
                                   client_exp_data := new_container st |}])
      (set_data_containers (<[new_container st := []]> (data_containers st)) st)).

(** X5: [get_client_data_sizes] asks every registered learner once, in
    registry order, and stores each answer as that learner's data size;
    names, references and the order of the registry are kept and nothing
    else changes.  Whatever stood in a data size before (the rank, for a
    learner that registered remotely) is gone, and a second call changes
    nothing. *)
Theorem get_client_data_sizes_refreshes (st : Fed) :
  get_client_data_sizes st
    = (map (λ client, EvMessage (ref client) Client_get_client_datasize) (clients st),
       set_clients (clients (state_of (get_client_data_sizes st))) st, inr ())
  ∧ map name (clients (state_of (get_client_data_sizes st))) = map name (clients st)
  ∧ map ref (clients (state_of (get_client_data_sizes st))) = map ref (clients st)
  ∧ map data_size (clients (state_of (get_client_data_sizes st)))
    = map (λ client, get_client_datasize W (ref client)) (clients st)
  ∧ state_of (get_client_data_sizes (state_of (get_client_data_sizes st)))
    = state_of (get_client_data_sizes st)
  ∧ (∀ client_name rank,
       last (clients (state_of ((register_client client_name rank;;
                                 get_client_data_sizes) st)))
       = Some {| name := client_name; ref := client_name;
                 data_size := get_client_datasize W client_name;
                 client_exp_data := new_container st |}).
Proof.
  split_and!.
  - by rewrite !get_client_data_sizes_eq.
  - rewrite get_client_data_sizes_eq. unfold state_of. simpl. by rewrite map_map.
  - rewrite get_client_data_sizes_eq. unfold state_of. simpl. by rewrite map_map.
  - rewrite get_client_data_sizes_eq. unfold state_of. simpl. by rewrite map_map.
  - rewrite !get_client_data_sizes_eq. unfold state_of, set_clients. simpl.
    f_equal. by rewrite map_map.
  - intros client_name rank. unfold register_client.
    erewrite bind_ok by reflexivity. cbv beta.
    rewrite get_client_data_sizes_eq. unfold state_of. simpl.
    rewrite map_app. simpl. by rewrite last_snoc.
Qed.

(** One pass of [clients_ready]: every registered learner is asked, then
    the coordinator sleeps two seconds. *)
Definition ready_pass_events (st : Fed) : list event :=
  map (λ client, EvMessage (ref client) Client_is_ready) (clients st) ++ [EvSleep 2].

Definition all_ready (pass : nat) (st : Fed) : bool :=
  forallb (λ client, is_ready W pass (ref client)) (clients st).

Lemma forallb_id_map {A} (f : A → bool) (l : list A) :
  forallb id (map f l) = forallb f l.
Proof. induction l as [|x l IH]; [done|]. simpl. by rewrite IH. Qed.

Lemma clients_ready_loop_passes polls pass k st :
  (∀ p, pass ≤ p < pass + k → all_ready p st = false) →
  all_ready (pass + k) st = true →
  k ≤ polls →
  clients_ready_loop polls pass st
    = (concat (replicate (S k) (ready_pass_events st)), st, inr ()).
Proof.
  revert pass k. induction polls as [|polls IH]; intros pass k Hwait Hready Hk; simpl.
  all: erewrite bind_ok by done; simpl.
  all: rewrite (bind_ok _ _ _ _ _ _ (is_ready_responses _ _ _)).
  all: erewrite bind_ok by done; simpl.
  all: rewrite forallb_id_map; fold (all_ready pass st).
  - assert (k = 0) as -> by lia. rewrite Nat.add_0_r in Hready. rewrite Hready.
    unfold trace_of, state_of, result_of, ready_pass_events. simpl.
    by rewrite !app_nil_r.
  - destruct k as [|k].
    + rewrite Nat.add_0_r in Hready. rewrite Hready.
      unfold trace_of, state_of, result_of, ready_pass_events. simpl.
      by rewrite !app_nil_r.
    + rewrite (Hwait pass) by lia.
      rewrite (IH (S pass) k); [|intros p Hp; apply Hwait; lia
                                |by replace (S pass + k) with (pass + S k) by lia|lia].
      unfold trace_of, state_of, result_of, ready_pass_events. simpl.
      by rewrite <-!app_assoc.
Qed.

(** X6: [clients_ready] repeats its pass until one finds every learner
    ready.  Each pass asks every registered learner, also after one has
    answered no, and then sleeps two seconds, also the pass that finds
    them all ready.  When pass [k] is the first that finds all ready, the
    call returns after [k + 1] passes and leaves the coordinator as it
    was. *)
Theorem clients_ready_passes (k : nat) (st : Fed) :
  (∀ p, p < k → all_ready p st = false) →
  all_ready k st = true →
  k ≤ patience W →
  clients_ready st = (concat (replicate (S k) (ready_pass_events st)), st, inr ()).
Proof.
  intros Hwait Hready Hk. unfold clients_ready.
  apply clients_ready_loop_passes; [|done..].
  intros p Hp. apply Hwait. lia.
Qed.

Lemma elem_of_concat {A} (x : A) (ls : list (list A)) :
  x ∈ concat ls → ∃ l, x ∈ l ∧ l ∈ ls.
Proof.
  induction ls as [|l ls IH]; simpl; [by intros ?%elem_of_nil|].
  intros [Hx|Hx]%elem_of_app.
  - exists l. split; [done|by left].
  - destruct (IH Hx) as (l' & Hl' & Hin). exists l'. split; [done|by right].
Qed.

(** X7: the two diagnostics ask every selected learner for its status, in
    selection order, and ask the learner itself for its Hessian metrics or
    its regular loss right after a status answer of benign; a flagged
    learner is never asked.  All the queries are sent before the division
    is attempted, also when it fails, and the coordinator state is not
    touched. *)
Theorem diagnostics_ask_benign_only (com_round_id : Z)
    (selected_clients : list LocalClient) (st : Fed) :
  trace_of (client_aggregate_hessian com_round_id selected_clients st)
    = concat (map (λ client,
                EvMessage (ref client) Client_get_client_status
                  :: (if get_client_status W (ref client) then []
                      else [EvMessage (ref client) Client_get_client_hessian]))
              selected_clients)
  ∧ trace_of (client_aggregate_regular_loss com_round_id selected_clients st)
    = concat (map (λ client,
                EvMessage (ref client) Client_get_client_status
                  :: (if get_client_status W (ref client) then []
                      else [EvMessage (ref client) Client_get_client_regular_loss]))
              selected_clients)
  ∧ state_of (client_aggregate_hessian com_round_id selected_clients st) = st
  ∧ state_of (client_aggregate_regular_loss com_round_id selected_clients st) = st
  ∧ (∀ dest m,
       m = Client_get_client_hessian ∨ m = Client_get_client_regular_loss →
       EvMessage dest m
         ∈ trace_of (client_aggregate_hessian com_round_id selected_clients st)
           ++ trace_of (client_aggregate_regular_loss com_round_id selected_clients st) →
       ∃ client, client ∈ selected_clients ∧ ref client = dest
                 ∧ get_client_status W dest = false).
Proof.
  rewrite client_aggregate_hessian_eq, client_aggregate_regular_loss_eq.
  unfold trace_of, state_of. simpl. split_and!; try done.
  intros dest m Hm Hin.
  assert (Hdiag : ∀ m', EvMessage dest m ∈ diagnostic_events m' selected_clients →
            ∃ client, client ∈ selected_clients ∧ ref client = dest
                      ∧ get_client_status W dest = false).
  { intros m'. unfold diagnostic_events.
    intros (events & Hev & Hevents)%elem_of_concat.
    apply list_elem_of_fmap in Hevents as (client & -> & Hclient).
    apply elem_of_cons in Hev as [Hev|Hev].
    - destruct Hm as [-> | ->]; discriminate Hev.
    - unfold flagged in Hev.
      destruct (get_client_status W (ref client)) eqn:Hstatus;
        [by apply elem_of_nil in Hev|].
      apply list_elem_of_singleton in Hev. injection Hev as Hdest _.
      exists client. rewrite Hdest. by rewrite <-Hdest at 2. }
  apply elem_of_app in Hin as [Hin|Hin]; by eapply Hdiag.
Qed.

(** ** The countdown of the defense over an experiment *)

Lemma round_outcome_counter com_round_id st t st' res :
  round_outcome com_round_id st t st' res →
  ((0 ≤ defense_controller_counter st ≤ 5)%Z →
   (0 ≤ defense_controller_counter st' ≤ 5)%Z)
  ∧ (config_defense_controller config = false →
     defense_controller_counter st' = defense_controller_counter st).
Proof.
  assert (Hafter : (0 ≤ defense_controller_counter st ≤ 5)%Z →
            (0 ≤ counter_after_dispatch st ≤ 5)%Z).
  { unfold counter_after_dispatch. destruct (_ && _) eqn:Hif; [|done].
    apply andb_true_iff in Hif as [_ Hpos%Z.ltb_lt]. lia. }
  assert (Hoff : config_defense_controller config = false →
            counter_after_dispatch st = defense_controller_counter st).
  { unfold counter_after_dispatch. by intros ->. }
  destruct 1; simpl; try done.
  split.
  - intros Hc. specialize (Hafter Hc).
    destruct (config_defense_controller config); [|done].
    unfold controller_update. destruct (accuracy_drop _); [|done].
    destruct (Z.eqb_spec (counter_after_dispatch st) 0); lia.
  - intros Hc. rewrite Hc. by apply Hoff.
Qed.

Lemma rounds_loop_counter round_ids st :
  ((0 ≤ defense_controller_counter st ≤ 5)%Z →
   (0 ≤ defense_controller_counter (state_of (for_each round_ids exec_round st)) ≤ 5)%Z)
  ∧ (config_defense_controller config = false →
     defense_controller_counter (state_of (for_each round_ids exec_round st))
       = defense_controller_counter st).
Proof.
  revert st. induction round_ids as [|com_round_id rest IH]; intros st; [done|].
  destruct (round_outcome_counter _ _ _ _ _ (exec_round_cases com_round_id st))
    as [Hbound Hoff].
  destruct (result_of (exec_round com_round_id st)) as [e|[]] eqn:Hres.
  { by rewrite (for_each_cons_fail _ _ _ _ _ Hres). }
  rewrite (for_each_cons_ok _ _ _ _ Hres). project_run.
  destruct (IH (state_of (exec_round com_round_id st))) as [IHbound IHoff].
  split.
  - intros Hc. by apply IHbound, Hbound.
  - intros Hc. by rewrite IHoff, Hoff.
Qed.

(** X8: the countdown of the defense stays between 0 and 5: a round that
    starts with it in this range ends with it in this range, however the
    round ends, and so does any sequence of rounds.  With the defense
    controller disabled no round ever changes it. *)
Theorem defense_counter_bounded (round_ids : list Z) (st : Fed) :
  (0 ≤ defense_controller_counter st ≤ 5)%Z →
  (∀ com_round_id,
     (0 ≤ defense_controller_counter (state_of (exec_round com_round_id st)) ≤ 5)%Z)
  ∧ (0 ≤ defense_controller_counter (state_of (for_each round_ids exec_round st))
       ≤ 5)%Z
  ∧ (config_defense_controller config = false →
     defense_controller_counter (state_of (for_each round_ids exec_round st))
       = defense_controller_counter st).
Proof.
  intros Hc. destruct (rounds_loop_counter round_ids st) as [Hbound Hoff].
  split; [|split; [by apply Hbound|exact Hoff]].
  intros com_round_id.
  by apply (round_outcome_counter _ _ _ _ _ (exec_round_cases com_round_id st)).
Qed.

Lemma accuracy_drop_single (records : list FederatorRecord) :
  length records ≤ 1 → accuracy_drop records = false.
Proof. by destruct records as [|first [|second rest]]; simpl; [..|lia]. Qed.

(** X9: with the defense controller enabled, an experiment that starts
    with an empty ledger and the countdown at 0 sends the flag false with
    every training request of its first two rounds: the controller needs
    two records before it can see a drop, so the third round is the first
    that can carry the flag true. *)
Theorem defense_off_in_first_two_rounds (first second : Z) (st : Fed) :
  config_defense_controller config = true →
  defense_controller_counter st = 0%Z →
  exp_data st = [] →
  Forall (λ flag, flag = false)
         (dispatch_flags (trace_of (for_each [first; second] exec_round st))).
Proof.
  intros Hon Hzero Hfresh.
  assert (Hflags : ∀ com_round_id st0, defense_controller_counter st0 = 0%Z →
            Forall (λ flag, flag = false)
                   (dispatch_flags (trace_of (exec_round com_round_id st0)))).
  { intros com_round_id st0 Hst0. rewrite round_flags_on, Hst0 by done.
    by apply Forall_replicate. }
  destruct (result_of (exec_round first st)) as [e|[]] eqn:Hres.
  { rewrite (for_each_cons_fail _ _ _ _ _ Hres). by apply Hflags. }
  rewrite (for_each_cons_ok _ _ _ _ Hres). project_run.
  rewrite dispatch_flags_app. apply Forall_app. split; [by apply Hflags|].
  assert (Hnext : defense_controller_counter (state_of (exec_round first st)) = 0%Z).
  { rewrite (round_counter_on _ _ Hon Hres), Hzero.
    destruct (round_outcome_state _ _ _ _ _ (exec_round_cases first st))
      as [_ Hstate].
    rewrite Hres in Hstate. destruct Hstate as [Hrecord _].
    unfold controller_update. rewrite accuracy_drop_single; [done|].
    rewrite Hrecord, Hfresh. simpl. lia. }
  destruct (result_of (exec_round second (state_of (exec_round first st))))
    as [e|[]] eqn:Hres2.
  { rewrite (for_each_cons_fail _ _ _ _ _ Hres2). by apply Hflags. }
  rewrite (for_each_cons_ok _ _ _ _ Hres2). project_run.
  rewrite dispatch_flags_app. apply Forall_app. split; [by apply Hflags|constructor].
Qed.

(** ** The global model over a round *)

Lemma Forall_phase_not_aggregate n t :
  n ≠ 3 → Forall (λ e, phase e = n) t → Forall (λ e, phase e ≠ 3) t.
Proof.
  intros Hn Hphase. eapply Forall_impl; [exact Hphase|].
  intros e He. simpl in He. by rewrite He.
Qed.

Lemma prelude_not_aggregate com_round_id st :
  Forall (λ e, phase e ≠ 3) (prelude com_round_id st).
Proof.
  eapply Forall_impl; [apply prelude_phase|]. intros e He. simpl in He. lia.
Qed.

Lemma wandb_not_aggregate com_round_id st model :
  Forall (λ e, phase e ≠ 3) (round_wandb_events com_round_id st model).
Proof.
  unfold round_wandb_events, wandb_events.
  destruct (use_wandb config); by repeat constructor.
Qed.

Lemma round_outcome_model com_round_id st t st' res :
  round_outcome com_round_id st t st' res →
  (Forall (λ e, phase e ≠ 3) t ∧ net st' = net st)
  ∨ (∃ pre boosted post,
       t = pre ++ aggregate_event boosted :: post
       ∧ Forall (λ e, phase e ≠ 3) pre ∧ Forall (λ e, phase e ≠ 3) post
       ∧ net st' = match aggregate boosted with
                   | inr model => model
                   | inl _ => net st
                   end).
Proof.
  pose proof (prelude_not_aggregate com_round_id st) as Hprelude.
  destruct 1 as [?|t ledger e ? Hc|t ledger tables t_b e ? Hc Hb Hphase
                 |t ledger tables t_b boosted e ? Hc Hb Hphase Hfail
                 |t ledger tables t_b boosted model ? Hc Hb Hphase Hmodel
                 |t ledger tables t_b boosted model ? Hc Hb Hphase Hmodel].
  - left. by split.
  - left. split; [|done]. destruct Hc as (Hc & _).
    apply Forall_app. split; [done|]. by apply (Forall_phase_not_aggregate 2).
  - left. split; [|done]. destruct Hc as (Hc & _).
    rewrite !Forall_app, Forall_cons. split_and!; [done| |done|].
    + by apply (Forall_phase_not_aggregate 2).
    + by apply (Forall_phase_not_aggregate 0).
  - right. destruct Hc as (Hc & _).
    exists (prelude com_round_id st ++ t ++ EvSleep 0.5 :: t_b), boosted, [].
    split_and!.
    + by rewrite <-!app_assoc.
    + rewrite !Forall_app, Forall_cons. split_and!; [done| |done|].
      * by apply (Forall_phase_not_aggregate 2).
      * by apply (Forall_phase_not_aggregate 0).
    + constructor.
    + by rewrite Hfail.
  - right. destruct Hc as (Hc & _).
    exists (prelude com_round_id st ++ t ++ EvSleep 0.5 :: t_b), boosted,
      (diagnostic_events Client_get_client_hessian (selected com_round_id st)).
    split_and!.
    + by rewrite <-!app_assoc.
    + rewrite !Forall_app, Forall_cons. split_and!; [done| |done|].
      * by apply (Forall_phase_not_aggregate 2).
      * by apply (Forall_phase_not_aggregate 0).
    + by apply (Forall_phase_not_aggregate 0), diagnostic_events_phase.
    + by rewrite Hmodel.
  - right. destruct Hc as (Hc & _).
    exists (prelude com_round_id st ++ t ++ EvSleep 0.5 :: t_b), boosted,
      (diagnostic_events Client_get_client_hessian (selected com_round_id st)
       ++ diagnostic_events Client_get_client_regular_loss (selected com_round_id st)
       ++ round_wandb_events com_round_id st model).
    split_and!.
    + by rewrite <-!app_assoc.
    + rewrite !Forall_app, Forall_cons. split_and!; [done| |done|].
      * by apply (Forall_phase_not_aggregate 2).
      * by apply (Forall_phase_not_aggregate 0).
    + rewrite !Forall_app. split_and!.
      * by apply (Forall_phase_not_aggregate 0), diagnostic_events_phase.
      * by apply (Forall_phase_not_aggregate 0), diagnostic_events_phase.
      * apply wandb_not_aggregate.
    + by rewrite Hmodel.
Qed.

(** X10: the aggregation method is called at most once in a round, and
    the global model changes with that call only: when the call returns a
    model, that model is the global model at the end of the round, also
    when the round fails afterwards (a division by zero in the diagnostics
    does not restore the old model); when the call raises, or the round
    ends before it, the global model is the one the round started with. *)
Theorem global_model_follows_aggregation (com_round_id : Z) (st : Fed) :
  (∀ pre client_weights client_sizes beta post,
     trace_of (exec_round com_round_id st)
       = pre ++ EvAggregate client_weights client_sizes beta :: post →
     Forall (λ e, phase e ≠ 3) (pre ++ post)
     ∧ net (state_of (exec_round com_round_id st))
       = match aggregation_method W client_weights client_sizes beta with
         | inr model => model
         | inl _ => net st
         end)
  ∧ (Forall (λ e, phase e ≠ 3) (trace_of (exec_round com_round_id st)) →
     net (state_of (exec_round com_round_id st)) = net st).
Proof.
  destruct (round_outcome_model _ _ _ _ _ (exec_round_cases com_round_id st))
    as [[Hnone Hnet]|(pre0 & boosted & post0 & Ht & Hpre & Hpost & Hnet)].
  - split; [|done]. intros pre w s b post Ht. rewrite Ht in Hnone.
    rewrite Forall_app, Forall_cons in Hnone. by destruct Hnone as (_ & ? & _).
  - split.
    + intros pre w s b post Ht'. rewrite Ht in Ht'.
      destruct (unique_split (λ e, phase e = 3) _ _ _ _ _ _ Ht')
        as (<- & Hagg & <-); [done..|].
      split; [by apply Forall_app|].
      unfold aggregate_event in Hagg. injection Hagg as <- <- <-.
      exact Hnet.
    + intros Hnone. rewrite Ht in Hnone.
      rewrite Forall_app, Forall_cons in Hnone. by destruct Hnone as (_ & ? & _).
Qed.

(** ** What the collection puts into the tables and the ledger *)

(** What a training future holds once complete, with the learner it
    belongs to. *)
Definition outcome : Type := LocalClient * (exn + TrainResult).

Definition outcome_of (fut : Future) : outcome := (fut_client fut, fut_value fut).

(** The two assignments of [training_cb] to the result tables; the
    callback of a training that raised assigns nothing. *)
Definition add_entry (tables : Tables) (o : outcome) : Tables :=
  match o.2 with
  | inr value =>
      {| client_weights := <[name o.1 := weights value]> (client_weights tables);
         client_sizes :=
           <[name o.1 := get_client_datasize W (ref o.1)]> (client_sizes tables) |}
  | inl _ => tables
  end.

(** The record [training_cb] builds, and its append to the learner's
    stream. *)
Definition client_record (com_round_id num_epochs : Z) (value : TrainResult)
  : ClientRecord :=
  {| cr_round_id := com_round_id;
     cr_train_duration := train_duration value;
     cr_test_duration := test_duration value;
     cr_round_duration := round_duration value;
     cr_num_epochs := num_epochs;
     cr_trained_items := 0;
     cr_accuracy := accuracy value;
     cr_train_loss := train_loss value;
     cr_test_loss := test_loss value;
     cr_confusion_matrix := c_mat value |}.

Definition add_record (com_round_id num_epochs : Z)
    (ledger : gmap nat (list ClientRecord)) (o : outcome)
  : gmap nat (list ClientRecord) :=
  match o.2 with
  | inr value =>
      <[client_exp_data o.1 :=
          default [] (ledger !! client_exp_data o.1)
            ++ [client_record com_round_id num_epochs value]]> ledger
  | inl _ => ledger
  end.

(** The outcomes of the futures that are complete. *)
Definition completed (futures : list Future) : list outcome :=
  map outcome_of (List.filter fut_done futures).

(** The learner an event is addressed to. *)
Definition addressee (e : event) : option string :=
  match e with
  | EvMessage dest _ | EvMessageAsync dest _ | EvFutureDone dest => Some dest
  | _ => None
  end.

Definition addressed_within (refs : list string) (e : event) : Prop :=
  ∀ dest, addressee e = Some dest → dest ∈ refs.

(** An event of the collection: a training request, a completion, a
    data-size query or a poll, to a learner among [refs]. *)
Definition collecting (refs : list string) (e : event) : Prop :=
  phase e = 2 ∧ addressed_within refs e.

(** What the learner trains from and returns in a round. *)
Definition trained (com_round_id : Z) (held : gmap string params)
    (start_defense : bool) (client : LocalClient) : outcome :=
  (client,
   client_exec_round W com_round_id (ref client) (default [] (held !! ref client))
     (epochs config) start_defense).

Lemma completed_cons fut rest : completed (fut :: rest) = completed [fut] ++ completed rest.
Proof. unfold completed. simpl. by destruct (fut_done fut). Qed.

Lemma completed_app futures futures' :
  completed (futures ++ futures') = completed futures ++ completed futures'.
Proof. unfold completed. by rewrite List.filter_app, map_app. Qed.

Lemma set_ledger_id st : set_data_containers (data_containers st) st = st.
Proof. by destruct st. Qed.

Lemma on_completion_exact com_round_id num_epochs fut tables st :
  on_completion com_round_id num_epochs fut tables st =
    (callback_events fut,
     set_data_containers
       (add_record com_round_id num_epochs (data_containers st) (outcome_of fut)) st,
     inr (add_entry tables (outcome_of fut))).
Proof.
  unfold on_completion, training_cb, fut_wait, callback_events, succeeded,
    add_record, add_entry, outcome_of.
  simpl. destruct (fut_value fut) as [e|value]; [|reflexivity].
  simpl. by rewrite set_ledger_id.
Qed.

Lemma callback_events_collecting refs fut :
  future_ref fut ∈ refs → Forall (collecting refs) (callback_events fut).
Proof.
  intros Hin. unfold callback_events. destruct (succeeded fut); repeat constructor.
  by intros dest [= <-].
Qed.

Lemma message_async_exec_round_value com_round_id client start_defense st :
  ∃ fut,
    message_async_exec_round com_round_id client (epochs config) start_defense st =
      (EvMessageAsync (ref client) (Client_exec_round (epochs config) start_defense)
         :: (if fut_done fut then [EvFutureDone (ref client)] else []),
       st, inr fut)
    ∧ outcome_of fut = trained com_round_id (learner_net st) start_defense client.
Proof.
  unfold message_async_exec_round. munfold. simpl.
  destruct (future_delay W com_round_id (ref client)) as [[|d]|];
    match goal with |- ∃ fut, (_, _, inr ?f) = _ ∧ _ => by exists f end.
Qed.

Lemma dispatch_content com_round_id start_defense selected_clients refs
    tables training_futures st :
  map ref selected_clients ⊆ refs →
  ∃ t new,
    dispatch com_round_id (epochs config) start_defense selected_clients tables
             training_futures st
      = (t,
         set_data_containers
           (foldl (add_record com_round_id (epochs config)) (data_containers st)
                  (completed new)) st,
         inr (foldl add_entry tables (completed new), training_futures ++ new))
    ∧ map outcome_of new
        = map (trained com_round_id (learner_net st) start_defense) selected_clients
    ∧ Forall (collecting refs) t.
Proof.
  revert tables training_futures st.
  induction selected_clients as [|client rest IH]; intros tables futures st Hrefs.
  { exists [], []. rewrite app_nil_r. simpl. rewrite set_ledger_id.
    split_and!; [done|done|constructor]. }
  simpl.
  destruct (message_async_exec_round_value com_round_id client start_defense st)
    as (fut & Hsend & Hfut).
  rewrite (bind_ok _ _ _ _ _ _ Hsend).
  assert (Hclient : fut_client fut = client) by (by injection Hfut).
  assert (Hcb : cb_factory com_round_id (epochs config) fut tables st =
            ((if fut_done fut then callback_events fut else []),
             set_data_containers
               (foldl (add_record com_round_id (epochs config)) (data_containers st)
                      (completed [fut])) st,
             inr (foldl add_entry tables (completed [fut])))).
  { unfold cb_factory, completed. simpl. destruct (fut_done fut); simpl.
    - by rewrite on_completion_exact.
    - by rewrite set_ledger_id. }
  rewrite (bind_ok _ _ _ _ _ _ Hcb).
  assert (Hrest : map ref rest ⊆ refs).
  { intros dest Hdest. apply Hrefs. simpl. by right. }
  assert (Hin : ref client ∈ refs) by (apply Hrefs; simpl; by left).
  match goal with |- context [dispatch _ _ _ rest ?tb ?fs ?s] =>
    destruct (IH tb fs s Hrest) as (t & new & Hdispatch & Hnew & Haddr) end.
  rewrite Hdispatch. unfold trace_of, state_of, result_of. simpl.
  eexists _, (fut :: new). split_and!.
  - rewrite (completed_cons fut new), !foldl_app, <-app_assoc. simpl. reflexivity.
  - simpl. by rewrite Hfut, Hnew.
  - constructor; [by split; [|intros dest [= <-]]|].
    apply Forall_app. split; [|apply Forall_app; split; [|done]].
    + destruct (fut_done fut); repeat constructor. by intros dest [= <-].
    + destruct (fut_done fut); [|constructor].
      apply callback_events_collecting. unfold future_ref. by rewrite Hclient.
Qed.

Lemma advance_one_content com_round_id fut tables refs st :
  future_ref fut ∈ refs →
  ∃ t fut' newly,
    advance_one com_round_id (epochs config) fut tables st
      = (t,
         set_data_containers
           (foldl (add_record com_round_id (epochs config)) (data_containers st)
                  newly) st,
         inr (foldl add_entry tables newly, fut'))
    ∧ outcome_of fut' = outcome_of fut
    ∧ completed [fut'] = completed [fut] ++ newly
    ∧ Forall (collecting refs) t.
Proof.
  intros Hin. unfold advance_one, completed. simpl.
  destruct (fut_done fut) eqn:Hdone.
  { exists [], fut, []. rewrite Hdone. simpl. rewrite set_ledger_id.
    split_and!; [done..|constructor]. }
  destruct (fut_delay fut) as [[|[|d]]|] eqn:Hdelay.
  1,2: munfold; rewrite on_completion_exact; simpl;
    eexists _, _, [outcome_of fut]; split; [reflexivity|]; simpl;
    split_and!; [done|done|];
    (constructor; [by split; [|intros dest [= <-]]|]);
    rewrite app_nil_r; by apply callback_events_collecting.
  - eexists [], _, []. simpl. rewrite set_ledger_id.
    split_and!; [reflexivity|done|done|constructor].
  - exists [], fut, []. rewrite Hdone. simpl. rewrite set_ledger_id.
    split_and!; [done..|constructor].
Qed.

Lemma advance_content com_round_id training_futures tables refs st :
  map future_ref training_futures ⊆ refs →
  ∃ t futures' newly,
    advance com_round_id (epochs config) training_futures tables st
      = (t,
         set_data_containers
           (foldl (add_record com_round_id (epochs config)) (data_containers st)
                  newly) st,
         inr (foldl add_entry tables newly, futures'))
    ∧ map outcome_of futures' = map outcome_of training_futures
    ∧ completed futures' ≡ₚ completed training_futures ++ newly
    ∧ Forall (collecting refs) t.
Proof.
  revert tables st.
  induction training_futures as [|fut rest IH]; intros tables st Hrefs.
  { exists [], [], []. simpl. rewrite set_ledger_id.
    split_and!; [done..|constructor]. }
  simpl.
  assert (Hin : future_ref fut ∈ refs) by (apply Hrefs; simpl; by left).
  assert (Hrest : map future_ref rest ⊆ refs).
  { intros dest Hdest. apply Hrefs. simpl. by right. }
  destruct (advance_one_content com_round_id fut tables refs st Hin)
    as (t1 & fut' & newly1 & Hone & Hsame1 & Hdone1 & Haddr1).
  rewrite (bind_ok _ _ _ _ _ _ Hone). simpl.
  destruct (IH (foldl add_entry tables newly1)
              (set_data_containers
                 (foldl (add_record com_round_id (epochs config))
                        (data_containers st) newly1) st) Hrest)
    as (t2 & rest' & newly2 & Hadv & Hsame2 & Hdone2 & Haddr2).
  rewrite (bind_ok _ _ _ _ _ _ Hadv). munfold. simpl.
  exists (t1 ++ t2), (fut' :: rest'), (newly1 ++ newly2).
  rewrite app_nil_r, !foldl_app. split_and!.
  - done.
  - simpl. by rewrite Hsame1, Hsame2.
  - rewrite (completed_cons fut'), (completed_cons fut), Hdone1, Hdone2.
    rewrite <-!app_assoc. f_equiv. rewrite !app_assoc. f_equiv.
    apply Permutation_app_comm.
  - by apply Forall_app.
Qed.

Lemma all_futures_done_completed futures :
  all_futures_done futures = true → completed futures = map outcome_of futures.
Proof.
  unfold all_futures_done, completed.
  induction futures as [|fut rest IH]; [done|]. simpl.
  intros [-> Hrest]%andb_true_iff. simpl. by rewrite IH.
Qed.

Lemma wait_futures_content polls com_round_id training_futures tables refs st :
  map future_ref training_futures ⊆ refs →
  ∃ t newly res,
    wait_futures polls com_round_id (epochs config) training_futures tables st
      = (t,
         set_data_containers
           (foldl (add_record com_round_id (epochs config)) (data_containers st)
                  newly) st,
         res)
    ∧ completed training_futures ++ newly ⊆+ map outcome_of training_futures
    ∧ (∀ tables', res = inr tables' →
         tables' = foldl add_entry tables newly
         ∧ completed training_futures ++ newly ≡ₚ map outcome_of training_futures)
    ∧ Forall (collecting refs) t.
Proof.
  assert (Hsub : ∀ futures, completed futures ⊆+ map outcome_of futures).
  { intros futures. unfold completed. apply fmap_submseteq.
    induction futures as [|fut rest IH]; [done|]. simpl.
    destruct (fut_done fut); [by apply submseteq_skip|by apply submseteq_cons]. }
  revert training_futures tables st.
  induction polls as [|polls IH]; intros futures tables st Hrefs; simpl.
  - destruct (all_futures_done futures) eqn:Hall.
    + exists [], [], (inr tables). simpl. rewrite set_ledger_id, app_nil_r.
      split_and!; [done|done| |constructor].
      intros ? [= <-]. by rewrite all_futures_done_completed.
    + exists [], [], (inl Stalled). simpl. rewrite set_ledger_id, app_nil_r.
      split_and!; [done|done|done|constructor].
  - destruct (all_futures_done futures) eqn:Hall.
    + exists [], [], (inr tables). simpl. rewrite set_ledger_id, app_nil_r.
      split_and!; [done|done| |constructor].
      intros ? [= <-]. by rewrite all_futures_done_completed.
    + destruct (advance_content com_round_id futures tables refs st Hrefs)
        as (t1 & futures1 & newly1 & Hadv & Hsame1 & Hdone1 & Haddr1).
      assert (Hrefs1 : map future_ref futures1 ⊆ refs).
      { replace (map future_ref futures1) with (map future_ref futures); [done|].
        change future_ref with (λ fut, ref (outcome_of fut).1).
        by rewrite <-!(map_map outcome_of (λ o, ref o.1)), Hsame1. }
      destruct (IH futures1 (foldl add_entry tables newly1)
                  (set_data_containers
                     (foldl (add_record com_round_id (epochs config))
                            (data_containers st) newly1) st) Hrefs1)
        as (t2 & newly2 & res & Hwait & Hsub2 & Hres2 & Haddr2).
      exists (EvSleep 0.1 :: t1 ++ t2), (newly1 ++ newly2), res. split.
      { unfold time_sleep. erewrite bind_ok by done.
        rewrite (bind_ok _ _ _ _ _ _ Hadv). simpl. rewrite Hwait.
        unfold trace_of, state_of, result_of. simpl. by rewrite foldl_app. }
      split_and!.
      * rewrite app_assoc, <-Hdone1, <-Hsame1. done.
      * intros tables' Hres. destruct (Hres2 _ Hres) as [-> Hperm].
        split; [by rewrite foldl_app|].
        by rewrite app_assoc, <-Hdone1, <-Hsame1.
      * constructor; [by split|]. by apply Forall_app.
Qed.

(** ** A round as collection followed by its closing part *)

(** The part of [exec_round] that follows the wait for the futures. *)
Definition finish_round (com_round_id : Z) (start_time : float)
    (selected_clients : list LocalClient) (mal_this_round : Z) (tables : Tables)
  : M unit :=
  time_sleep 0.5;;
  tables ← malicious_boost selected_clients mal_this_round tables;
  updated_model ← call_aggregation tables;
  update_nn_parameters updated_model;;
  st ← get;
  let '(test_accuracy, test_loss, conf_mat) := test W (net st) in
  let '(mal_accuracy, mal_loss, mal_confidence) := mal_test W (net st) in
  end_time ← time_time;
  let duration := (end_time - start_time)%float in
  let record := {| num_selected_clients := length selected_clients;
                   round_id := com_round_id;
                   fr_round_duration := duration;
                   fr_test_loss := test_loss;
                   test_accuracy := test_accuracy;
                   mal_loss := mal_loss;
                   mal_accuracy := mal_accuracy;
                   mal_confidence := mal_confidence;
                   confusion_matrix := conf_mat |} in
  '(changed_percentage, changed_magnitude) ←
     client_aggregate_hessian com_round_id selected_clients;
  regular_loss ← client_aggregate_regular_loss com_round_id selected_clients;
  when (use_wandb config)
       (wandb_log_round com_round_id test_accuracy test_loss mal_this_round
          mal_accuracy mal_loss mal_confidence changed_percentage
          changed_magnitude regular_loss);;
  exp_data_append record;;
  when (config_defense_controller config) defense_controller.

Definition empty_tables : Tables := {| client_weights := ∅; client_sizes := ∅ |}.

(** What the selected learners return in a round: each trains from the
    parameters the round started with. *)
Definition round_outcomes (com_round_id : Z) (st : Fed) : list outcome :=
  map (trained com_round_id
         (broadcast_to (selected com_round_id st) (net st) (learner_net st))
         (defense_flag st))
      (selected com_round_id st).

Definition round_split (com_round_id : Z) (st : Fed) (t : list event) (st' : Fed)
    (res : exn + ()) : Prop :=
  ∃ t_c newly res_c,
    Forall (collecting (map ref (selected com_round_id st))) t_c
    ∧ newly ⊆+ round_outcomes com_round_id st
    ∧ (∀ tables, res_c = inr tables →
         tables = foldl add_entry empty_tables newly
         ∧ newly ≡ₚ round_outcomes com_round_id st)
    ∧ (Forall (λ client, ∃ d, future_delay W com_round_id (ref client) = Some d
                            ∧ d ≤ patience W)
              (selected com_round_id st)
       → ∃ tables, res_c = inr tables)
    ∧ (t, st', res)
      = match res_c with
        | inl e =>
            (prelude com_round_id st ++ t_c,
             collecting_state com_round_id st
               (foldl (add_record com_round_id (epochs config))
                      (data_containers st) newly),
             inl e)
        | inr tables =>
            let closing_run :=
              finish_round com_round_id (clock W (clock_reads st))
                (selected com_round_id st) (mal_count (selected com_round_id st))
                tables
                (collecting_state com_round_id st
                   (foldl (add_record com_round_id (epochs config))
                          (data_containers st) newly)) in
            (prelude com_round_id st ++ t_c ++ trace_of closing_run,
             state_of closing_run, result_of closing_run)
        end.

Lemma polls_within com_round_id polls (futures : list Future)
    (selected_clients : list LocalClient) :
  map polls_needed futures
    = map (λ client, future_delay W com_round_id (ref client)) selected_clients →
  Forall (λ client, ∃ d, future_delay W com_round_id (ref client) = Some d
                         ∧ d ≤ polls) selected_clients →
  Forall (λ fut, ∃ d, polls_needed fut = Some d ∧ d ≤ polls) futures.
Proof.
  revert selected_clients.
  induction futures as [|fut rest IH]; intros [|client others] Hneeds Hall;
    try done.
  apply Forall_cons in Hall as [(d & Hd & Hle) Hall].
  injection Hneeds as Hfut Hrest. constructor; [|by eapply IH].
  exists d. by rewrite Hfut.
Qed.

Lemma exec_round_split com_round_id st :
  clients_per_round config ≤ length (clients st) →
  wp (exec_round com_round_id) st (round_split com_round_id st).
Proof.
  intros Hsize. unfold exec_round.
  eapply wp_bind_ok; [reflexivity|]. cbv beta zeta.
  eapply wp_bind_ok; [reflexivity|].
  eapply wp_bind_ok; [by apply random_selection_ok|]. simpl.
  fold (selected com_round_id st). fold (drawn_after com_round_id st).
  set (sel := selected com_round_id st).
  eapply wp_bind_ok; [apply set_regular_schedule_eq|].
  eapply wp_bind_ok; [apply count_malicious_eq|].
  eapply wp_bind_ok; [apply map_m_status_eq|].
  eapply wp_bind_ok; [reflexivity|].
  eapply wp_bind_ok; [apply broadcast_eq|].
  match goal with |- wp (start_defense_flag ≫= _) ?s _ =>
    destruct (start_defense_flag_eq s) as (counter & Hflag & Hcounter) end.
  eapply wp_bind_ok; [exact Hflag|].
  simpl in Hcounter. subst counter. clear Hflag.
  wp_state (collecting_state com_round_id st (data_containers st)).
  match goal with |- context [defense_flag ?s] =>
    change (defense_flag s) with (defense_flag st) end.
  destruct (dispatch_content com_round_id (defense_flag st) sel (map ref sel)
              empty_tables []
              (collecting_state com_round_id st (data_containers st)))
    as (t_d & new & Hdispatch & Hnew & Haddr_d); [done|].
  assert (Hneeds : map polls_needed new
                   = map (λ client, future_delay W com_round_id (ref client)) sel).
  { destruct (dispatch_spec com_round_id (epochs config) (defense_flag st) sel
                empty_tables []
                (collecting_state com_round_id st (data_containers st)))
      as (t_d' & ledger' & tables' & new' & Hdispatch' & _ & _ & _ & _ & Hneeds').
    rewrite Hdispatch in Hdispatch'. by injection Hdispatch' as _ _ _ ->. }
  eapply wp_bind_ok; [exact Hdispatch|]. cbv beta iota. clear Hdispatch.
  simpl app.
  assert (Hrefs : map future_ref new ⊆ map ref sel).
  { replace (map future_ref new) with (map ref sel); [done|].
    change future_ref with (λ fut, ref (outcome_of fut).1).
    rewrite <-(map_map outcome_of (λ o, ref o.1)), Hnew, map_map. done. }
  match goal with |- wp (wait_futures ?p ?r ?e ?fs ?tb ≫= _) ?s _ =>
    destruct (wait_futures_content p r fs tb (map ref sel) s Hrefs)
      as (t_w & newly & res_w & Hwait & Hsub & Hres & Haddr_w);
    destruct (wait_futures_spec p r e fs tb s)
      as (t_w' & ledger' & res_w' & Hwait' & _ & _ & _ & Hlive')
  end.
  assert (Hlive : Forall (λ client, ∃ d, future_delay W com_round_id (ref client)
                                           = Some d ∧ d ≤ patience W) sel
                  → ∃ tables, res_w = inr tables).
  { rewrite Hwait in Hwait'. injection Hwait' as _ _ <-.
    intros Hall. apply Hlive'. by eapply polls_within. }
  clear Hwait' Hlive'.
  simpl in Hwait, Hnew. rewrite <-foldl_app in Hwait.
  change (set_data_containers ?l (set_data_containers _ ?s))
    with (set_data_containers l s) in Hwait.
  change (0 + Z.of_nat (length (List.filter flagged sel)))%Z
    with (mal_count sel) in *.
  assert (Hprelude : schedule_events com_round_id st ++ status_events sel
            ++ status_events sel
            ++ map (λ client, EvMessage (ref client)
                                (Client_update_nn_parameters (net st))) sel
            = prelude com_round_id st) by done.
  destruct res_w as [e|tables].
  - eapply wp_bind_fail; [exact Hwait|].
    exists (t_d ++ t_w), (completed new ++ newly), (inl e).
    split_and!; [by apply Forall_app|by rewrite Hsub, Hnew|done|exact Hlive|].
    f_equal. f_equal. rewrite <-Hprelude. simpl. by rewrite <-!app_assoc.
  - eapply wp_bind_ok; [exact Hwait|]. clear Hwait.
    eapply wp_run; [apply run_eta|].
    destruct (Hres _ eq_refl) as [-> Hperm].
    exists (t_d ++ t_w), (completed new ++ newly),
      (inr (foldl add_entry empty_tables (completed new ++ newly))).
    split_and!; [by apply Forall_app|by rewrite Hsub, Hnew| |by eauto|].
    + intros ? [= <-]. split; [done|]. by rewrite Hperm, Hnew.
    + rewrite !foldl_app. cbv zeta. rewrite <-Hprelude, <-!app_assoc.
      reflexivity.
Qed.

Lemma boost_loop_trace mal_name selected_clients mal_boost tables st :
  ∃ t res,
    boost_loop mal_name selected_clients mal_boost tables st = (t, st, res)
    ∧ Forall (λ e, e ∈ status_events selected_clients) t.
Proof.
  revert mal_boost tables.
  induction selected_clients as [|client rest IH]; intros mal_boost tables.
  { exists [], (inr tables). by split. }
  assert (Hlater : ∀ t, Forall (λ e, e ∈ status_events rest) t →
            Forall (λ e, e ∈ status_events (client :: rest))
                   (EvMessage (ref client) Client_get_client_status :: t)).
  { intros t Ht. constructor; [by left|].
    eapply Forall_impl; [exact Ht|]. intros e He. by right. }
  simpl. erewrite bind_ok by apply message_status_eq.
  destruct (get_client_status W (ref client)); simpl.
  - erewrite bind_ok by done. simpl.
    destruct (mal_boost =? 1)%Z.
    + eexists _, _. split; [reflexivity|]. by apply Hlater.
    + destruct (IH mal_boost tables) as (t & res & -> & Ht).
      eexists _, _. split; [reflexivity|]. by apply Hlater.
  - destruct (take_over_state mal_name client mal_boost tables st)
      as ([e|[tables' budget]] & Htake).
    + erewrite bind_fail by done.
      eexists _, _. split; [reflexivity|]. by apply Hlater.
    + rewrite (bind_ok _ _ _ _ _ _ Htake). simpl.
      destruct (budget =? 1)%Z.
      * eexists _, _. split; [reflexivity|]. by apply Hlater.
      * destruct (IH budget tables') as (t & res & -> & Ht).
        eexists _, _. split; [reflexivity|]. by apply Hlater.
Qed.

Lemma malicious_boost_trace selected_clients mal_this_round tables st :
  ∃ t res,
    malicious_boost selected_clients mal_this_round tables st = (t, st, res)
    ∧ Forall (λ e, e ∈ status_events selected_clients) t.
Proof.
  unfold malicious_boost.
  destruct ((1 <? mal_boost config)%Z && (0 <? mal_this_round)%Z).
  - rewrite (bind_ok _ _ _ _ _ _ (flagged_names_eq _ _ _)).
    destruct (boost_loop_trace ([] ++ map name (List.filter flagged selected_clients))
                selected_clients (mal_boost config) tables st)
      as (t & res & -> & Ht).
    eexists _, _. split; [reflexivity|].
    apply Forall_app. split; [|done]. by apply Forall_forall.
  - exists [], (inr tables). by split.
Qed.

Lemma status_events_addressed selected_clients t :
  Forall (λ e, e ∈ status_events selected_clients) t →
  Forall (addressed_within (map ref selected_clients)) t
  ∧ Forall (λ e, phase e ≠ 3) t.
Proof.
  intros Ht. split.
  - eapply Forall_impl; [exact Ht|]. intros e He dest Hdest.
    apply list_elem_of_fmap in He as (client & -> & Hclient).
    injection Hdest as <-. apply list_elem_of_fmap. eauto.
  - eapply Forall_impl; [exact Ht|]. intros e He.
    by apply list_elem_of_fmap in He as (client & -> & Hclient).
Qed.

Lemma diagnostic_events_addressed m selected_clients :
  Forall (addressed_within (map ref selected_clients))
         (diagnostic_events m selected_clients).
Proof.
  apply Forall_forall. intros e (events & He & Hevents)%elem_of_concat dest Hdest.
  apply list_elem_of_fmap in Hevents as (client & -> & Hclient).
  assert (dest = ref client) as ->.
  { apply elem_of_cons in He as [->|He]; [by injection Hdest|].
    destruct (flagged client); [by apply elem_of_nil in He|].
    apply list_elem_of_singleton in He as ->. by injection Hdest. }
  apply list_elem_of_fmap. eauto.
Qed.

Lemma wandb_log_eq com_round_id test_accuracy test_loss mal_this_round
    mal_accuracy mal_loss mal_confidence changed_percentage changed_magnitude
    regular_loss st :
  when (use_wandb config)
       (wandb_log_round com_round_id test_accuracy test_loss mal_this_round
          mal_accuracy mal_loss mal_confidence changed_percentage
          changed_magnitude regular_loss) st
    = ((if use_wandb config
        then wandb_events com_round_id test_accuracy test_loss mal_this_round
               mal_accuracy mal_loss mal_confidence changed_percentage
               changed_magnitude regular_loss
        else []), st, inr ()).
Proof. by destruct (use_wandb config). Qed.

Lemma wandb_events_quiet com_round_id test_accuracy test_loss mal_this_round
    mal_accuracy mal_loss mal_confidence changed_percentage changed_magnitude
    regular_loss refs :
  Forall (λ e, phase e ≠ 3 ∧ addressed_within refs e)
    (if use_wandb config
     then wandb_events com_round_id test_accuracy test_loss mal_this_round
            mal_accuracy mal_loss mal_confidence changed_percentage
            changed_magnitude regular_loss
     else []).
Proof. destruct (use_wandb config); by repeat constructor. Qed.

Lemma when_defense_controller_eq st :
  ∃ counter,
    when (config_defense_controller config) defense_controller st
      = ([], set_defense_controller_counter counter st, inr ()).
Proof.
  destruct (config_defense_controller config); simpl.
  - eexists. apply defense_controller_eq.
  - exists (defense_controller_counter st). by destruct st.
Qed.

(** What the closing part of a round leaves behind, given the events
    [t_boost] and the result [boosted] of the boost. *)
Definition finish_post (selected_clients : list LocalClient)
    (ledger : gmap nat (list ClientRecord)) (t_boost : list event)
    (boosted : exn + Tables) (t : list event) (st' : Fed) (res : exn + ())
  : Prop :=
  data_containers st' = ledger
  ∧ match boosted with
    | inl e => t = EvSleep 0.5 :: t_boost ∧ res = inl e
    | inr boosted =>
        ∃ rest,
          t = EvSleep 0.5 :: t_boost ++ aggregate_event boosted :: rest
          ∧ Forall (λ e, phase e ≠ 3) rest
          ∧ Forall (addressed_within (map ref selected_clients)) rest
    end.

Lemma finish_round_spec com_round_id start_time selected_clients mal_this_round
    tables st :
  ∃ t_boost boosted,
    malicious_boost selected_clients mal_this_round tables st = (t_boost, st, boosted)
    ∧ Forall (λ e, e ∈ status_events selected_clients) t_boost
    ∧ wp (finish_round com_round_id start_time selected_clients mal_this_round tables)
         st (finish_post selected_clients (data_containers st) t_boost boosted).
Proof.
  destruct (malicious_boost_trace selected_clients mal_this_round tables st)
    as (t_b & res_b & Hboost & Hstatus).
  exists t_b, res_b. split; [done|]. split; [done|].
  pose proof (diagnostic_events_addressed Client_get_client_hessian selected_clients)
    as Haddr_h.
  pose proof (diagnostic_events_addressed Client_get_client_regular_loss
                selected_clients) as Haddr_r.
  assert (Hphase_h : Forall (λ e, phase e ≠ 3)
            (diagnostic_events Client_get_client_hessian selected_clients))
    by (by apply (Forall_phase_not_aggregate 0), diagnostic_events_phase).
  assert (Hphase_r : Forall (λ e, phase e ≠ 3)
            (diagnostic_events Client_get_client_regular_loss selected_clients))
    by (by apply (Forall_phase_not_aggregate 0), diagnostic_events_phase).
  unfold finish_round.
  eapply wp_bind_ok; [reflexivity|].
  destruct res_b as [e|boosted].
  { eapply wp_bind_fail; [exact Hboost|]. by split. }
  eapply wp_bind_ok; [exact Hboost|].
  destruct (aggregate boosted) as [e|model] eqn:Hmodel.
  { eapply wp_bind_fail; [by rewrite call_aggregation_eq, Hmodel|].
    split; [done|]. exists []. by split_and!. }
  eapply wp_bind_ok; [by rewrite call_aggregation_eq, Hmodel|].
  eapply wp_bind_ok; [reflexivity|].
  eapply wp_bind_ok; [reflexivity|]. simpl.
  destruct (test W model) as [[test_accuracy test_loss] conf_mat].
  destruct (mal_test W model) as [[mal_accuracy mal_loss] mal_confidence].
  eapply wp_bind_ok; [reflexivity|]. simpl.
  destruct (benign_hessian com_round_id selected_clients) as [|entry entries]
    eqn:Hbenign.
  { eapply wp_bind_fail; [by rewrite client_aggregate_hessian_eq, Hbenign|].
    split; [done|]. eexists. split; [reflexivity|]. by split. }
  eapply wp_bind_ok; [by rewrite client_aggregate_hessian_eq, Hbenign|].
  destruct (length (List.filter benign selected_clients)) as [|n] eqn:Hn.
  { eapply wp_bind_fail; [by rewrite client_aggregate_regular_loss_eq, Hn|].
    split; [done|]. eexists. split; [reflexivity|].
    split; by apply Forall_app. }
  eapply wp_bind_ok; [by rewrite client_aggregate_regular_loss_eq, Hn|].
  eapply wp_bind_ok; [apply wandb_log_eq|].
  eapply wp_bind_ok; [reflexivity|].
  match goal with |- wp (when _ defense_controller) ?s _ =>
    destruct (when_defense_controller_eq s) as [counter Hlast] end.
  eapply wp_run; [exact Hlast|].
  match goal with |- context [if use_wandb config then ?ev else []] =>
    pose proof (wandb_events_quiet com_round_id test_accuracy test_loss
                  mal_this_round mal_accuracy mal_loss mal_confidence
                  (mean (entry :: entries).*1) (mean (entry :: entries).*2)
                  (foldl PrimFloat.add 0%float
                     (benign_regular_loss com_round_id selected_clients)
                   / float_of_nat (S n))%float
                  (map ref selected_clients)) as Hwandb end.
  split; [done|].
  eexists. split; [reflexivity|].
  rewrite !app_nil_r. split.
  - rewrite !Forall_app. split_and!; [done|done|].
    eapply Forall_impl; [exact Hwandb|]. by intros e [? _].
  - rewrite !Forall_app. split_and!; [done|done|].
    eapply Forall_impl; [exact Hwandb|]. by intros e [_ ?].
Qed.

Lemma broadcast_to_lookup selected_clients last_model held :
  (∀ client, client ∈ selected_clients →
     broadcast_to selected_clients last_model held !! ref client = Some last_model)
  ∧ (∀ key, key ∉ map ref selected_clients →
       broadcast_to selected_clients last_model held !! key = held !! key).
Proof.
  unfold broadcast_to. revert held.
  induction selected_clients as [|first rest IH]; intros held; simpl.
  { split; [by intros ? ?%elem_of_nil|done]. }
  destruct (IH (<[ref first := last_model]> held)) as [IHin IHout].
  split.
  - intros client [->|Hin]%elem_of_cons; [|by apply IHin].
    destruct (decide (ref first ∈ map ref rest)) as [Hlater|Hlater].
    + apply list_elem_of_fmap in Hlater as (other & Heq & Hother).
      specialize (IHin other Hother). by rewrite <-Heq in IHin.
    + by rewrite IHout, lookup_insert_eq.
  - intros key Hkey. rewrite not_elem_of_cons in Hkey. destruct Hkey as [Hne Hkey].
    by rewrite IHout, lookup_insert_ne.
Qed.

(** The learners of a round train from the parameters it started with. *)
Lemma round_outcomes_eq com_round_id st :
  round_outcomes com_round_id st
    = map (λ client,
             (client,
              client_exec_round W com_round_id (ref client) (net st) (epochs config)
                (defense_flag st)))
          (selected com_round_id st).
Proof.
  unfold round_outcomes, trained. apply map_ext_in. intros client Hin.
  destruct (broadcast_to_lookup (selected com_round_id st) (net st) (learner_net st))
    as [Hheld _].
  by rewrite Hheld by (by apply list_elem_of_In).
Qed.

Lemma take_over_indep mal_name client mal_boost tables st st' :
  result_of (take_over mal_name client mal_boost tables st)
    = result_of (take_over mal_name client mal_boost tables st').
Proof.
  unfold take_over, py_last, py_getitem. munfold.
  destruct (last mal_name) as [source|]; [|done].
  destruct (client_weights tables !! source); [|done].
  by destruct (client_sizes tables !! source).
Qed.

Lemma boost_loop_indep mal_name selected_clients mal_boost tables st st' :
  result_of (boost_loop mal_name selected_clients mal_boost tables st)
    = result_of (boost_loop mal_name selected_clients mal_boost tables st').
Proof.
  revert mal_boost tables.
  induction selected_clients as [|client rest IH]; intros mal_boost tables; [done|].
  simpl. rewrite !(bind_ok _ _ _ _ _ _ (message_status_eq _ _)).
  destruct (get_client_status W (ref client)); simpl.
  - rewrite !(bind_ok _ _ _ _ _ (tables, mal_boost) eq_refl). simpl.
    destruct (mal_boost =? 1)%Z; [done|]. apply IH.
  - pose proof (take_over_indep mal_name client mal_boost tables st st') as Hsame.
    destruct (take_over_state mal_name client mal_boost tables st) as [res Htake].
    destruct (take_over_state mal_name client mal_boost tables st') as [res' Htake'].
    rewrite Htake, Htake' in Hsame. unfold result_of in Hsame. simpl in Hsame.
    subst res'. destruct res as [e|[tables' budget]].
    + by rewrite (bind_fail _ _ _ _ _ _ Htake), (bind_fail _ _ _ _ _ _ Htake').
    + rewrite (bind_ok _ _ _ _ _ _ Htake), (bind_ok _ _ _ _ _ _ Htake'). simpl.
      destruct (budget =? 1)%Z; [done|]. apply IH.
Qed.

Lemma malicious_boost_indep selected_clients mal_this_round tables st st' :
  result_of (malicious_boost selected_clients mal_this_round tables st)
    = result_of (malicious_boost selected_clients mal_this_round tables st').
Proof.
  unfold malicious_boost. destruct (_ && _); [|done].
  rewrite !(bind_ok _ _ _ _ _ _ (flagged_names_eq _ _ _)). simpl.
  apply boost_loop_indep.
Qed.

(** A round whose selection succeeds, in terms of what the learners
    return: the collection, and then either a stall or the closing part. *)
Lemma exec_round_content com_round_id st :
  clients_per_round config ≤ length (clients st) →
  ∃ t_c newly,
    Forall (collecting (map ref (selected com_round_id st))) t_c
    ∧ newly ⊆+ round_outcomes com_round_id st
    ∧ data_containers (state_of (exec_round com_round_id st))
      = foldl (add_record com_round_id (epochs config)) (data_containers st) newly
    ∧ ((trace_of (exec_round com_round_id st) = prelude com_round_id st ++ t_c
        ∧ result_of (exec_round com_round_id st) ≠ inr ())
       ∨ (newly ≡ₚ round_outcomes com_round_id st
          ∧ ∃ t_boost boosted,
              result_of (malicious_boost (selected com_round_id st)
                           (mal_count (selected com_round_id st))
                           (foldl add_entry empty_tables newly) st) = boosted
              ∧ Forall (λ e, e ∈ status_events (selected com_round_id st)) t_boost
              ∧ match boosted with
                | inl e =>
                    trace_of (exec_round com_round_id st)
                      = prelude com_round_id st ++ t_c ++ EvSleep 0.5 :: t_boost
                    ∧ result_of (exec_round com_round_id st) = inl e
                | inr boosted =>
                    ∃ rest,
                      trace_of (exec_round com_round_id st)
                        = prelude com_round_id st ++ t_c ++ EvSleep 0.5 :: t_boost
                            ++ aggregate_event boosted :: rest
                      ∧ Forall (λ e, phase e ≠ 3) rest
                      ∧ Forall (addressed_within
                                  (map ref (selected com_round_id st))) rest
                end)).
Proof.
  intros Hsize.
  destruct (exec_round_split com_round_id st Hsize)
    as (t_c & newly & res_c & Hcoll & Hsub & Hres & _ & Hrun).
  exists t_c, newly. split; [done|]. split; [done|].
  destruct res_c as [e|tables].
  { injection Hrun as -> -> ->. split; [done|]. left. by split. }
  destruct (Hres _ eq_refl) as [-> Hperm]. cbv zeta in Hrun.
  match type of Hrun with context [finish_round ?r ?s ?l ?m ?tb ?s_w] =>
    destruct (finish_round_spec r s l m tb s_w)
      as (t_b & boosted & Hboost & Hstatus & Hledger & Hfinish);
    pose proof (malicious_boost_indep l m tb s_w st) as Hindep
  end.
  rewrite Hboost in Hindep. unfold result_of at 1 in Hindep. simpl in Hindep.
  injection Hrun as Ht Hst Hr. rewrite Hst. split; [exact Hledger|].
  right. split; [done|]. exists t_b, boosted. split; [done|]. split; [done|].
  rewrite Ht, Hr. destruct boosted as [e|boosted].
  - destruct Hfinish as [-> ->]. done.
  - destruct Hfinish as (rest & -> & Hphase & Haddr). by exists rest.
Qed.

Lemma add_entries_other tables (outcomes : list outcome) key :
  (∀ o : outcome, o ∈ outcomes → name o.1 = key → ∃ e, o.2 = inl e) →
  client_weights (foldl add_entry tables outcomes) !! key = client_weights tables !! key
  ∧ client_sizes (foldl add_entry tables outcomes) !! key = client_sizes tables !! key.
Proof.
  revert tables. induction outcomes as [|o rest IH]; intros tables Hkey; [done|].
  simpl. destruct (IH (add_entry tables o)) as [-> ->].
  { intros o' Ho'. apply Hkey. by right. }
  unfold add_entry. destruct (o.2) as [e|value] eqn:Ho; [done|]. simpl.
  destruct (decide (name o.1 = key)) as [Heq|Hne].
  - destruct (Hkey o) as [e He]; [by left|done|]. by rewrite Ho in He.
  - by rewrite !lookup_insert_ne.
Qed.

Lemma add_entries_lookup tables (outcomes : list outcome) client value :
  NoDup (map (λ o : outcome, name o.1) outcomes) →
  (client, inr value) ∈ outcomes →
  client_weights (foldl add_entry tables outcomes) !! name client = Some (weights value)
  ∧ client_sizes (foldl add_entry tables outcomes) !! name client
    = Some (get_client_datasize W (ref client)).
Proof.
  revert tables. induction outcomes as [|first rest IH]; intros tables Hnodup Hin.
  { by apply elem_of_nil in Hin. }
  simpl in *. apply NoDup_cons in Hnodup as [Hfirst Hnodup].
  apply elem_of_cons in Hin as [<-|Hin]; [|by apply IH].
  destruct (add_entries_other (add_entry tables (client, inr value)) rest (name client))
    as [-> ->].
  { intros o Ho Hname. destruct Hfirst. simpl. rewrite <-Hname.
    apply list_elem_of_fmap. by exists o. }
  unfold add_entry. simpl. by rewrite !lookup_insert_eq.
Qed.

(** An outcome that returned leaves an entry under the name of its
    learner, whatever came after it. *)
Lemma add_entries_held tables (outcomes : list outcome) client value :
  (client, inr value) ∈ outcomes →
  is_Some (client_weights (foldl add_entry tables outcomes) !! name client)
  ∧ is_Some (client_sizes (foldl add_entry tables outcomes) !! name client).
Proof.
  assert (Hkeep : ∀ (later : list outcome) tb key,
            is_Some (client_weights tb !! key) ∧ is_Some (client_sizes tb !! key) →
            is_Some (client_weights (foldl add_entry tb later) !! key)
            ∧ is_Some (client_sizes (foldl add_entry tb later) !! key)).
  { intros later. induction later as [|o later IH]; intros tb key Hheld; [done|].
    simpl. apply IH. unfold add_entry. destruct (o.2) as [e|v]; [done|]. simpl.
    destruct Hheld as [Hw Hz].
    destruct (decide (name o.1 = key)) as [->|Hne].
    - rewrite !lookup_insert_eq. eauto.
    - by rewrite !lookup_insert_ne. }
  revert tables. induction outcomes as [|first rest IH]; intros tables Hin.
  { by apply elem_of_nil in Hin. }
  simpl. apply elem_of_cons in Hin as [<-|Hin]; [|by apply IH].
  apply Hkeep. unfold add_entry. simpl. rewrite !lookup_insert_eq. eauto.
Qed.

(** The records a list of outcomes adds to the stream of the container at
    address [container]: one for each training that returned and whose
    learner holds that container. *)
Definition stream_records (com_round_id num_epochs : Z) (container : nat)
    (outcomes : list outcome) : list ClientRecord :=
  omap (λ o : outcome,
          match o.2 with
          | inr value =>
              if bool_decide (client_exp_data o.1 = container)
              then Some (client_record com_round_id num_epochs value) else None
          | inl _ => None
          end) outcomes.

Lemma add_records_stream com_round_id num_epochs ledger (outcomes : list outcome)
    container :
  default [] (foldl (add_record com_round_id num_epochs) ledger outcomes !! container)
    = default [] (ledger !! container)
      ++ stream_records com_round_id num_epochs container outcomes.
Proof.
  revert ledger. induction outcomes as [|o rest IH]; intros ledger; simpl.
  { by rewrite app_nil_r. }
  rewrite IH. unfold stream_records, add_record. cbn.
  destruct (o.2) as [e|value]; [done|].
  destruct (bool_decide_reflect (client_exp_data o.1 = container)) as [<-|Hne]; simpl.
  - rewrite lookup_insert_eq. simpl. by rewrite <-app_assoc.
  - by rewrite lookup_insert_ne.
Qed.

Lemma stream_records_unique com_round_id num_epochs (outcomes : list outcome)
    (o : outcome) :
  NoDup (map (λ o : outcome, client_exp_data o.1) outcomes) →
  o ∈ outcomes →
  stream_records com_round_id num_epochs (client_exp_data o.1) outcomes
    = match o.2 with
      | inr value => [client_record com_round_id num_epochs value]
      | inl _ => []
      end.
Proof.
  induction outcomes as [|first rest IH]; intros Hnodup Hin.
  { by apply elem_of_nil in Hin. }
  simpl in *. apply NoDup_cons in Hnodup as [Hfirst Hnodup].
  assert (Hnone : ∀ container,
            container ∉ map (λ o : outcome, client_exp_data o.1) rest →
            stream_records com_round_id num_epochs container rest = []).
  { intros container Hc. clear -Hc. induction rest as [|x rest IH]; [done|].
    simpl in *. rewrite not_elem_of_cons in Hc. destruct Hc as [Hne Hc].
    unfold stream_records in *. cbn. destruct (x.2); [by apply IH|].
    rewrite bool_decide_false by done. by apply IH. }
  unfold stream_records in *. cbn.
  apply elem_of_cons in Hin as [->|Hin].
  - rewrite Hnone by done. destruct (first.2); [done|].
    by rewrite bool_decide_true.
  - rewrite IH by done.
    assert (Hne : client_exp_data first.1 ≠ client_exp_data o.1).
    { intros Heq. apply Hfirst. rewrite Heq. apply list_elem_of_fmap. by exists o. }
    destruct (first.2); [done|]. by rewrite bool_decide_false.
Qed.

Lemma selection_fails_nothing com_round_id st :
  ¬ clients_per_round config ≤ length (clients st) →
  trace_of (exec_round com_round_id st) = []
  ∧ data_containers (state_of (exec_round com_round_id st)) = data_containers st.
Proof.
  intros Hsize. by destruct (exec_round_cases com_round_id st).
Qed.

Lemma collecting_not_aggregate refs t :
  Forall (collecting refs) t → Forall (λ e, phase e ≠ 3) t.
Proof.
  intros Ht. eapply Forall_impl; [exact Ht|]. intros e [He _]. by rewrite He.
Qed.

(** What the selected learners return in a round, written out. *)
Definition training_outcomes (com_round_id : Z) (st : Fed) : list outcome :=
  map (λ client,
         (client,
          client_exec_round W com_round_id (ref client) (net st) (epochs config)
            (defense_flag st)))
      (selected com_round_id st).

Lemma training_outcomes_eq com_round_id st :
  round_outcomes com_round_id st = training_outcomes com_round_id st.
Proof. apply round_outcomes_eq. Qed.

(** A round that calls the aggregation method has collected the outcome
    of every selected learner, and hands over the boosted tables. *)
Lemma round_aggregation_input com_round_id st pre post weights_in sizes_in beta :
  trace_of (exec_round com_round_id st)
    = pre ++ EvAggregate weights_in sizes_in beta :: post →
  ∃ newly,
    newly ≡ₚ training_outcomes com_round_id st
    ∧ result_of (malicious_boost (selected com_round_id st)
                   (mal_count (selected com_round_id st))
                   (foldl add_entry empty_tables newly) st)
      = inr {| client_weights := weights_in; client_sizes := sizes_in |}
    ∧ beta = (if bool_decide (aggregation config = "trmean")
              then Some (tm_beta config) else None).
Proof.
  intros Ht.
  destruct (decide (clients_per_round config ≤ length (clients st))) as [Hsize|Hsize].
  2: { destruct (selection_fails_nothing com_round_id st Hsize) as [Hnil _].
       rewrite Hnil in Ht. by destruct pre. }
  destruct (exec_round_content com_round_id st Hsize)
    as (t_c & newly & Hcoll & Hsub & _ & Hcases).
  apply collecting_not_aggregate in Hcoll.
  pose proof (prelude_not_aggregate com_round_id st) as Hprelude.
  assert (Hno : ∀ l : list event,
            Forall (λ e, phase e ≠ 3) l →
            l ≠ pre ++ EvAggregate weights_in sizes_in beta :: post).
  { intros l Hl ->. rewrite Forall_app, Forall_cons in Hl.
    by destruct Hl as (_ & ? & _). }
  destruct Hcases as [[Htrace _]|(Hperm & t_b & boosted & Hboost & Hstatus & Hrest)].
  { rewrite Htrace in Ht. exfalso. eapply Hno; [|exact Ht]. by apply Forall_app. }
  destruct (status_events_addressed _ _ Hstatus) as [_ Hphase_b].
  destruct boosted as [e|boosted].
  { destruct Hrest as [Htrace _]. rewrite Htrace in Ht. exfalso.
    eapply Hno; [|exact Ht].
    rewrite !Forall_app, Forall_cons. by split_and!. }
  destruct Hrest as (rest & Htrace & Hphase & _).
  assert (Hshape : prelude com_round_id st ++ t_c ++ EvSleep 0.5 :: t_b
                     ++ aggregate_event boosted :: rest
                   = (prelude com_round_id st ++ t_c ++ EvSleep 0.5 :: t_b)
                       ++ aggregate_event boosted :: rest)
    by (by rewrite <-!app_assoc).
  rewrite Htrace, Hshape in Ht.
  destruct (unique_split (λ e, phase e = 3) _ _ _ _ _ _ Ht)
    as (_ & Hagg & _); [done| |done|].
  { rewrite !Forall_app, Forall_cons. by split_and!. }
  unfold aggregate_event in Hagg. injection Hagg as <- <- <-.
  rewrite training_outcomes_eq in Hperm.
  exists newly. split_and!; [done|by destruct boosted|done].
Qed.

(** The collected tables, learner by learner, when no two selected
    learners share a name. *)
Lemma collected_tables_lookup com_round_id st newly :
  newly ≡ₚ training_outcomes com_round_id st →
  (∀ key,
     (∀ client, client ∈ selected com_round_id st → name client = key →
        ∃ e, client_exec_round W com_round_id (ref client) (net st) (epochs config)
               (defense_flag st) = inl e) →
     client_weights (foldl add_entry empty_tables newly) !! key = None
     ∧ client_sizes (foldl add_entry empty_tables newly) !! key = None)
  ∧ (NoDup (map name (selected com_round_id st)) →
     ∀ client value, client ∈ selected com_round_id st →
       client_exec_round W com_round_id (ref client) (net st) (epochs config)
         (defense_flag st) = inr value →
       client_weights (foldl add_entry empty_tables newly) !! name client
         = Some (weights value)
       ∧ client_sizes (foldl add_entry empty_tables newly) !! name client
         = Some (get_client_datasize W (ref client))).
Proof.
  intros Hperm. split.
  - intros key Hkey.
    destruct (add_entries_other empty_tables newly key) as [-> ->]; [|done].
    intros o Ho Hname. rewrite Hperm in Ho.
    apply list_elem_of_fmap in Ho as (client & -> & Hclient). simpl in *.
    by apply Hkey.
  - intros Hnodup client value Hclient Hvalue.
    apply (add_entries_lookup empty_tables newly client value).
    + unfold training_outcomes in Hperm. rewrite Hperm, map_map. done.
    + rewrite Hperm. apply list_elem_of_fmap. exists client. by rewrite Hvalue.
Qed.


(** X11: what the aggregation method is given.  In a round that calls
    it, the future of every selected learner has completed; each learner
    trained from the parameters the round started with, under the flag of
    the round.  The tables hold, under the name of a learner whose training
    returned, the weights it returned and the data size the learner
    reported in the callback; a training that raised leaves no entry, and
    the round goes on without it.  The boost is applied to these tables and
    its result is what the aggregation method receives, with [tm_beta] as
    third argument exactly for [trmean]. *)
Theorem aggregation_reads_training_results (com_round_id : Z) (st : Fed)
    (pre post : list event) (weights_in : gmap string params)
    (sizes_in : gmap string Z) (beta : option float) :
  trace_of (exec_round com_round_id st)
    = pre ++ EvAggregate weights_in sizes_in beta :: post →
  ∃ newly,
    newly ≡ₚ map (λ client,
                (client,
                 client_exec_round W com_round_id (ref client) (net st)
                   (epochs config) (defense_flag st)))
             (selected com_round_id st)
    ∧ result_of (malicious_boost (selected com_round_id st)
                   (mal_count (selected com_round_id st))
                   (foldl add_entry empty_tables newly) st)
      = inr {| client_weights := weights_in; client_sizes := sizes_in |}
    ∧ beta = (if bool_decide (aggregation config = "trmean")
              then Some (tm_beta config) else None)
    ∧ (∀ key,
         (∀ client, client ∈ selected com_round_id st → name client = key →
            ∃ e, client_exec_round W com_round_id (ref client) (net st)
                   (epochs config) (defense_flag st) = inl e) →
         client_weights (foldl add_entry empty_tables newly) !! key = None
         ∧ client_sizes (foldl add_entry empty_tables newly) !! key = None)
    ∧ (NoDup (map name (selected com_round_id st)) →
       ∀ client value, client ∈ selected com_round_id st →
         client_exec_round W com_round_id (ref client) (net st) (epochs config)
           (defense_flag st) = inr value →
         client_weights (foldl add_entry empty_tables newly) !! name client
           = Some (weights value)
         ∧ client_sizes (foldl add_entry empty_tables newly) !! name client
           = Some (get_client_datasize W (ref client))).
Proof.
  intros Ht.
  destruct (round_aggregation_input _ _ _ _ _ _ _ Ht)
    as (newly & Hperm & Hboost & Hbeta).
  destruct (collected_tables_lookup com_round_id st newly Hperm) as [Hnone Hsome].
  exists newly. by split_and!.
Qed.

(** X12: what a round writes to the record streams of the learners.  A
    stream only grows: the round appends to the stream of a container one
    record for each selected learner that holds the container and whose
    training returned before the round ended, and touches nothing else;
    the record holds the round index, the number of epochs, 0 trained
    items and what the training returned.  In a round that completes every
    future has completed: a selected learner whose training returned has
    one new record, and one whose training raised has none. *)
Theorem round_appends_client_records (com_round_id : Z) (st : Fed) :
  ∃ newly,
    newly ⊆+ map (λ client,
                (client,
                 client_exec_round W com_round_id (ref client) (net st)
                   (epochs config) (defense_flag st)))
             (selected com_round_id st)
    ∧ (∀ container,
         default [] (data_containers (state_of (exec_round com_round_id st))
                       !! container)
           = default [] (data_containers st !! container)
             ++ stream_records com_round_id (epochs config) container newly)
    ∧ (result_of (exec_round com_round_id st) = inr () →
       newly ≡ₚ map (λ client,
                   (client,
                    client_exec_round W com_round_id (ref client) (net st)
                      (epochs config) (defense_flag st)))
                (selected com_round_id st))
    ∧ (result_of (exec_round com_round_id st) = inr () →
       NoDup (map client_exp_data (selected com_round_id st)) →
       ∀ client, client ∈ selected com_round_id st →
         default [] (data_containers (state_of (exec_round com_round_id st))
                       !! client_exp_data client)
           = default [] (data_containers st !! client_exp_data client)
             ++ match client_exec_round W com_round_id (ref client) (net st)
                        (epochs config) (defense_flag st) with
                | inr value => [client_record com_round_id (epochs config) value]
                | inl _ => []
                end).
Proof.
  destruct (decide (clients_per_round config ≤ length (clients st))) as [Hsize|Hsize].
  2: { destruct (selection_fails_nothing com_round_id st Hsize) as [_ Hledger].
       assert (Hfail : result_of (exec_round com_round_id st) ≠ inr ())
         by (by destruct (exec_round_cases com_round_id st)).
       exists []. split_and!; [apply submseteq_nil_l| |done|done].
       intros container. rewrite Hledger. simpl. by rewrite app_nil_r. }
  destruct (exec_round_content com_round_id st Hsize)
    as (t_c & newly & _ & Hsub & Hledger & Hcases).
  rewrite training_outcomes_eq in Hsub, Hcases. unfold training_outcomes in *.
  assert (Hperm : result_of (exec_round com_round_id st) = inr () →
            newly ≡ₚ map (λ client,
                        (client,
                         client_exec_round W com_round_id (ref client) (net st)
                           (epochs config) (defense_flag st)))
                     (selected com_round_id st)).
  { intros Hres. by destruct Hcases as [[_ Hfail]|[Hperm _]]. }
  exists newly. split_and!; [done| |done|].
  - intros container. rewrite Hledger. apply add_records_stream.
  - intros Hres Hnodup client Hclient. specialize (Hperm Hres).
    rewrite Hledger, add_records_stream. f_equal.
    apply (stream_records_unique com_round_id (epochs config) newly
             (client, client_exec_round W com_round_id (ref client) (net st)
                        (epochs config) (defense_flag st))).
    + rewrite Hperm, map_map. done.
    + rewrite Hperm. apply list_elem_of_fmap. by exists client.
Qed.

Lemma prelude_addressed com_round_id st :
  Forall (addressed_within (map ref (selected com_round_id st)))
         (status_events (selected com_round_id st)
            ++ status_events (selected com_round_id st)
            ++ broadcast_events (selected com_round_id st) (net st)).
Proof.
  assert (Hmap : ∀ m,
            Forall (addressed_within (map ref (selected com_round_id st)))
                   (map (λ client, EvMessage (ref client) m)
                        (selected com_round_id st))).
  { intros m. apply Forall_forall.
    intros e (client & -> & Hclient)%list_elem_of_fmap dest [= <-].
    apply list_elem_of_fmap. eauto. }
  rewrite !Forall_app. split_and!; apply Hmap.
Qed.

(** X13: a round contacts no learner outside its selection, with one
    exception: in a round whose index is a multiple of 100, and with the
    regular schedule configured, every registered learner is first sent
    the schedule.  Every other message, training request and completion of
    the round belongs to a selected learner. *)
Theorem round_contacts_selected_only (com_round_id : Z) (st : Fed) :
  ∃ rest,
    Forall (addressed_within (map ref (selected com_round_id st))) rest
    ∧ (trace_of (exec_round com_round_id st) = rest
       ∨ (trace_of (exec_round com_round_id st)
            = map (λ client,
                     EvMessage (ref client)
                       (Client_set_client_regular_schedule com_round_id))
                  (clients st)
              ++ rest
          ∧ regular_schedule config = true
          ∧ (com_round_id mod 100 = 0)%Z)).
Proof.
  destruct (decide (clients_per_round config ≤ length (clients st))) as [Hsize|Hsize].
  2: { destruct (selection_fails_nothing com_round_id st Hsize) as [-> _].
       exists []. split; [constructor|by left]. }
  destruct (exec_round_content com_round_id st Hsize)
    as (t_c & newly & Hcoll & _ & _ & Hcases).
  assert (Haddr_c : Forall (addressed_within (map ref (selected com_round_id st))) t_c).
  { eapply Forall_impl; [exact Hcoll|]. by intros e [_ ?]. }
  pose proof (prelude_addressed com_round_id st) as Hprelude.
  assert (Hshape : ∀ tail,
            Forall (addressed_within (map ref (selected com_round_id st))) tail →
            trace_of (exec_round com_round_id st) = prelude com_round_id st ++ tail →
            ∃ rest,
              Forall (addressed_within (map ref (selected com_round_id st))) rest
              ∧ (trace_of (exec_round com_round_id st) = rest
                 ∨ (trace_of (exec_round com_round_id st)
                      = map (λ client,
                               EvMessage (ref client)
                                 (Client_set_client_regular_schedule com_round_id))
                            (clients st)
                        ++ rest
                    ∧ regular_schedule config = true
                    ∧ (com_round_id mod 100 = 0)%Z))).
  { intros tail Htail ->. unfold prelude, schedule_events.
    exists ((status_events (selected com_round_id st)
             ++ status_events (selected com_round_id st)
             ++ broadcast_events (selected com_round_id st) (net st)) ++ tail).
    split; [by apply Forall_app|].
    destruct (regular_schedule config && (com_round_id mod 100 =? 0)%Z) eqn:Hif.
    - right. apply andb_true_iff in Hif as [Hreg Hmod%Z.eqb_eq].
      split; [by rewrite <-!app_assoc|done].
    - left. simpl. by rewrite <-!app_assoc. }
  destruct Hcases as [[Htrace _]|(_ & t_b & boosted & _ & Hstatus & Hrest)].
  { by apply (Hshape t_c). }
  destruct (status_events_addressed _ _ Hstatus) as [Haddr_b _].
  destruct boosted as [e|boosted].
  - destruct Hrest as [Htrace _]. apply (Hshape (t_c ++ EvSleep 0.5 :: t_b)); [|done].
    apply Forall_app. split; [done|]. by constructor.
  - destruct Hrest as (rest & Htrace & _ & Haddr).
    apply (Hshape (t_c ++ EvSleep 0.5 :: t_b ++ aggregate_event boosted :: rest));
      [|done].
    apply Forall_app. split; [done|]. constructor; [done|].
    apply Forall_app. split; [done|]. by constructor.
Qed.

(** ** Logging *)

(** The metrics and the step of a [wandb.log] call. *)
Definition wandb_entry (e : event) : option (list (string * scalar) * Z) :=
  match e with
  | EvWandb metrics step => Some (metrics, step)
  | _ => None
  end.

Definition logged (t : list event) : list (list (string * scalar) * Z) :=
  omap wandb_entry t.

Lemma logged_app t1 t2 : logged (t1 ++ t2) = logged t1 ++ logged t2.
Proof. apply omap_app. Qed.

Lemma logged_none t : Forall (λ e, wandb_entry e = None) t → logged t = [].
Proof.
  unfold logged. induction 1 as [|e t He _ IH]; [done|]. cbn. by rewrite He, IH.
Qed.

Lemma messages_unlogged {A} (f : A → string) (m : A → method) (l : list A) :
  Forall (λ e, wandb_entry e = None) (map (λ x, EvMessage (f x) (m x)) l).
Proof. by apply Forall_map, Forall_true. Qed.

Lemma prelude_unlogged com_round_id st :
  Forall (λ e, wandb_entry e = None) (prelude com_round_id st).
Proof.
  unfold prelude, schedule_events, status_events, broadcast_events.
  rewrite !Forall_app. split_and!.
  - destruct (_ && _); [|done]. by apply Forall_map, Forall_true.
  - by apply Forall_map, Forall_true.
  - by apply Forall_map, Forall_true.
  - by apply Forall_map, Forall_true.
Qed.

Lemma collecting_unlogged refs t :
  Forall (collecting refs) t → Forall (λ e, wandb_entry e = None) t.
Proof.
  intros Ht. eapply Forall_impl; [exact Ht|]. intros e [He _].
  by destruct e.
Qed.

Lemma status_unlogged selected_clients t :
  Forall (λ e, e ∈ status_events selected_clients) t →
  Forall (λ e, wandb_entry e = None) t.
Proof.
  intros Ht. eapply Forall_impl; [exact Ht|]. intros e He.
  by apply list_elem_of_fmap in He as (client & -> & _).
Qed.

Lemma diagnostic_unlogged m selected_clients :
  Forall (λ e, wandb_entry e = None) (diagnostic_events m selected_clients).
Proof.
  apply Forall_forall. intros e (events & He & Hevents)%elem_of_concat.
  apply list_elem_of_fmap in Hevents as (client & -> & _).
  apply elem_of_cons in He as [->|He]; [done|].
  destruct (flagged client); [by apply elem_of_nil in He|].
  by apply list_elem_of_singleton in He as ->.
Qed.

Lemma round_outcome_tail com_round_id st t st' res pre boosted rest :
  round_outcome com_round_id st t st' res →
  t = pre ++ aggregate_event boosted :: rest →
  Forall (λ e, phase e ≠ 3) pre →
  (res = inr ()
   ∧ ∃ queries,
       rest = queries ++ round_wandb_events com_round_id st (net st')
       ∧ Forall (λ e, wandb_entry e = None) queries)
  ∨ (res ≠ inr () ∧ Forall (λ e, wandb_entry e = None) rest).
Proof.
  intros Hout Ht Hpre.
  assert (Hno : ∀ l : list event,
            Forall (λ e, phase e ≠ 3) l → l ≠ pre ++ aggregate_event boosted :: rest).
  { intros l Hl ->. rewrite Forall_app, Forall_cons in Hl.
    by destruct Hl as (_ & ? & _). }
  pose proof (prelude_not_aggregate com_round_id st) as Hprelude.
  destruct Hout as [?|t ledger e ? Hc|t ledger tables t_b e ? Hc Hb Hphase
                    |t ledger tables t_b boosted' e ? Hc Hb Hphase Hfail
                    |t ledger tables t_b boosted' model ? Hc Hb Hphase Hmodel
                    |t ledger tables t_b boosted' model ? Hc Hb Hphase Hmodel].
  - by destruct pre.
  - exfalso. eapply Hno; [|exact Ht]. destruct Hc as (Hc & _).
    apply Forall_app. split; [done|]. by apply (Forall_phase_not_aggregate 2).
  - exfalso. eapply Hno; [|exact Ht]. destruct Hc as (Hc & _).
    rewrite !Forall_app, Forall_cons. split_and!; [done| |done|].
    + by apply (Forall_phase_not_aggregate 2).
    + by apply (Forall_phase_not_aggregate 0).
  - right. split; [done|]. destruct Hc as (Hc & _).
    assert (Hshape : prelude com_round_id st ++ t ++ EvSleep 0.5 :: t_b
                       ++ [aggregate_event boosted']
                     = (prelude com_round_id st ++ t ++ EvSleep 0.5 :: t_b)
                         ++ aggregate_event boosted' :: [])
      by (by rewrite <-!app_assoc).
    rewrite Hshape in Ht.
    destruct (unique_split (λ e, phase e = 3) _ _ _ _ _ _ Ht)
      as (_ & _ & ->); [done| |done|constructor].
    rewrite !Forall_app, Forall_cons. split_and!; [done| |done|].
    + eapply Forall_impl; [exact Hc|]. intros e0 He0. simpl in He0. by rewrite He0.
    + eapply Forall_impl; [exact Hphase|]. intros e0 He0. simpl in He0. by rewrite He0.
  - right. split; [done|]. destruct Hc as (Hc & _).
    assert (Hshape : prelude com_round_id st ++ t ++ EvSleep 0.5 :: t_b
                       ++ aggregate_event boosted'
                       :: diagnostic_events Client_get_client_hessian
                            (selected com_round_id st)
                     = (prelude com_round_id st ++ t ++ EvSleep 0.5 :: t_b)
                         ++ aggregate_event boosted'
                         :: diagnostic_events Client_get_client_hessian
                              (selected com_round_id st))
      by (by rewrite <-!app_assoc).
    rewrite Hshape in Ht.
    destruct (unique_split (λ e, phase e = 3) _ _ _ _ _ _ Ht)
      as (_ & _ & ->); [done| | |apply diagnostic_unlogged].
    + rewrite !Forall_app, Forall_cons. split_and!; [done| |done|].
      * eapply Forall_impl; [exact Hc|]. intros e0 He0. simpl in He0. by rewrite He0.
      * eapply Forall_impl; [exact Hphase|]. intros e0 He0. simpl in He0.
        by rewrite He0.
    + eapply Forall_impl; [by apply (diagnostic_events_phase Client_get_client_hessian)|].
      intros e0 He0. simpl in He0. by rewrite He0.
  - left. split; [done|]. destruct Hc as (Hc & _).
    assert (Hshape : prelude com_round_id st ++ t ++ EvSleep 0.5 :: t_b
                       ++ aggregate_event boosted'
                       :: diagnostic_events Client_get_client_hessian
                            (selected com_round_id st)
                       ++ diagnostic_events Client_get_client_regular_loss
                            (selected com_round_id st)
                       ++ round_wandb_events com_round_id st model
                     = (prelude com_round_id st ++ t ++ EvSleep 0.5 :: t_b)
                         ++ aggregate_event boosted'
                         :: (diagnostic_events Client_get_client_hessian
                               (selected com_round_id st)
                             ++ diagnostic_events Client_get_client_regular_loss
                                  (selected com_round_id st))
                         ++ round_wandb_events com_round_id st model)
      by (by rewrite <-!app_assoc).
    rewrite Hshape in Ht.
    destruct (unique_split (λ e, phase e = 3) _ _ _ _ _ _ Ht)
      as (_ & _ & ->); [done| | |].
    + rewrite !Forall_app, Forall_cons. split_and!; [done| |done|].
      * eapply Forall_impl; [exact Hc|]. intros e0 He0. simpl in He0. by rewrite He0.
      * eapply Forall_impl; [exact Hphase|]. intros e0 He0. simpl in He0.
        by rewrite He0.
    + rewrite !Forall_app. split_and!.
      * eapply Forall_impl;
          [by apply (diagnostic_events_phase Client_get_client_hessian)|].
        intros e0 He0. simpl in He0. by rewrite He0.
      * eapply Forall_impl;
          [by apply (diagnostic_events_phase Client_get_client_regular_loss)|].
        intros e0 He0. simpl in He0. by rewrite He0.
      * eapply Forall_impl; [apply wandb_not_aggregate|].
        intros e0 He0. simpl in He0. done.
    + eexists. split; [reflexivity|].
      apply Forall_app. split; apply diagnostic_unlogged.
Qed.

(** X14: what a round logs.  A round that does not complete logs
    nothing.  A round that completes logs nothing before its last
    diagnostic query has been answered, and then, when [use_wandb] is set,
    makes five log calls, all at the step of the round index: the clean
    accuracy and loss with the number of flagged selected learners, the
    adversarial accuracy, loss and confidence, the round index, the two
    drift means, and the mean regular loss of the benign learners. *)
Theorem round_logs_when_complete (com_round_id : Z) (st : Fed) :
  (result_of (exec_round com_round_id st) ≠ inr () →
   logged (trace_of (exec_round com_round_id st)) = [])
  ∧ (result_of (exec_round com_round_id st) = inr () →
     ∃ before,
       logged before = []
       ∧ trace_of (exec_round com_round_id st)
         = before
           ++ (if use_wandb config then
                 let model := net (state_of (exec_round com_round_id st)) in
                 let selected_clients := selected com_round_id st in
                 [EvWandb [("Federator/Accuracy", SFloat (test W model).1.1);
                           ("Federator/Loss", SFloat (test W model).1.2);
                           ("Federator/Malicious number this round",
                            SInt (mal_count selected_clients))] com_round_id;
                  EvWandb [("Malicious/Accuracy", SFloat (mal_test W model).1.1);
                           ("Malicious/Loss", SFloat (mal_test W model).1.2);
                           ("Malicious/Confidence", SFloat (mal_test W model).2)]
                          com_round_id;
                  EvWandb [("round", SInt com_round_id)] com_round_id;
                  EvWandb [("Federator/Changed percentage",
                            SFloat (mean (benign_hessian com_round_id
                                            selected_clients).*1));
                           ("Federator/Changed magnitude",
                            SFloat (mean (benign_hessian com_round_id
                                            selected_clients).*2))] com_round_id;
                  EvWandb [("Federator/Regular loss",
                            SFloat (fsum (benign_regular_loss com_round_id
                                            selected_clients)
                                    / float_of_nat
                                        (length (List.filter benign
                                                   selected_clients))))]
                          com_round_id]
               else [])).
Proof.
  destruct (decide (clients_per_round config ≤ length (clients st))) as [Hsize|Hsize].
  2: { destruct (selection_fails_nothing com_round_id st Hsize) as [Hnil _].
       rewrite Hnil. split; [done|].
       by destruct (exec_round_cases com_round_id st). }
  destruct (exec_round_content com_round_id st Hsize)
    as (t_c & newly & Hcoll & _ & _ & Hcases).
  pose proof (logged_none _ (prelude_unlogged com_round_id st)) as Hprelude.
  pose proof (logged_none _ (collecting_unlogged _ _ Hcoll)) as Hquiet_c.
  destruct Hcases as [[Htrace Hfail]|(_ & t_b & boosted & _ & Hstatus & Hrest)].
  { split; [|done]. intros _. by rewrite Htrace, logged_app, Hprelude, Hquiet_c. }
  pose proof (logged_none _ (status_unlogged _ _ Hstatus)) as Hquiet_b.
  destruct (status_events_addressed _ _ Hstatus) as [_ Hphase_b].
  destruct boosted as [e|boosted].
  { destruct Hrest as [Htrace Hres]. rewrite Hres. split; [|done]. intros _.
    rewrite Htrace, !logged_app, Hprelude, Hquiet_c.
    change (logged (EvSleep 0.5 :: t_b)) with (logged t_b). by rewrite Hquiet_b. }
  destruct Hrest as (rest & Htrace & _ & _).
  assert (Hbefore : logged (prelude com_round_id st ++ t_c ++ EvSleep 0.5 :: t_b) = []).
  { rewrite !logged_app, Hprelude, Hquiet_c.
    change (logged (EvSleep 0.5 :: t_b)) with (logged t_b). by rewrite Hquiet_b. }
  assert (Hshape : trace_of (exec_round com_round_id st)
                   = (prelude com_round_id st ++ t_c ++ EvSleep 0.5 :: t_b)
                       ++ aggregate_event boosted :: rest)
    by (by rewrite Htrace, <-!app_assoc).
  destruct (round_outcome_tail _ _ _ _ _ _ _ _ (exec_round_cases com_round_id st) Hshape)
    as [(Hres & queries & -> & Hqueries)|(Hres & Hquiet)].
  { rewrite !Forall_app, Forall_cons. split_and!;
      [apply prelude_not_aggregate|exact (collecting_not_aggregate _ _ Hcoll)|done|done]. }
  - split; [done|]. intros _.
    exists ((prelude com_round_id st ++ t_c ++ EvSleep 0.5 :: t_b)
            ++ aggregate_event boosted :: queries).
    split.
    + rewrite logged_app, Hbefore.
      change (logged (aggregate_event boosted :: queries)) with (logged queries).
      by apply logged_none.
    + rewrite Hshape.
      rewrite <-(app_assoc (prelude com_round_id st ++ t_c ++ EvSleep 0.5 :: t_b)
                   (aggregate_event boosted :: queries)).
      reflexivity.
  - split; [|done]. intros _.
    rewrite Hshape, logged_app, Hbefore.
    change (logged (aggregate_event boosted :: rest)) with (logged rest).
    by apply logged_none.
Qed.

(** ** When a round and an experiment return *)

Lemma clients_ready_loop_returns polls pass k st :
  k ≤ polls → all_ready (pass + k) st = true →
  result_of (clients_ready_loop polls pass st) = inr ().
Proof.
  revert pass k. induction polls as [|polls IH]; intros pass k Hk Hready; simpl.
  all: erewrite bind_ok by done; simpl.
  all: rewrite (bind_ok _ _ _ _ _ _ (is_ready_responses _ _ _)).
  all: erewrite bind_ok by done; simpl.
  all: rewrite forallb_id_map; fold (all_ready pass st).
  - assert (k = 0) as -> by lia. rewrite Nat.add_0_r in Hready. by rewrite Hready.
  - destruct (all_ready pass st) eqn:Hnow; [done|].
    destruct k as [|k]; [by rewrite Nat.add_0_r, Hnow in Hready|].
    unfold result_of in *. simpl.
    apply (IH (S pass) k); [lia|]. by replace (S pass + k) with (pass + S k) by lia.
Qed.

(** The boost returns when the training of every flagged selected
    learner has returned: the entry it copies is there. *)
Lemma malicious_boost_returns com_round_id st newly st0 :
  newly ≡ₚ training_outcomes com_round_id st →
  (∀ client, client ∈ selected com_round_id st → flagged client = true →
     ∃ value, client_exec_round W com_round_id (ref client) (net st) (epochs config)
                (defense_flag st) = inr value) →
  ∃ boosted,
    result_of (malicious_boost (selected com_round_id st)
                 (mal_count (selected com_round_id st))
                 (foldl add_entry empty_tables newly) st0) = inr boosted.
Proof.
  intros Hperm Htrain.
  set (sel := selected com_round_id st) in *.
  destruct (malicious_boost_substitutes sel (foldl add_entry empty_tables newly) st0)
    as (Hsubst & Hnone & _).
  destruct (decide ((1 < mal_boost config)%Z ∧ (0 < mal_count sel)%Z))
    as [[Hbudget Hmal]|Hoff].
  2: { eexists. apply Hnone. pose proof (Nat2Z.is_nonneg (length (List.filter flagged sel))).
       unfold mal_count in *. lia. }
  destruct (last (map name (List.filter flagged sel))) as [source|] eqn:Hlast.
  2: { apply last_None, map_eq_nil in Hlast. unfold mal_count in Hmal.
       rewrite Hlast in Hmal. simpl in Hmal. lia. }
  assert (Hin : source ∈ map name (List.filter flagged sel)).
  { apply last_Some in Hlast as [front ->]. apply elem_of_app. right. by left. }
  apply list_elem_of_fmap in Hin as (client & Hname & Hclient).
  apply list_elem_of_In, filter_In in Hclient as [Hclient Hflagged].
  apply list_elem_of_In in Hclient.
  destruct (Htrain client Hclient Hflagged) as [value Hvalue].
  destruct (add_entries_held empty_tables newly client value) as [[w Hw] [z Hz]].
  { rewrite Hperm. apply list_elem_of_fmap. exists client. by rewrite Hvalue. }
  rewrite <-Hname in Hw, Hz.
  destruct (Hsubst _ _ _ Hbudget eq_refl Hw Hz) as [Hres _]. eauto.
Qed.

Lemma finish_round_returns com_round_id start_time selected_clients mal_this_round
    tables st boosted model :
  result_of (malicious_boost selected_clients mal_this_round tables st) = inr boosted →
  aggregate boosted = inr model →
  benign_hessian com_round_id selected_clients ≠ [] →
  result_of (finish_round com_round_id start_time selected_clients mal_this_round
               tables st) = inr ().
Proof.
  intros Hres Hmodel Hdrift.
  change (wp (finish_round com_round_id start_time selected_clients mal_this_round
                tables) st (λ _ _ res, res = inr ())).
  destruct (malicious_boost_trace selected_clients mal_this_round tables st)
    as (t_b & res_b & Hboost & _).
  rewrite Hboost in Hres. unfold result_of in Hres. simpl in Hres. subst res_b.
  unfold finish_round.
  eapply wp_bind_ok; [reflexivity|].
  eapply wp_bind_ok; [exact Hboost|].
  eapply wp_bind_ok; [by rewrite call_aggregation_eq, Hmodel|].
  eapply wp_bind_ok; [reflexivity|].
  eapply wp_bind_ok; [reflexivity|]. simpl.
  destruct (test W model) as [[test_accuracy test_loss] conf_mat].
  destruct (mal_test W model) as [[mal_accuracy mal_loss] mal_confidence].
  eapply wp_bind_ok; [reflexivity|]. simpl.
  pose proof (benign_hessian_benign _ _ Hdrift) as Hsome.
  destruct (benign_hessian com_round_id selected_clients) as [|entry entries]
    eqn:Hbenign; [done|].
  eapply wp_bind_ok; [by rewrite client_aggregate_hessian_eq, Hbenign|].
  destruct (length (List.filter benign selected_clients)) as [|n] eqn:Hn; [done|].
  eapply wp_bind_ok; [by rewrite client_aggregate_regular_loss_eq, Hn|].
  eapply wp_bind_ok; [apply wandb_log_eq|].
  eapply wp_bind_ok; [reflexivity|].
  match goal with |- wp (when _ defense_controller) ?s _ =>
    destruct (when_defense_controller_eq s) as [counter Hlast] end.
  eapply wp_run; [exact Hlast|]. done.
Qed.

(** A round returns when its selection fits the registry, every future
    completes within the polls followed, the training of every flagged
    selected learner returns, the aggregation call it makes returns a
    model and a benign selected learner reports a drift entry. *)
Lemma exec_round_returns com_round_id st :
  clients_per_round config ≤ length (clients st) →
  Forall (λ client, ∃ d, future_delay W com_round_id (ref client) = Some d
                         ∧ d ≤ patience W) (selected com_round_id st) →
  (∀ client, client ∈ selected com_round_id st → flagged client = true →
     ∃ value, client_exec_round W com_round_id (ref client) (net st) (epochs config)
                (defense_flag st) = inr value) →
  (∀ pre weights_in sizes_in beta post,
     trace_of (exec_round com_round_id st)
       = pre ++ EvAggregate weights_in sizes_in beta :: post →
     ∃ model, aggregation_method W weights_in sizes_in beta = inr model) →
  benign_hessian com_round_id (selected com_round_id st) ≠ [] →
  result_of (exec_round com_round_id st) = inr ().
Proof.
  intros Hsize Hlive Htrain Hagg Hdrift.
  destruct (exec_round_split com_round_id st Hsize)
    as (t_c & newly & res_c & _ & _ & Hres & Hdone & Hrun).
  destruct (Hdone Hlive) as [tables ->].
  destruct (Hres _ eq_refl) as [-> Hperm]. cbv zeta in Hrun.
  rewrite training_outcomes_eq in Hperm.
  injection Hrun as Ht _ Hr. rewrite Hr.
  match type of Ht with context [finish_round ?r ?s ?l ?m ?tb ?s_w] =>
    destruct (malicious_boost_returns com_round_id st newly s_w Hperm Htrain)
      as [boosted Hboosted];
    destruct (finish_round_spec r s l m tb s_w)
      as (t_b & res_b & Hboost & _ & _ & Hfinish)
  end.
  rewrite Hboost in Hboosted. unfold result_of at 1 in Hboosted. simpl in Hboosted.
  subst res_b. destruct Hfinish as (rest & Hclosing & _).
  destruct (Hagg (prelude com_round_id st ++ t_c ++ EvSleep 0.5 :: t_b)
              (client_weights boosted) (client_sizes boosted)
              (if bool_decide (aggregation config = "trmean")
               then Some (tm_beta config) else None) rest) as [model Hmodel].
  { rewrite Ht, Hclosing. unfold aggregate_event. by rewrite <-!app_assoc. }
  eapply finish_round_returns; [by rewrite Hboost|exact Hmodel|exact Hdrift].
Qed.

Lemma selected_same_registry com_round_id st st' :
  clients st' = clients st → selected com_round_id st' = selected com_round_id st.
Proof. unfold selected. by intros ->. Qed.

Lemma rounds_return round_ids st :
  (∀ com_round_id st', com_round_id ∈ round_ids → clients st' = clients st →
     result_of (exec_round com_round_id st') = inr ()) →
  result_of (for_each round_ids exec_round st) = inr ().
Proof.
  revert st. induction round_ids as [|com_round_id rest IH]; intros st Hall; [done|].
  assert (Hres : result_of (exec_round com_round_id st) = inr ())
    by (apply Hall; [by left|done]).
  rewrite (for_each_cons_ok _ _ _ _ Hres). project_run.
  destruct (round_outcome_state _ _ _ _ _ (exec_round_cases com_round_id st))
    as [Hclients _].
  apply IH. intros r st' Hr Hst'. apply Hall; [by right|]. by rewrite Hst'.
Qed.

Lemma all_ready_ready_state pass st : all_ready pass (ready_state st) = all_ready pass st.
Proof.
  unfold all_ready, ready_state. simpl.
  induction (clients st) as [|client rest IH]; [done|]. simpl. by rewrite IH.
Qed.

(** C7: the main loop.  A call of [run] returns when the registry is
    complete, the learners become ready, and in every round of the loop the
    selection fits the registry, the futures complete within the polls
    followed, the trainings of the flagged learners return, the aggregation
    call returns a model and a benign selected learner reports a drift
    entry.  A call that returns has sent, after the preparation, the events
    of the rounds 0, 1, ..., [rounds - 1], in this order, each round
    starting where the one before it ended and each one completing; one
    record per round is on the coordinator's stream, in the same order.
    Only then the ledger is flushed: the coordinator's stream first, then
    the stream of every registered learner, each once; nothing is flushed
    before.  A call that fails flushes nothing. *)
Theorem run_rounds_then_flush (st : Fed) :
  (Z.of_nat (length (clients st)) = (world_size config - 1)%Z →
   (∃ k, k ≤ patience W ∧ all_ready k st = true) →
   clients_per_round config ≤ length (clients st) →
   (∀ com_round_id dest, dest ∈ map ref (clients st) →
      ∃ d, future_delay W com_round_id dest = Some d ∧ d ≤ patience W) →
   (∀ com_round_id dest held start_defense,
      dest ∈ map ref (clients st) → get_client_status W dest = true →
      ∃ value, client_exec_round W com_round_id dest held (epochs config)
                 start_defense = inr value) →
   (∀ com_round_id st' pre weights_in sizes_in beta post,
      clients st' = clients (ready_state st) →
      trace_of (exec_round com_round_id st')
        = pre ++ EvAggregate weights_in sizes_in beta :: post →
      ∃ model, aggregation_method W weights_in sizes_in beta = inr model) →
   (∀ com_round_id, (0 ≤ com_round_id < rounds config)%Z →
      benign_hessian com_round_id (selected com_round_id (ready_state st)) ≠ []) →
   result_of (run st) = inr ())
  ∧ (result_of (run st) = inr () →
     ∃ t_setup,
       trace_of (run st)
         = t_setup
             ++ concat (round_traces (seqZ 0 (rounds config)) (ready_state st))
             ++ EvSave "federator" :: map (λ client, EvSave (name client)) (clients st)
       ∧ Forall setup_event t_setup
       ∧ (rounds_from (seqZ 0 (rounds config)) (ready_state st)).*1
           = seqZ 0 (rounds config)
       ∧ Forall (λ start, result_of (exec_round start.1 start.2) = inr ())
                (rounds_from (seqZ 0 (rounds config)) (ready_state st))
       ∧ Forall (λ e, phase e ≠ 4)
                (t_setup ++ concat (round_traces (seqZ 0 (rounds config))
                                                 (ready_state st)))
       ∧ ∃ records,
           exp_data (state_of (run st)) = exp_data st ++ records
           ∧ map round_id records = seqZ 0 (rounds config))
  ∧ (∀ e, result_of (run st) = inl e →
       Forall (λ e, phase e ≠ 4) (trace_of (run st))).
Proof.
  destruct (run_outcome st) as [Hok Hfail]. split_and!; [|
    intros Hres; destruct (Hok Hres) as (t_setup & Ht & Hsetup & Hall & Hphase & Hrec);
      exists t_setup; split_and!; try done; apply rounds_from_ids|done].
  intros Honline [k [Hk Hready]] Hsize Hlive Htrain Hagg Hdrift.
  assert (Hrefs : map ref (clients (ready_state st)) = map ref (clients st)).
  { unfold ready_state. simpl. by rewrite map_map. }
  assert (Hrounds : result_of (for_each (seqZ 0 (rounds config)) exec_round
                                 (ready_state st)) = inr ()).
  { apply rounds_return. intros com_round_id st' Hin Hst'.
    apply elem_of_seqZ in Hin.
    pose proof (selected_same_registry com_round_id _ _ Hst') as Hsel.
    assert (Hsub : ∀ client, client ∈ selected com_round_id st' →
              ref client ∈ map ref (clients st)).
    { intros client Hclient. rewrite <-Hrefs, <-Hst'.
      apply list_elem_of_fmap. exists client. split; [done|].
      eapply elem_of_submseteq; [exact Hclient|]. apply sample_submseteq. }
    apply exec_round_returns.
    - rewrite Hst'. unfold ready_state. simpl. by rewrite length_map.
    - apply Forall_forall. intros client Hclient. by apply Hlive, Hsub.
    - intros client Hclient Hflagged. by apply Htrain; [apply Hsub|].
    - intros pre w s b post. by apply Hagg.
    - rewrite Hsel. apply Hdrift. lia. }
  unfold run.
  erewrite bind_ok by reflexivity. cbv beta.
  rewrite bool_decide_true by done.
  erewrite bind_ok by reflexivity.
  rewrite (bind_ok _ _ _ _ _ _ (client_load_data_eq _)).
  rewrite (bind_ok _ _ _ _ _ _ (get_client_data_sizes_eq _)).
  fold (ready_state st). project_run.
  destruct (clients_ready_loop_spec (patience W) 0 (ready_state st)) as [_ Hsame].
  fold clients_ready in Hsame.
  assert (Hready' : clients_ready (ready_state st)
                    = (trace_of (clients_ready (ready_state st)), ready_state st, inr ())).
  { pose proof (clients_ready_loop_returns (patience W) 0 k (ready_state st) Hk) as Hret.
    fold clients_ready in Hret. rewrite all_ready_ready_state in Hret.
    rewrite (run_eta (clients_ready (ready_state st))) at 1.
    by rewrite Hsame, (Hret Hready). }
  rewrite (bind_ok _ _ _ _ _ _ Hready'). project_run.
  assert (Hloop : for_each (seqZ 0 (rounds config)) exec_round (ready_state st)
                  = (trace_of (for_each (seqZ 0 (rounds config)) exec_round
                                 (ready_state st)),
                     state_of (for_each (seqZ 0 (rounds config)) exec_round
                                 (ready_state st)), inr ()))
    by (rewrite <-Hrounds; apply run_eta).
  rewrite (bind_ok _ _ _ _ _ _ Hloop). project_run.
  by rewrite save_data_eq.
Qed.

End federator.

(** ** A small federation to run the coordinator on *)

Definition demo_client (i : nat) : LocalClient :=
  {| name := "client" +:+ pretty i; ref := "worker" +:+ pretty i; data_size := 0;
     client_exp_data := i |}.

(** The accuracy the model of a round reaches: 90, then 80, then 70. *)
Definition demo_accuracy (com_round_id : Z) : float :=
  if (com_round_id =? 0)%Z then 90%float
  else if (com_round_id =? 1)%Z then 80%float else 70%float.

(** The number in the reference of a learner. *)
Definition demo_index (to_ref : string) : nat :=
  if bool_decide (to_ref = "worker1") then 1
  else if bool_decide (to_ref = "worker2") then 2
  else if bool_decide (to_ref = "worker3") then 3
  else if bool_decide (to_ref = "worker4") then 4
  else if bool_decide (to_ref = "worker5") then 5
  else 0.

(** Every learner returns weights of its own: the accuracy of the round,
    then its number, then the parameters it trained from. *)
Definition demo_training (com_round_id : Z) (to_ref : string) (held : params)
    (num_epochs : Z) (start_defense : bool) : exn + TrainResult :=
  inr {| train_loss := 1;
         weights := demo_accuracy com_round_id
                      :: float_of_nat (demo_index to_ref) :: held;
         accuracy := 50; test_loss := 1;
         round_duration := 3; train_duration := 2; test_duration := 1;
         c_mat := [] |}.

(** Learner 2 answers after two polls, the others at once; learner [i]
    reports a data size of [10 * i].  The aggregation returns the weights
    of the first table entry, and the central evaluation reads the accuracy
    off the model. *)
Definition demo_world (is_flagged : string → bool)
    (hessian : string → list (float * float)) (regular_loss : float) : World :=
  {| np_random_draw := λ seed drawn, (Z.to_nat seed + 2 * drawn)%nat;
     get_client_status := is_flagged;
     get_client_datasize := λ to_ref, Z.of_nat (10 * demo_index to_ref);
     client_exec_round := demo_training;
     future_delay := λ com_round_id to_ref,
       if bool_decide (to_ref = "worker2") then Some 2 else Some 0;
     get_client_hessian := λ com_round_id to_ref, hessian to_ref;
     get_client_regular_loss := λ com_round_id to_ref, regular_loss;
     is_ready := λ pass to_ref, true;
     aggregation_method := λ client_weights client_sizes beta,
       inr (default [] (head (map_to_list client_weights).*2));
     test := λ model, (default 0%float (head model), 1%float, []);
     mal_test := λ model, (10%float, 1%float, 0.5%float);
     clock := float_of_nat;
     patience := 10 |}.

Definition third_flagged (to_ref : string) : bool := bool_decide (to_ref = "worker3").

Definition none_flagged (to_ref : string) : bool := false.

Definition all_flagged (to_ref : string) : bool := true.

Definition one_entry (percent magnitude : float) (to_ref : string)
  : list (float * float) := [(percent, magnitude)].

Definition no_entry (to_ref : string) : list (float * float) := [].

(** Learner 3 is flagged; every benign learner reports one drift entry. *)
Definition demo_federation : World := demo_world third_flagged (one_entry 1 2) 0.5.

Definition demo_config (per_round : nat) (boost : Z) (controller : bool) : Config :=
  {| epochs := 1; clients_per_round := per_round; regular_schedule := false;
     mal_boost := boost; aggregation := "fedavg"; tm_beta := 0.1;
     use_wandb := true; config_defense_controller := controller;
     rounds := 2; world_size := 6 |}.

Definition demo_fed (counter : Z) : Fed :=
  {| clients := map demo_client [1; 2; 3; 4; 5]; exp_data := [];
     defense_controller_counter := counter; net := [0%float];
     data_containers := ∅; learner_net := ∅; np_random := (0%Z, O);
     clock_reads := 0 |}.

(** The position of the aggregation call in a trace. *)
Definition is_aggregate (e : event) : bool :=
  match e with EvAggregate _ _ _ => true | _ => false end.

Definition saved_stream (e : event) : option string :=
  match e with EvSave stream => Some stream | _ => None end.

Lemma split_at_aggregate (t : list event) (i : nat) :
  is_aggregate <$> t !! i = Some true →
  ∃ client_weights client_sizes beta,
    t = take i t ++ EvAggregate client_weights client_sizes beta :: drop (S i) t.
Proof.
  destruct (t !! i) as [e|] eqn:Hi; [|done].
  destruct e as [| | | |client_weights client_sizes beta| |]; try done.
  intros _. exists client_weights, client_sizes, beta.
  by rewrite take_drop_middle.
Qed.

(** A round of five learners with a boost of 3: learner 2 is waited for,
    then the aggregation is called. *)
Lemma barrier_before_aggregation_witness :
  ∃ polling t_boost,
    take 40 (trace_of (exec_round demo_federation (demo_config 5 3 false) 0
                         (demo_fed 0)))
      = polling ++ EvSleep 0.5 :: t_boost
    ∧ dispatched_refs polling = ["worker1"; "worker4"; "worker3"; "worker2"; "worker5"]
    ∧ done_refs polling ≡ₚ dispatched_refs polling.
Proof.
  destruct (split_at_aggregate
              (trace_of (exec_round demo_federation (demo_config 5 3 false) 0
                           (demo_fed 0))) 40)
    as (client_weights & client_sizes & beta & Ht); [by vm_compute|].
  destruct (barrier_before_aggregation _ _ _ _ _ _ _ _ _ Ht)
    as (polling & t_boost & Hpre & Hsent & Hdone & _).
  exists polling, t_boost. split_and!; [exact Hpre| |exact Hdone].
  rewrite Hsent. by vm_compute.
Defined.

Lemma selection_distinct_and_reproducible_witness :
  result_of ((np_random_seed 7;; random_selection demo_federation 3) (demo_fed 0))
    = inr (selected demo_federation (demo_config 3 1 false) 7 (demo_fed 0))
  ∧ result_of ((np_random_seed 7;; random_selection demo_federation 3)
                 (set_np_random (42%Z, 9) (demo_fed 0)))
    = inr (selected demo_federation (demo_config 3 1 false) 7 (demo_fed 0))
  ∧ map name (selected demo_federation (demo_config 3 1 false) 7 (demo_fed 0))
    = ["client3"; "client2"; "client5"].
Proof.
  destruct (selection_distinct_and_reproducible demo_federation
              (demo_config 3 1 false) 7 (demo_fed 0)
              (set_np_random (42%Z, 9) (demo_fed 0)))
    as (Hfirst & Hsecond & _); [simpl; lia|reflexivity|].
  split_and!; [exact Hfirst|exact Hsecond|by vm_compute].
Defined.

Lemma defense_flag_default_true_witness :
  ∃ start_defense,
    EvMessageAsync "worker1" (Client_exec_round 1 start_defense)
      ∈ trace_of (exec_round demo_federation (demo_config 2 1 false) 0 (demo_fed 0))
    ∧ start_defense = true.
Proof.
  assert (Hsent : EvMessageAsync "worker1" (Client_exec_round 1 true)
            ∈ trace_of (exec_round demo_federation (demo_config 2 1 false) 0
                          (demo_fed 0))).
  { apply (list_elem_of_lookup_2 _ 6). by vm_compute. }
  exists true. split; [exact Hsent|].
  exact (defense_flag_default_true demo_federation (demo_config 2 1 false) 0
           (demo_fed 0) "worker1" 1 true eq_refl Hsent).
Defined.

Lemma defense_window_witness :
  Forall (λ flag, flag = true)
    (dispatch_flags
       (trace_of (for_each (seqZ 0 5)
                    (exec_round demo_federation (demo_config 2 1 true))
                    (demo_fed 5)))).
Proof.
  destruct (defense_window demo_federation (demo_config 2 1 true) eq_refl)
    as (_ & _ & _ & Hwindow & _).
  apply Hwindow. vm_compute. discriminate.
Defined.

(** C3 fails as stated: the accuracy drops after round 1 and again after
    round 2.  The first drop arms the countdown, the second one falls into
    it and is ignored: the rounds 2 to 6 send the flag true, and round 7,
    the fifth round after the second drop, sends it false. *)
Lemma drop_inside_window_ignored :
  let r := for_each (seqZ 0 8) (exec_round demo_federation (demo_config 2 1 true))
             (demo_fed 0) in
  config_defense_controller (demo_config 2 1 true) = true
  ∧ result_of r = inr ()
  ∧ map test_accuracy (exp_data (state_of r))
    = [90; 80; 70; 70; 70; 70; 70; 70]%float
  ∧ accuracy_drop (take 2 (exp_data (state_of r))) = true
  ∧ accuracy_drop (take 3 (exp_data (state_of r))) = true
  ∧ map (λ start, dispatch_flags
                    (trace_of (exec_round demo_federation (demo_config 2 1 true)
                                 start.1 start.2)))
        (rounds_from demo_federation (demo_config 2 1 true) (seqZ 0 8) (demo_fed 0))
    = [[false; false]; [false; false]; [true; true]; [true; true];
       [true; true]; [true; true]; [true; true]; [false; false]].
Proof. by vm_compute. Qed.

(** C6 fails as stated: two federations that differ in the flagged
    learners, in the drift entries and in the regular loss leave the same
    record behind. *)
Lemma record_misses_diagnostics :
  let other := demo_world none_flagged (one_entry 3 4) 0.25 in
  let config := demo_config 5 1 false in
  let r := exec_round demo_federation config 0 (demo_fed 0) in
  let r' := exec_round other config 0 (demo_fed 0) in
  result_of r = inr () ∧ result_of r' = inr ()
  ∧ exp_data (state_of r) = exp_data (state_of r')
  ∧ length (exp_data (state_of r)) = 1
  ∧ mal_count demo_federation (selected demo_federation config 0 (demo_fed 0)) = 1%Z
  ∧ mal_count other (selected other config 0 (demo_fed 0)) = 0%Z
  ∧ result_of (client_aggregate_hessian demo_federation 0
                 (selected demo_federation config 0 (demo_fed 0)) (demo_fed 0))
    = inr (1, 2)%float
  ∧ result_of (client_aggregate_hessian other 0
                 (selected other config 0 (demo_fed 0)) (demo_fed 0))
    = inr (3, 4)%float
  ∧ result_of (client_aggregate_regular_loss demo_federation 0
                 (selected demo_federation config 0 (demo_fed 0)) (demo_fed 0))
    = inr 0.5%float
  ∧ result_of (client_aggregate_regular_loss other 0
                 (selected other config 0 (demo_fed 0)) (demo_fed 0))
    = inr 0.25%float.
Proof. by vm_compute. Qed.

(** C9 fails as stated: four of the five selected learners are benign, but
    none of them reports a drift entry; the regular-loss mean is defined,
    the drift means divide by zero and the round fails. *)
Lemma benign_learners_without_drift_entries :
  let silent := demo_world third_flagged no_entry 0.5 in
  let config := demo_config 5 1 false in
  length (List.filter (benign silent) (selected silent config 0 (demo_fed 0))) = 4
  ∧ result_of (client_aggregate_regular_loss silent 0
                 (selected silent config 0 (demo_fed 0)) (demo_fed 0))
    = inr 0.5%float
  ∧ result_of (client_aggregate_hessian silent 0
                 (selected silent config 0 (demo_fed 0)) (demo_fed 0))
    = inl ZeroDivisionError
  ∧ result_of (exec_round silent config 0 (demo_fed 0)) = inl ZeroDivisionError.
Proof. by vm_compute. Qed.

(** A round in which every selected learner is flagged. *)
Example all_flagged_round_fails :
  let hostile := demo_world all_flagged (one_entry 1 2) 0.5 in
  result_of (exec_round hostile (demo_config 2 1 false) 0 (demo_fed 0))
    = inl ZeroDivisionError
  ∧ exp_data (state_of (exec_round hostile (demo_config 2 1 false) 0 (demo_fed 0)))
    = [].
Proof. by vm_compute. Qed.

(** The experiment of two rounds: the ledger is flushed at the end. *)
Example demo_run_flushes_last :
  let r := run demo_federation (demo_config 2 1 true) (demo_fed 0) in
  result_of r = inr ()
  ∧ map round_id (exp_data (state_of r)) = [0; 1]%Z
  ∧ omap saved_stream (trace_of r)
    = ["federator"; "client1"; "client2"; "client3"; "client4"; "client5"]
  ∧ drop (length (trace_of r) - 6) (trace_of r)
    = flush_events (clients (demo_fed 0)).
Proof. by vm_compute. Qed.

(** A federation in which learner 2 is ready from the third pass on. *)
Definition demo_slow_federation : World :=
  {| np_random_draw := np_random_draw demo_federation;
     get_client_status := get_client_status demo_federation;
     get_client_datasize := get_client_datasize demo_federation;
     client_exec_round := client_exec_round demo_federation;
     future_delay := future_delay demo_federation;
     get_client_hessian := get_client_hessian demo_federation;
     get_client_regular_loss := get_client_regular_loss demo_federation;
     is_ready := λ pass to_ref, negb (bool_decide (to_ref = "worker2")) || (2 <=? pass);
     aggregation_method := aggregation_method demo_federation;
     test := test demo_federation;
     mal_test := mal_test demo_federation;
     clock := clock demo_federation;
     patience := patience demo_federation |}.

Lemma clients_ready_passes_witness :
  clients_ready demo_slow_federation (demo_fed 0)
    = (concat (replicate 3 (ready_pass_events (demo_fed 0))), demo_fed 0, inr ()).
Proof.
  apply (clients_ready_passes demo_slow_federation 2 (demo_fed 0)).
  - intros [|[|p]] Hp; [reflexivity|reflexivity|lia].
  - reflexivity.
  - simpl. lia.
Defined.

Lemma defense_counter_bounded_witness :
  (0 ≤ defense_controller_counter
         (state_of (for_each (seqZ 0 8)
                      (exec_round demo_federation (demo_config 2 1 true))
                      (demo_fed 0))) ≤ 5)%Z.
Proof.
  apply (defense_counter_bounded demo_federation (demo_config 2 1 true) (seqZ 0 8)
           (demo_fed 0)).
  simpl. lia.
Defined.

Lemma defense_off_in_first_two_rounds_witness :
  Forall (λ flag, flag = false)
    (dispatch_flags
       (trace_of (for_each [0%Z; 1%Z]
                    (exec_round demo_federation (demo_config 2 1 true))
                    (demo_fed 0)))).
Proof.
  exact (defense_off_in_first_two_rounds demo_federation (demo_config 2 1 true)
           0 1 (demo_fed 0) eq_refl eq_refl eq_refl).
Defined.

(** A federation in which the training of learner 4 raises. *)
Definition demo_failing_federation : World :=
  {| np_random_draw := np_random_draw demo_federation;
     get_client_status := get_client_status demo_federation;
     get_client_datasize := get_client_datasize demo_federation;
     client_exec_round := λ com_round_id to_ref held num_epochs start_defense,
       if bool_decide (to_ref = "worker4") then inl RuntimeError
       else demo_training com_round_id to_ref held num_epochs start_defense;
     future_delay := future_delay demo_federation;
     get_client_hessian := get_client_hessian demo_federation;
     get_client_regular_loss := get_client_regular_loss demo_federation;
     is_ready := is_ready demo_federation;
     aggregation_method := aggregation_method demo_federation;
     test := test demo_federation;
     mal_test := mal_test demo_federation;
     clock := clock demo_federation;
     patience := patience demo_federation |}.


Lemma aggregation_reads_training_results_witness :
  ∃ weights_in sizes_in,
    EvAggregate weights_in sizes_in None
      ∈ trace_of (exec_round demo_failing_federation (demo_config 5 1 false) 0
                    (demo_fed 0))
    ∧ weights_in !! "client4" = None
    ∧ sizes_in !! "client4" = None
    ∧ weights_in !! "client1" = Some [90; 1; 0]%float
    ∧ sizes_in !! "client1" = Some 10%Z.
Proof.
  destruct (split_at_aggregate
              (trace_of (exec_round demo_failing_federation (demo_config 5 1 false) 0
                           (demo_fed 0))) 32)
    as (weights_in & sizes_in & beta & Ht); [by vm_compute|].
  destruct (aggregation_reads_training_results _ _ _ _ _ _ _ _ _ Ht)
    as (newly & _ & Hboost & -> & Hnone & Hsome).
  assert (Htables : foldl (add_entry demo_failing_federation) empty_tables newly
                    = {| client_weights := weights_in; client_sizes := sizes_in |})
    by (by injection Hboost).
  rewrite Htables in Hnone, Hsome. simpl in Hnone, Hsome.
  destruct (Hnone "client4") as [Hw4 Hz4].
  { intros client Hclient Hname.
    assert (Hall : Forall (λ client, name client = "client4" →
                      ref client = "worker4")
                     (selected demo_failing_federation (demo_config 5 1 false) 0
                        (demo_fed 0))).
    { apply (bool_decide_unpack _). by vm_compute. }
    rewrite Forall_forall in Hall. rewrite (Hall client Hclient Hname).
    by exists RuntimeError. }
  destruct (Hsome) with (client := demo_client 1)
    (value := {| train_loss := 1; weights := [90; 1; 0]%float; accuracy := 50;
                 test_loss := 1; round_duration := 3; train_duration := 2;
                 test_duration := 1; c_mat := [] |}) as [Hw1 Hz1].
  { apply (bool_decide_unpack _). by vm_compute. }
  { apply (list_elem_of_lookup_2 _ 0). by vm_compute. }
  { by vm_compute. }
  exists weights_in, sizes_in. split_and!.
  - rewrite Ht. apply elem_of_app. right. by left.
  - exact Hw4.
  - exact Hz4.
  - exact Hw1.
  - exact Hz1.
Defined.

Lemma run_rounds_then_flush_witness :
  result_of (run demo_federation (demo_config 2 1 true) (demo_fed 0)) = inr ().
Proof.
  apply (proj1 (run_rounds_then_flush demo_federation (demo_config 2 1 true)
                  (demo_fed 0))).
  - reflexivity.
  - exists 0. split; [simpl; lia|reflexivity].
  - simpl. lia.
  - intros com_round_id dest _. simpl.
    destruct (bool_decide (dest = "worker2")); eexists; (split; [reflexivity|lia]).
  - intros com_round_id dest held start_defense _ _. by eexists.
  - intros com_round_id st' pre weights_in sizes_in beta post _ _. by eexists.
  - intros com_round_id Hround.
    assert (com_round_id = 0 ∨ com_round_id = 1)%Z as [-> | ->] by (simpl in Hround; lia);
      by vm_compute.
Defined.

End Federator.
